(** * Nexora hybrid retrieval and graph-consistency engine

A shallow embedding of the retrieval core of the repository
([core.py], [functions/chunkfunc.py], [functions/rerank_client.py],
[functions/rag_pg_store.py], [graphfunc/graph_pg_store.py]) together
with the properties its design document states about it.

Conventions of the embedding
- a Python [str] is a list of Unicode code points ([PyStr.str]);
- a Python [dict] with a fixed set of keys is a record whose fields are
  options ([None] stands for a missing key or a [None] value);
- a PostgreSQL table is the list of its rows; a statement maps the
  table to the new table (the row-level-security policies live in the
  database schema, which is outside the repository, and are taken as
  parameters where a query relies on them);
- numeric columns and scores are rationals ([Q]);
- a call that can raise returns [result A = exn + A]. *)

From Stdlib Require Import ZArith QArith Qminmax Lia Lqa Sorted.
From Stdlib Require Import Ascii String DecimalString DecimalZ.
From stdpp Require Import base option list functions sorting gmap.

Local Open Scope Z_scope.

(* ===================================================================== *)
(** * Python strings *)
(* ===================================================================== *)

Module PyStr.

Definition char := N.
Definition str := list N.

(** An ASCII literal of the source, as code points. *)
Definition lit (s : string) : str :=
  List.map N_of_ascii (list_ascii_of_string s).

Definition in_range (lo hi c : N) : bool := (N.leb lo c && N.leb c hi)%bool.

(** [str.isspace] on one character: the Unicode white-space characters
    (bidirectional class WS, B or S, or category Zs). *)
Definition isspace (c : char) : bool :=
  (in_range 9 13 c || in_range 28 32 c || N.eqb c 133 || N.eqb c 160
   || N.eqb c 5760 || in_range 8192 8202 c || N.eqb c 8232 || N.eqb c 8233
   || N.eqb c 8239 || N.eqb c 8287 || N.eqb c 12288)%bool.

(** The line boundaries of [str.splitlines]. *)
Definition is_linebreak (c : char) : bool :=
  (in_range 10 13 c || in_range 28 30 c || N.eqb c 133
   || N.eqb c 8232 || N.eqb c 8233)%bool.

Fixpoint drop_while (p : char -> bool) (s : str) : str :=
  match s with
  | [] => []
  | c :: s' => if p c then drop_while p s' else s
  end.

Definition lstrip (s : str) : str := drop_while isspace s.
Definition rstrip (s : str) : str := rev (drop_while isspace (rev s)).
Definition strip (s : str) : str := lstrip (rstrip s).

(** [s.rstrip(chars)]: trailing characters that occur in [chars] go. *)
Definition rstrip_chars (chars : str) (s : str) : str :=
  rev (drop_while (fun c => bool_decide (c ∈ chars)) (rev s)).

Fixpoint startswith (s p : str) : bool :=
  match p, s with
  | [], _ => true
  | _ :: _, [] => false
  | a :: p', b :: s' => (N.eqb a b && startswith s' p')%bool
  end.

Definition endswith (s p : str) : bool := startswith (rev s) (rev p).

(** [s[:k]] for an integer [k] of either sign (of a string or a list). *)
Definition slice_to {A} (k : Z) (s : list A) : list A :=
  if 0 <=? k then take (Z.to_nat k) s
  else take (length s - Z.to_nat (- k)) s.

(** [s[k:]] for a non-negative [k]. *)
Definition slice_from (k : nat) (s : str) : str := drop k s.

(** [str.splitlines()]: a CR LF pair is one boundary, and the text after
    the last boundary is a line only when it is not empty. *)
Fixpoint splitlines (s : str) : list str :=
  match s with
  | [] => []
  | c :: s' =>
      if is_linebreak c then
        [] :: (if N.eqb c 13
               then match s' with
                    | 10%N :: s'' => splitlines s''
                    | _ => splitlines s'
                    end
               else splitlines s')
      else
        match splitlines s' with
        | [] => [[c]]
        | l :: ls => (c :: l) :: ls
        end
  end.

(** The fields between the characters satisfying [p] (empty ones too). *)
Fixpoint fields (p : char -> bool) (s : str) : list str :=
  match s with
  | [] => [[]]
  | c :: s' =>
      if p c then [] :: fields p s'
      else match fields p s' with
           | [] => [[c]]
           | l :: ls => (c :: l) :: ls
           end
  end.

Definition nonempty (s : str) : bool :=
  match s with [] => false | _ => true end.

(** [s.split()]: the maximal runs of non-space characters. *)
Definition split_ws (s : str) : list str :=
  List.filter nonempty (fields isspace s).

(** [sep.join(parts)]. *)
Fixpoint join (sep : str) (parts : list str) : str :=
  match parts with
  | [] => []
  | [x] => x
  | x :: rest => x ++ sep ++ join sep rest
  end.

(** [c in s] for one character. *)
Definition contains_char (c : char) (s : str) : bool := bool_decide (c ∈ s).

(** [s.split(c, 1)] when [c] occurs in [s]: the text before the first
    [c] and the text after it. *)
Fixpoint split_once (c : char) (s : str) : option (str * str) :=
  match s with
  | [] => None
  | x :: s' =>
      if N.eqb x c then Some ([], s')
      else match split_once c s' with
           | Some (k, v) => Some (x :: k, v)
           | None => None
           end
  end.

(** [s.replace(a, b)] for a single character [a]. *)
Definition replace_char (a : char) (b : str) (s : str) : str :=
  concat (List.map (fun c => if N.eqb c a then b else [c]) s).

(** [s.lower()] on the ASCII letters; other characters are kept. *)
Definition lower (s : str) : str :=
  List.map (fun c => if in_range 65 90 c then (c + 32)%N else c) s.

(** ** Integers and their decimal text *)

Fixpoint uint_chars (u : Decimal.uint) : str :=
  match u with
  | Decimal.Nil => []
  | Decimal.D0 u => 48%N :: uint_chars u
  | Decimal.D1 u => 49%N :: uint_chars u
  | Decimal.D2 u => 50%N :: uint_chars u
  | Decimal.D3 u => 51%N :: uint_chars u
  | Decimal.D4 u => 52%N :: uint_chars u
  | Decimal.D5 u => 53%N :: uint_chars u
  | Decimal.D6 u => 54%N :: uint_chars u
  | Decimal.D7 u => 55%N :: uint_chars u
  | Decimal.D8 u => 56%N :: uint_chars u
  | Decimal.D9 u => 57%N :: uint_chars u
  end.

(** [str(z)] for an [int]. *)
Definition str_of_int (z : Z) : str :=
  match Z.to_int z with
  | Decimal.Pos u => uint_chars u
  | Decimal.Neg u => 45%N :: uint_chars u
  end.

Definition digit_cons (c : char) : option (Decimal.uint -> Decimal.uint) :=
  match c with
  | 48%N => Some Decimal.D0 | 49%N => Some Decimal.D1
  | 50%N => Some Decimal.D2 | 51%N => Some Decimal.D3
  | 52%N => Some Decimal.D4 | 53%N => Some Decimal.D5
  | 54%N => Some Decimal.D6 | 55%N => Some Decimal.D7
  | 56%N => Some Decimal.D8 | 57%N => Some Decimal.D9
  | _ => None
  end.

(** The digits of an integer literal: decimal digits, with single
    underscores allowed between two digits.  [after_digit] tells whether
    the previous character was a digit. *)
Fixpoint parse_digits (after_digit : bool) (s : str) : option Decimal.uint :=
  match s with
  | [] => if after_digit then Some Decimal.Nil else None
  | c :: s' =>
      match digit_cons c with
      | Some d => d <$> parse_digits true s'
      | None =>
          if (N.eqb c 95 && after_digit)%bool then
            match s' with
            | [] => None
            | _ => parse_digits false s'
            end
          else None
      end
  end.

(** [int(s)] for a string: surrounding white space, an optional sign, and
    ASCII decimal digits; [None] stands for [ValueError].  (Decimal
    digits of other scripts, which Python also accepts, and the
    interpreter's limit on the number of digits are not modelled.) *)
Definition int_of_str (s : str) : option Z :=
  match strip s with
  | [] => None
  | c :: ds =>
      if N.eqb c 45 then (fun u => Z.of_int (Decimal.Neg u)) <$> parse_digits false ds
      else if N.eqb c 43 then (fun u => Z.of_int (Decimal.Pos u)) <$> parse_digits false ds
      else (fun u => Z.of_int (Decimal.Pos u)) <$> parse_digits false (c :: ds)
  end.

End PyStr.

Import PyStr.

(* ===================================================================== *)
(** * Shared data: exceptions, configuration, hits *)
(* ===================================================================== *)

(** A raised exception: [type(e).__name__] and [str(e)]. *)
Record exn := Exn { exn_type : str; exn_msg : str }.

Definition result (A : Type) : Type := exn + A.

Definition ok {A} (a : A) : result A := inr a.
Definition raise {A} (e : exn) : result A := inl e.

Definition bind {A B} (m : result A) (k : A -> result B) : result B :=
  match m with
  | inl e => inl e
  | inr a => k a
  end.

Notation "x <- m ;; k" := (bind m (fun x => k))
  (at level 100, m at next level, right associativity).

(** [try: m  except Exception: h]. *)
Definition try_except {A} (m : result A) (h : exn -> A) : A :=
  match m with
  | inl e => h e
  | inr a => a
  end.

(** The settings of [config.py] that the modelled functions read. *)
Record Config := {
  META_PREFIX : str;
  PRE_RERANK_MERGE_MAX_CHARS : Z;
  SPECIAL_BLOCK_MAX_CHARS : Z;
  MAX_PDF_CONTEXT_CHARS : Z;
  PDF_TOP_K_CHUNKS : Z;
  EMBED_DIM : Z;
  RERANK_ENABLED : bool;
  RERANK_CANDIDATES : Z;
  RERANK_MIN_SCORE : option Q;
  GRAPH_CHUNK_CANDIDATES : Z;
  VECTOR_CHUNK_CANDIDATES : Z;
  GRAPH_ENTITY_MIN_SIM : option Q;
  GRAPH_ENTITY_PROMPTS : list (str * str);
  GRAPH_ENTITY_PROMPT_DEFAULT : str;
  GRAPH_ENABLED : bool;
  RAG_APP_ID : str;
  RAG_CLEARANCE : Z
}.

(** The values [config.py] sets when the environment overrides nothing.
    The three prompt texts are long English instructions; only their keys
    matter here. *)
Definition default_config : Config := {|
  META_PREFIX := lit "[[META";
  PRE_RERANK_MERGE_MAX_CHARS := 9000;
  SPECIAL_BLOCK_MAX_CHARS := 20000;
  MAX_PDF_CONTEXT_CHARS := 8000;
  PDF_TOP_K_CHUNKS := 3;
  EMBED_DIM := 1536;
  RERANK_ENABLED := true;
  RERANK_CANDIDATES := 10;
  RERANK_MIN_SCORE := Some (4 # 10)%Q;
  GRAPH_CHUNK_CANDIDATES := 20;
  VECTOR_CHUNK_CANDIDATES := 40;
  GRAPH_ENTITY_MIN_SIM := None;
  GRAPH_ENTITY_PROMPTS :=
    [(lit "strict", lit "strict prompt");
     (lit "medium_it", lit "medium_it prompt");
     (lit "loose", lit "loose prompt")];
  GRAPH_ENTITY_PROMPT_DEFAULT := lit "strict";
  GRAPH_ENABLED := false;
  RAG_APP_ID := lit "appA";
  RAG_CLEARANCE := 2
|}.

(** A retrieval hit, the dictionary
    [{chunk_id, doc_id, version_id, chunk_text, score}]. *)
Record Hit := {
  chunk_id : option str;
  doc_id : option str;
  version_id : option str;
  chunk_text : option str;
  score : option Q
}.

Definition set_chunk_text (t : str) (h : Hit) : Hit :=
  {| chunk_id := chunk_id h; doc_id := doc_id h; version_id := version_id h;
     chunk_text := Some t; score := score h |}.

(** [h.get("chunk_text") or ""]. *)
Definition text_or_empty (h : Hit) : str := default [] (chunk_text h).

(** Python truthiness of an optional string. *)
Definition truthy (o : option str) : bool :=
  match o with
  | Some (_ :: _) => true
  | _ => false
  end.

(** The order-preserving removal of repeated elements that the code
    writes as a loop over a [seen] set, or as [list(dict.fromkeys(l))]:
    the first occurrence of every element stays. *)
Fixpoint first_seen_from `{EqDecision A} (seen : list A) (l : list A) : list A :=
  match l with
  | [] => []
  | x :: l' =>
      if bool_decide (x ∈ seen) then first_seen_from seen l'
      else x :: first_seen_from (x :: seen) l'
  end.

Definition first_seen `{EqDecision A} (l : list A) : list A :=
  first_seen_from [] l.

(* ===================================================================== *)
(** * functions/chunkfunc.py *)
(* ===================================================================== *)

Module ChunkFunc.

(** A value of the header dictionary: a string, or the page number once
    [int] has accepted it. *)
Inductive pyval := VStr (s : str) | VInt (z : Z).

#[export] Instance pyval_eq_dec : EqDecision pyval.
Proof. solve_decision. Defined.

(** [str(v)], also what an f-string prints for [v]. *)
Definition to_str (v : pyval) : str :=
  match v with
  | VStr s => s
  | VInt z => str_of_int z
  end.

(** What an f-string prints for a value that may be [None]. *)
Definition fmt (v : option pyval) : str :=
  match v with
  | None => lit "None"
  | Some x => to_str x
  end.

(** [build_meta_header]: the fields [type], [page], [caption], in this
    order, each left out when [None] or empty. *)
Definition header_value (v : pyval) : str :=
  let s := strip (replace_char 10%N [32%N] (replace_char 93%N [] (to_str v))) in
  if (120 <? length s)%nat then take 120 s ++ [8230%N] else s.

Definition header_part (k : str) (v : option pyval) : list str :=
  match v with
  | None => []
  | Some (VStr []) => []
  | Some x => [k ++ [61%N] ++ header_value x]
  end.

Definition build_meta_header (cfg : Config)
    (type page caption : option pyval) : str :=
  META_PREFIX cfg ++ [32%N]
    ++ join [32%N] (header_part (lit "type") type
                    ++ header_part (lit "page") page
                    ++ header_part (lit "caption") caption)
    ++ lit "]]".

(** One page handed to the chunk builder. *)
Record Page := {
  page_text : option str;
  page_tables : option str;
  page_figures : option str;
  page_no : option pyval
}.

(** A table or figure block is stored whole, cut at
    [SPECIAL_BLOCK_MAX_CHARS]. *)
Definition special_block (cfg : Config) (raw : str) : str :=
  if SPECIAL_BLOCK_MAX_CHARS cfg <? Z.of_nat (length raw)
  then slice_to (SPECIAL_BLOCK_MAX_CHARS cfg) raw
         ++ 10%N :: lit "...(truncated)"
  else raw.

Definition text_chunks (cfg : Config) (chunk_text : str -> list str)
    (b : Page) : list str :=
  let raw := strip (default [] (page_text b)) in
  match raw with
  | [] => []
  | _ =>
      List.map
        (fun s => build_meta_header cfg (Some (VStr (lit "text"))) (page_no b) None
                    ++ 10%N :: s)
        (chunk_text raw)
  end.

Definition special_chunks (cfg : Config) (type : str)
    (field : Page -> option str) (b : Page) : list str :=
  let raw := strip (default [] (field b)) in
  match raw with
  | [] => []
  | _ => [build_meta_header cfg (Some (VStr type)) (page_no b) None
            ++ 10%N :: special_block cfg raw]
  end.

(** [build_chunks_with_meta1].  The text splitter ([chunk_text] with the
    configured size and overlap) is an argument: nothing below depends
    on how a page body is cut. *)
Definition build_chunks_with_meta1 (cfg : Config)
    (chunk_text : str -> list str) (pages : list Page) : list str :=
  concat (List.map (text_chunks cfg chunk_text) pages)
    ++ concat (List.map (special_chunks cfg (lit "Tables") page_tables) pages)
    ++ concat (List.map (special_chunks cfg (lit "Figures") page_figures) pages).

(** [parse_meta_header]: the dictionary read from the first line. *)
Definition add_token (meta : gmap str pyval) (token : str) : gmap str pyval :=
  if contains_char 61%N token then
    match split_once 61%N token with
    | Some (k, v) => <[strip k := VStr (strip v)]> meta
    | None => meta
    end
  else meta.

Definition page_to_int (meta : gmap str pyval) : gmap str pyval :=
  match meta !! lit "page" with
  | Some v =>
      match int_of_str (to_str v) with
      | Some z => <[lit "page" := VInt z]> meta
      | None => meta
      end
  | None => meta
  end.

Definition parse_meta_header (cfg : Config) (text : str) : gmap str pyval :=
  match text with
  | [] => ∅
  | _ =>
      let first := strip (hd [] (splitlines text)) in
      if (startswith first (META_PREFIX cfg) && endswith first (lit "]]"))%bool
      then
        let inside :=
          strip (rstrip_chars (lit "]]") (drop (length (META_PREFIX cfg)) first)) in
        page_to_int (foldl add_token ∅ (split_ws inside))
      else ∅
  end.

(** The grouping key of [merge_hits_by_page_or_caption]. *)
Definition is_table_or_figure (t : pyval) : bool :=
  (bool_decide (t = VStr (lit "table")) || bool_decide (t = VStr (lit "figure")))%bool.

Definition val_truthy (v : pyval) : bool :=
  match v with
  | VStr [] => false
  | VInt 0 => false
  | _ => true
  end.

Definition key_of_meta (meta : gmap str pyval) : str :=
  let t := default (VStr []) (meta !! lit "type") in
  let page := meta !! lit "page" in
  let caption := default (VStr []) (meta !! lit "caption") in
  if is_table_or_figure t then
    if val_truthy caption
    then to_str t ++ [58%N] ++ fmt page ++ [58%N] ++ to_str caption
    else to_str t ++ [58%N] ++ fmt page
  else lit "text:" ++ fmt page.

Definition hit_key (cfg : Config) (h : Hit) : str :=
  key_of_meta (parse_meta_header cfg (text_or_empty h)).

(** The text a later member of a group contributes: its first line goes
    when that line starts with the header prefix. *)
Definition strip_meta_line (cfg : Config) (add_txt : str) : str :=
  match splitlines add_txt with
  | l0 :: rest =>
      if startswith l0 (META_PREFIX cfg)
      then strip (join [10%N] rest)
      else add_txt
  | [] => add_txt
  end.

Definition append_text (cfg : Config) (cur_txt add_txt : str) : str :=
  strip (rstrip cur_txt ++ [10%N; 10%N] ++ strip_meta_line cfg add_txt).

(** The loop state: the list [merged] with, next to every record, the
    key under which the dictionary [seen] holds that same record (the
    two containers share their records, so one association list stands
    for both). *)
Definition merge_state := list (str * Hit).

Definition merge_into (cfg : Config) (key : str) (txt : str)
    (st : merge_state) : merge_state :=
  List.map
    (fun kh : str * Hit =>
       if bool_decide (kh.1 = key)
       then (kh.1, set_chunk_text (append_text cfg (text_or_empty kh.2) txt) kh.2)
       else kh)
    st.

Definition merge_step (cfg : Config) (st : merge_state) (h : Hit) : merge_state :=
  let key := hit_key cfg h in
  if bool_decide (key ∈ st.*1)
  then merge_into cfg key (text_or_empty h) st
  else st ++ [(key, h)].

Definition merge_marker : str := 10%N :: lit "...(merged truncated)".

Definition cap_text (cfg : Config) (h : Hit) : Hit :=
  if (truthy (chunk_text h)
      && (PRE_RERANK_MERGE_MAX_CHARS cfg <? Z.of_nat (length (text_or_empty h))))%bool
  then set_chunk_text
         (slice_to (PRE_RERANK_MERGE_MAX_CHARS cfg) (text_or_empty h) ++ merge_marker) h
  else h.

Definition merge_hits_by_page_or_caption (cfg : Config) (hits : list Hit) : list Hit :=
  match hits with
  | [] => hits
  | _ => List.map (fun kh : str * Hit => cap_text cfg kh.2)
           (foldl (merge_step cfg) [] hits)
  end.

End ChunkFunc.

(* ===================================================================== *)
(** * SQL and Python helpers *)
(* ===================================================================== *)

(** [ORDER BY] and [sorted]: a stable insertion sort for a total
    preorder given as a boolean test. *)
Section Sorting.
Context {A : Type} (leb : A -> A -> bool).

Fixpoint insert_sorted (x : A) (l : list A) : list A :=
  match l with
  | [] => [x]
  | y :: l' => if leb x y then x :: l else y :: insert_sorted x l'
  end.

Definition sort_by (l : list A) : list A :=
  foldr insert_sorted [] l.
End Sorting.

(** [LIMIT k]. *)
Definition sql_limit {A} (k : Z) (l : list A) : list A := take (Z.to_nat k) l.

(** The insertion-ordered Python [dict], as an association list:
    assigning to a key that is present keeps its position. *)
Section PyDict.
Context {K V : Type} `{EqDecision K}.

Fixpoint dict_get (k : K) (d : list (K * V)) : option V :=
  match d with
  | [] => None
  | (k', v) :: d' => if bool_decide (k' = k) then Some v else dict_get k d'
  end.

Fixpoint dict_set (k : K) (v : V) (d : list (K * V)) : list (K * V) :=
  match d with
  | [] => [(k, v)]
  | (k', v') :: d' =>
      if bool_decide (k' = k) then (k, v) :: d' else (k', v') :: dict_set k v d'
  end.
End PyDict.

(* ===================================================================== *)
(** * graphfunc/graph_pg_store.py *)
(* ===================================================================== *)

Module GraphStore.

Definition vector := list Q.

Record RlsContext := {
  app_id : str;
  clearance : Z;
  request_id : str
}.

(** [_vec_literal]: the dimension check.  The decimal rendering of the
    components and their storage as single-precision numbers are not
    modelled: a vector is the list of its components. *)
Definition dim_mismatch (n : nat) (dim : Z) : exn :=
  Exn (lit "ValueError")
      (lit "Embedding dim mismatch: " ++ str_of_int (Z.of_nat n)
         ++ lit " != " ++ str_of_int dim).

Definition _vec_literal (cfg : Config) (v : vector) : result vector :=
  if (negb (EMBED_DIM cfg =? 0) && negb (Z.of_nat (length v) =? EMBED_DIM cfg))%bool
  then raise (dim_mismatch (length v) (EMBED_DIM cfg))
  else ok v.

(** ** Table [entity] *)

Record Entity := {
  entity_id : str;
  ent_app_id : str;
  name : str;
  type : str;
  aliases : list str;
  description : option str;
  confidence : str;
  classification : Z;
  embedding : option vector;
  occurrence_count : Z;
  first_occurrence : Z;
  last_occurrence : Z;
  is_active : bool
}.

(** [COALESCE(new, old)]. *)
Definition coalesce {A} (new old : option A) : option A :=
  match new with
  | Some _ => new
  | None => old
  end.

(** The conflict target [(app_id, name, type, classification)]. *)
Definition has_entity_key (app nm ty : str) (cls : Z) (r : Entity) : bool :=
  bool_decide (ent_app_id r = app ∧ name r = nm ∧ type r = ty
               ∧ classification r = cls).

(** The [DO UPDATE SET] clause of [upsert_entity]. *)
Definition merge_entity (new_aliases : list str) (new_description : option str)
    (new_confidence : str) (new_embedding : option vector) (now : Z)
    (r : Entity) : Entity :=
  {| entity_id := entity_id r;
     ent_app_id := ent_app_id r;
     name := name r;
     type := type r;
     aliases := new_aliases;
     description := coalesce new_description (description r);
     confidence := new_confidence;
     classification := classification r;
     embedding := coalesce new_embedding (embedding r);
     occurrence_count := occurrence_count r + 1;
     first_occurrence := first_occurrence r;
     last_occurrence := now;
     is_active := true |}.

(** [upsert_entity].  [new_id] is the identifier the column default
    generates for an inserted row and [now] the transaction time; the
    result is the new table and the row of the [RETURNING] clause (the
    function hands back six of its columns). *)
Definition upsert_entity (cfg : Config) (tbl : list Entity) (ctx : RlsContext)
    (new_id : str) (now : Z)
    (nm entity_type : str) (als : option (list str)) (descr : option str)
    (conf : str) (cls : Z) (emb : option vector)
    : result (list Entity * option Entity) :=
  let als := default [] als in
  emb_literal <- match emb with
                 | Some v => v' <- _vec_literal cfg v ;; ok (Some v')
                 | None => ok None
                 end ;;
  if existsb (has_entity_key (app_id ctx) nm entity_type cls) tbl then
    let tbl' :=
      List.map (fun r => if has_entity_key (app_id ctx) nm entity_type cls r
                         then merge_entity als descr conf emb_literal now r
                         else r) tbl in
    ok (tbl', List.find (has_entity_key (app_id ctx) nm entity_type cls) tbl')
  else
    let row :=
      {| entity_id := new_id; ent_app_id := app_id ctx; name := nm;
         type := entity_type; aliases := als; description := descr;
         confidence := conf; classification := cls; embedding := emb_literal;
         occurrence_count := 1; first_occurrence := now; last_occurrence := now;
         is_active := true |} in
    ok (tbl ++ [row], Some row).

(** [decrement_entity_occurrence]. *)
Definition set_occurrence (n : Z) (r : Entity) : Entity :=
  {| entity_id := entity_id r; ent_app_id := ent_app_id r; name := name r;
     type := type r; aliases := aliases r; description := description r;
     confidence := confidence r; classification := classification r;
     embedding := embedding r; occurrence_count := n;
     first_occurrence := first_occurrence r;
     last_occurrence := last_occurrence r; is_active := is_active r |}.

Definition decrement_entity_occurrence (tbl : list Entity) (ctx : RlsContext)
    (eid : str) (dec_count : Z) : list Entity :=
  List.map
    (fun r =>
       if bool_decide (ent_app_id r = app_id ctx ∧ entity_id r = eid)
       then set_occurrence (Z.max (occurrence_count r - dec_count) 0) r
       else r)
    tbl.

(** [deactivate_entities_with_zero_occurrence]. *)
Definition deactivate (r : Entity) : Entity :=
  {| entity_id := entity_id r; ent_app_id := ent_app_id r; name := name r;
     type := type r; aliases := aliases r; description := description r;
     confidence := lit "low"; classification := classification r;
     embedding := embedding r; occurrence_count := occurrence_count r;
     first_occurrence := first_occurrence r;
     last_occurrence := last_occurrence r; is_active := false |}.

Definition deactivate_entities_with_zero_occurrence (tbl : list Entity)
    (ctx : RlsContext) (entity_ids : list str) : list Entity :=
  match entity_ids with
  | [] => tbl
  | _ =>
      List.map
        (fun r =>
           if (bool_decide (ent_app_id r = app_id ctx)
               && bool_decide (entity_id r ∈ entity_ids)
               && (occurrence_count r <=? 0))%bool
           then deactivate r
           else r)
        tbl
  end.

(** ** Table [entity_edge] *)

(** A [jsonb] column holding an array of strings; [None] is SQL NULL. *)
Definition jsonb_array := option (list str).

Record Edge := {
  edge_app_id : str;
  src_entity_id : str;
  dst_entity_id : str;
  edge_type : str;
  weight : Q;
  edge_confidence : str;
  edge_classification : Z;
  evidence_count : Z;
  evidence_chunk_ids : jsonb_array;
  edge_notes : option str
}.

(** [a || b] on [jsonb] arrays. *)
Definition jsonb_concat (a b : jsonb_array) : jsonb_array :=
  match a, b with
  | Some x, Some y => Some (x ++ y)
  | _, _ => None
  end.

(** The rows of [jsonb_array_elements(a)]: none for NULL. *)
Definition jsonb_array_elements (a : jsonb_array) : list str := default [] a.

(** [jsonb_agg(DISTINCT x)]: NULL over no rows; otherwise the distinct
    values (SQL fixes their set, not their order; the first occurrences
    are kept here, in order). *)
Definition jsonb_agg_distinct (xs : list str) : jsonb_array :=
  match xs with
  | [] => None
  | _ => Some (first_seen xs)
  end.

Definition has_edge_key (app src dst ty : str) (r : Edge) : bool :=
  bool_decide (edge_app_id r = app ∧ src_entity_id r = src
               ∧ dst_entity_id r = dst ∧ edge_type r = ty).

(** The [DO UPDATE SET] clause of [upsert_edge]. *)
Definition merge_edge (w : Q) (conf : str) (ev : jsonb_array)
    (notes : option str) (r : Edge) : Edge :=
  {| edge_app_id := edge_app_id r;
     src_entity_id := src_entity_id r;
     dst_entity_id := dst_entity_id r;
     edge_type := edge_type r;
     weight := Qmin (weight r + w) 1;
     edge_confidence := conf;
     edge_classification := edge_classification r;
     evidence_count := evidence_count r + 1;
     evidence_chunk_ids :=
       jsonb_agg_distinct
         (jsonb_array_elements (jsonb_concat (evidence_chunk_ids r) ev));
     edge_notes := coalesce notes (edge_notes r) |}.

Definition upsert_edge (tbl : list Edge) (ctx : RlsContext)
    (src dst ty : str) (w : Q) (ev : option (list str)) (conf : str)
    (cls : Z) (notes : option str) : list Edge :=
  let ev := default [] ev in
  if existsb (has_edge_key (app_id ctx) src dst ty) tbl then
    List.map (fun r => if has_edge_key (app_id ctx) src dst ty r
                       then merge_edge w conf (Some ev) notes r
                       else r) tbl
  else
    tbl ++ [{| edge_app_id := app_id ctx; src_entity_id := src;
               dst_entity_id := dst; edge_type := ty; weight := w;
               edge_confidence := conf; edge_classification := cls;
               evidence_count := 1; evidence_chunk_ids := Some ev;
               edge_notes := notes |}].

(** [decrement_edge_evidence]. *)
Definition set_evidence_count (n : Z) (r : Edge) : Edge :=
  {| edge_app_id := edge_app_id r; src_entity_id := src_entity_id r;
     dst_entity_id := dst_entity_id r; edge_type := edge_type r;
     weight := weight r; edge_confidence := edge_confidence r;
     edge_classification := edge_classification r; evidence_count := n;
     evidence_chunk_ids := evidence_chunk_ids r; edge_notes := edge_notes r |}.

Definition decrement_edge_evidence (tbl : list Edge) (ctx : RlsContext)
    (src dst ty : str) (dec_count : Z) : list Edge :=
  List.map
    (fun r =>
       if has_edge_key (app_id ctx) src dst ty r
       then set_evidence_count (Z.max (evidence_count r - dec_count) 0) r
       else r)
    tbl.

(** ** Table [graph_job] *)

Inductive job_status := pending | running | done | failed.

#[export] Instance job_status_eq_dec : EqDecision job_status.
Proof. solve_decision. Defined.

(** One entry of the [mentions] array of a job payload, as
    [fetch_chunk_entities] produced it. *)
Record Mention := {
  m_chunk_id : option str;
  m_entity_id : option str;
  m_mention_count : option Z
}.

(** The payload of a [doc_deleted] job. *)
Record Payload := {
  p_doc_id : option str;
  p_chunks : list str;
  p_mentions : option (list Mention)
}.

Record Job := {
  job_id : str;
  job_app_id : str;
  job_type : str;
  payload : option Payload;
  status : job_status;
  created_at : Z;
  started_at : option Z;
  finished_at : option Z;
  error_message : option str
}.

Definition set_job_status (s : job_status) (started finished : option Z)
    (err : option str) (j : Job) : Job :=
  {| job_id := job_id j; job_app_id := job_app_id j; job_type := job_type j;
     payload := payload j; status := s; created_at := created_at j;
     started_at := started; finished_at := finished; error_message := err |}.

(** [enqueue_job]; [new_id] and [now] are the column defaults. *)
Definition enqueue_job (jobs : list Job) (ctx : RlsContext) (new_id : str)
    (now : Z) (ty : str) (p : Payload) : list Job :=
  jobs ++ [{| job_id := new_id; job_app_id := app_id ctx; job_type := ty;
              payload := Some p; status := pending; created_at := now;
              started_at := None; finished_at := None;
              error_message := None |}].

(** [fetch_pending_jobs] run by one connection alone: the [SELECT]
    picks the oldest pending jobs of the tenant and the [UPDATE] marks
    them running.  (With a single connection no row is locked by
    another one; the interleaving of two connections is the subject of
    module [Claiming] below.)  PostgreSQL rejects a negative [LIMIT]. *)
Definition select_pending (jobs : list Job) (ctx : RlsContext) (limit : Z)
    : list Job :=
  sql_limit limit
    (sort_by (fun a b => created_at a <=? created_at b)
       (List.filter
          (fun j => (bool_decide (job_app_id j = app_id ctx)
                     && bool_decide (status j = pending))%bool)
          jobs)).

Definition mark_running (now : Z) (ids : list str) (jobs : list Job) : list Job :=
  List.map
    (fun j => if bool_decide (job_id j ∈ ids)
              then set_job_status running (Some now) (finished_at j)
                     (error_message j) j
              else j)
    jobs.

Definition negative_limit : exn :=
  Exn (lit "InvalidRowCountInLimitClause") (lit "LIMIT must not be negative").

Definition fetch_pending_jobs (jobs : list Job) (ctx : RlsContext) (now : Z)
    (limit : Z) : result (list Job * list Job) :=
  if limit <? 0 then raise negative_limit
  else
    let rows := select_pending jobs ctx limit in
    ok (mark_running now (List.map job_id rows) jobs, rows).

(** [mark_job_done]. *)
Definition mark_job_done (jobs : list Job) (ctx : RlsContext) (now : Z)
    (jid : str) (success : bool) (error : option str) : list Job :=
  List.map
    (fun j => if bool_decide (job_app_id j = app_id ctx ∧ job_id j = jid)
              then set_job_status (if success then done else failed)
                     (started_at j) (Some now) error j
              else j)
    jobs.

End GraphStore.

(* ===================================================================== *)
(** * functions/rag_pg_store.py *)
(* ===================================================================== *)

Module RagStore.

Definition vector := list Q.

Record RlsContext := {
  app_id : str;
  clearance : Z;
  request_id : str
}.

Record Chunk := {
  c_chunk_id : str;
  c_doc_id : str;
  c_version_id : str;
  c_app_id : str;
  c_classification : Z;
  c_chunk_index : Z;
  c_chunk_text : option str;
  c_embedding : option vector
}.

(** One row of [audit_search]. *)
Record AuditRow := {
  a_app_id : str;
  a_clearance : Z;
  a_request_id : str;
  a_query_text : str;
  a_top_k : Z;
  a_hit_chunk_ids : option (list str);
  a_hit_doc_ids : option (list str);
  a_score_min : option Q;
  a_score_max : option Q
}.

Record Db := {
  chunks : list Chunk;
  audit_search : list AuditRow
}.

Definition dim_mismatch (n : nat) (dim : Z) : exn :=
  Exn (lit "ValueError")
      (lit "Embedding dim mismatch: " ++ str_of_int (Z.of_nat n)
         ++ lit " != " ++ str_of_int dim).

(** [_vec_literal] of this store: the dimension is always checked. *)
Definition _vec_literal (embed_dim : Z) (v : vector) : result vector :=
  if negb (Z.of_nat (length v) =? embed_dim)
  then raise (dim_mismatch (length v) embed_dim)
  else ok v.

(** [x or None] for a list. *)
Definition list_or_none {A} (l : list A) : option (list A) :=
  match l with
  | [] => None
  | _ => Some l
  end.

(** [min(scores)] and [max(scores)] when the list is not empty. *)
Definition q_min_list (l : list Q) : option Q :=
  match l with
  | [] => None
  | x :: l' => Some (foldl (fun a b => if Qle_bool b a then b else a) x l')
  end.

Definition q_max_list (l : list Q) : option Q :=
  match l with
  | [] => None
  | x :: l' => Some (foldl (fun a b => if Qle_bool b a then a else b) x l')
  end.

Section Search.
(** Two things the query relies on are defined outside the
    repository: the distance operator [<->] of the vector extension,
    and the row-level-security policy that decides which rows a
    session sees. *)
Variable distance : vector -> vector -> Q.
Variable visible : RlsContext -> Chunk -> bool.

(** The rows of the inner [SELECT], with their [bscore]. *)
Definition scored_rows (db : Db) (ctx : RlsContext) (qv : vector)
    : list (Chunk * Q) :=
  omap (fun c => match c_embedding c with
                 | Some e => if visible ctx c then Some (c, distance e qv) else None
                 | None => None
                 end)
       (chunks db).

(** [ORDER BY t.bscore LIMIT top_k]. *)
Definition search_rows (db : Db) (ctx : RlsContext) (qv : vector) (top_k : Z)
    : list (Chunk * Q) :=
  sql_limit top_k
    (sort_by (fun a b : Chunk * Q => Qle_bool a.2 b.2) (scored_rows db ctx qv)).

Definition hit_of_row (return_with_scores : bool) (r : Chunk * Q) : Hit :=
  {| chunk_id := Some (c_chunk_id r.1);
     doc_id := Some (c_doc_id r.1);
     version_id := Some (c_version_id r.1);
     chunk_text := c_chunk_text r.1;
     score := if return_with_scores then Some r.2 else None |}.

(** [search_chunks]; an absent [top_k] is [None]. *)
Definition effective_top_k (top_k : option Z) : Z :=
  match top_k with
  | None => 5
  | Some k => if k <=? 0 then 5 else k
  end.

Definition search_chunks (embed_dim : Z) (db : Db) (ctx : RlsContext)
    (query_text : str) (query_embedding : vector) (top_k : option Z)
    (return_with_scores : bool) : result (Db * list Hit) :=
  let top_k := effective_top_k top_k in
  qv <- _vec_literal embed_dim query_embedding ;;
  let rows := search_rows db ctx qv top_k in
  let chunk_ids := List.map (fun r : Chunk * Q => c_chunk_id r.1) rows in
  let doc_ids := List.map (fun r : Chunk * Q => c_doc_id r.1) rows in
  let scores := List.map (fun r : Chunk * Q => r.2) rows in
  let audit :=
    {| a_app_id := app_id ctx; a_clearance := clearance ctx;
       a_request_id := request_id ctx; a_query_text := query_text;
       a_top_k := top_k;
       a_hit_chunk_ids := list_or_none chunk_ids;
       a_hit_doc_ids := list_or_none doc_ids;
       a_score_min := q_min_list scores;
       a_score_max := q_max_list scores |} in
  ok ({| chunks := chunks db; audit_search := audit_search db ++ [audit] |},
      List.map (hit_of_row return_with_scores) rows).
End Search.

End RagStore.

(* ===================================================================== *)
(** * functions/rerank_client.py *)
(* ===================================================================== *)

Module Rerank.

(** One entry of the scorer's [results]: the keys [doc] and [score]. *)
Record Item := {
  doc : option str;
  item_score : option Q
}.

(** [docs.index(d)]; [None] stands for [ValueError]. *)
Fixpoint index_of (d : option str) (docs : list (option str)) : option nat :=
  match docs with
  | [] => None
  | x :: docs' =>
      if bool_decide (x = d) then Some 0%nat
      else S <$> index_of d docs'
  end.

(** [float(score) < float(min_score)]. *)
Definition below (s m : Q) : bool := negb (Qle_bool m s).

Section WithScorer.
(** The HTTP exchange with the scoring service: [requests.post],
    [raise_for_status] and the decoding of the [results] array.  It
    raises when the service cannot be reached, answers with an error
    status, or sends something that is not JSON. *)
Variable post : str -> list (option str) -> Z -> result (list Item).

(** [rerank_results]. *)
Definition rerank_results (query : str) (docs : list (option str)) (top_k : Z)
    : result (list Item) :=
  match docs with
  | [] => ok []
  | _ => post query docs top_k
  end.

(** One turn of the loop over [results]: the state is [order] and
    [used]. *)
Definition take_item (min_score : option Q) (docs : list (option str))
    (st : list nat * gset nat) (item : Item) : list nat * gset nat :=
  match doc item with
  | None => st
  | Some _ =>
      let rejected :=
        match min_score, item_score item with
        | Some m, Some s => below s m
        | _, _ => false
        end in
      if rejected then st
      else match index_of (doc item) docs with
           | Some i =>
               if bool_decide (i ∈ st.2) then st
               else (st.1 ++ [i], {[i]} ∪ st.2)
           | None => st
           end
  end.

(** [rerank_hits]. *)
Definition rerank_hits (cfg : Config) (query : str) (hits : list Hit)
    (top_k : Z) : result (list Hit) :=
  match hits with
  | [] => ok hits
  | _ =>
      let docs := List.map chunk_text hits in
      results <- rerank_results query docs top_k ;;
      let min_score := RERANK_MIN_SCORE cfg in
      let st := foldl (take_item min_score docs) ([], ∅) results in
      let order :=
        match min_score with
        | None =>
            st.1 ++ List.filter (fun i => negb (bool_decide (i ∈ st.2)))
                      (seq 0 (length docs))
        | Some _ =>
            match st.1 with
            | [] => seq 0 (length docs)
            | _ => st.1
            end
        end in
      ok (omap (fun i => hits !! i) order)
  end.
End WithScorer.

End Rerank.

(* ===================================================================== *)
(** * core.py *)
(* ===================================================================== *)

Module Core.

Definition vector := list Q.

(** ** Decoded JSON *)

#[local] Unset Elimination Schemes.
Inductive json :=
| JNull
| JBool (b : bool)
| JInt (z : Z)
| JFloat (q : Q)
| JStr (s : str)
| JArr (items : list json)
| JObj (fields : list (str * json)).
#[local] Set Elimination Schemes.

Definition json_truthy (v : json) : bool :=
  match v with
  | JNull => false
  | JBool b => b
  | JInt z => negb (z =? 0)
  | JFloat q => negb (Qeq_bool q 0)
  | JStr s => nonempty s
  | JArr l => match l with [] => false | _ => true end
  | JObj l => match l with [] => false | _ => true end
  end.

Definition type_name (v : json) : str :=
  match v with
  | JNull => lit "NoneType"
  | JBool _ => lit "bool"
  | JInt _ => lit "int"
  | JFloat _ => lit "float"
  | JStr _ => lit "str"
  | JArr _ => lit "list"
  | JObj _ => lit "dict"
  end.

Definition no_attribute (v : json) (attr : str) : exn :=
  Exn (lit "AttributeError")
      ([39%N] ++ type_name v ++ lit "' object has no attribute '" ++ attr ++ [39%N]).

(** [(item.get(k) or dflt).strip()]: a truthy value that is not a
    string has no [strip]. *)
Definition stripped_field (fields : list (str * json)) (k dflt : str)
    : result str :=
  let v := match dict_get k fields with
           | Some v => if json_truthy v then v else JStr dflt
           | None => JStr dflt
           end in
  match v with
  | JStr s => ok (strip s)
  | _ => raise (no_attribute v (lit "strip"))
  end.

(** An entity mention extracted from a text. *)
Record QEntity := {
  q_name : str;
  q_type : str;
  q_aliases : list json;
  q_confidence : str
}.

(** A row of [find_entities_by_name_or_alias] or
    [find_entities_by_embedding]; of its columns the pipeline reads
    these three. *)
Record EntityHit := {
  eh_entity_id : option str;
  eh_name : option str;
  eh_occurrence_count : option Z
}.

(** The external collaborators of the pipeline.  Each call either
    returns or raises. *)
Record Env := {
  call_vllm_chat : list (str * str) -> result str;
  json_loads : str -> option json;
  find_json_span : str -> option str;
  math_log : Z -> result Q;
  embed_text : str -> result vector;
  find_entities_by_name_or_alias :
    GraphStore.RlsContext -> str -> Z -> result (list EntityHit);
  find_entities_by_embedding :
    GraphStore.RlsContext -> vector -> Z -> option Q -> result (list (EntityHit * Q));
  (* of a neighbour row the pipeline reads the column [dst_name] *)
  get_neighbor_entities :
    GraphStore.RlsContext -> list str -> Z -> result (list (option str));
  list_chunk_ids_by_entities :
    GraphStore.RlsContext -> list str -> Z -> result (list str);
  get_chunks_by_ids : RagStore.RlsContext -> list str -> result (list Hit);
  search_chunks : RagStore.RlsContext -> str -> vector -> Z -> result (list Hit);
  rerank_post : str -> list (option str) -> Z -> result (list Rerank.Item)
}.

Section Pipeline.
Variable env : Env.
Variable cfg : Config.

(** [_safe_json_from_text]: [json.loads], then the first bracketed
    span found by the regular expression. *)
Definition _safe_json_from_text (raw : str) : option json :=
  match raw with
  | [] => None
  | _ =>
      let raw := strip raw in
      match json_loads env raw with
      | Some v => Some v
      | None =>
          match find_json_span env raw with
          | None => None
          | Some span => json_loads env span
          end
      end
  end.

(** The loop of [_extract_entities_from_text] over the decoded items,
    with its soft cap of 12 entities. *)
Fixpoint collect_entities (items : list json) (out : list QEntity)
    : result (list QEntity) :=
  match items with
  | [] => ok out
  | JObj fields :: rest =>
      nm <- stripped_field fields (lit "name") [] ;;
      etype <- stripped_field fields (lit "type") [] ;;
      match nm, etype with
      | [], _ | _, [] => collect_entities rest out
      | _, _ =>
          let als := match dict_get (lit "aliases") fields with
                     | Some (JArr l) => l
                     | _ => []
                     end in
          conf <- stripped_field fields (lit "confidence") (lit "medium") ;;
          let conf := lower conf in
          let conf :=
            if bool_decide (conf ∈ [lit "high"; lit "medium"; lit "low"])
            then conf else lit "medium" in
          let out' := out ++ [{| q_name := nm; q_type := etype;
                                 q_aliases := als; q_confidence := conf |}] in
          if (12 <=? length out')%nat then ok out'
          else collect_entities rest out'
      end
  | _ :: rest => collect_entities rest out
  end.

Definition entity_prompt (prompt_key prompt_text : option str) : str :=
  if truthy prompt_text then default [] prompt_text
  else
    let key :=
      strip (if truthy prompt_key then default [] prompt_key
             else if nonempty (GRAPH_ENTITY_PROMPT_DEFAULT cfg)
                  then GRAPH_ENTITY_PROMPT_DEFAULT cfg
                  else lit "strict") in
    match dict_get key (GRAPH_ENTITY_PROMPTS cfg) with
    | Some (_ :: _ as p) => p
    | _ => default [] (dict_get (lit "strict") (GRAPH_ENTITY_PROMPTS cfg))
    end.

Definition _extract_entities_from_text (text : str)
    (prompt_key prompt_text : option str) : result (list QEntity) :=
  if negb (nonempty text && nonempty (strip text)) then ok []
  else
    let messages := [(lit "system", entity_prompt prompt_key prompt_text);
                     (lit "user", strip text)] in
    match call_vllm_chat env messages with
    | inl _ => ok []
    | inr raw =>
        match _safe_json_from_text raw with
        | None => ok []
        | Some data =>
            if negb (json_truthy data) then ok []
            else match data with
                 | JObj _ => collect_entities [data] []
                 | JArr items => collect_entities items []
                 | _ => ok []
                 end
        end
    end.

(** ** [_find_entities_hybrid] *)

Definition scored := (EntityHit * Q)%type.

Definition occurrence (r : EntityHit) : Z := default 0 (eh_occurrence_count r).

(** The loop over the exact matches. *)
Fixpoint exact_loop (matches : list EntityHit) (results : list (str * scored))
    : result (list (str * scored)) :=
  match matches with
  | [] => ok results
  | r :: rest =>
      if truthy (eh_entity_id r) then
        l <- math_log env (occurrence r + 1) ;;
        exact_loop rest
          (dict_set (default [] (eh_entity_id r)) (r, 1 + (2 # 10) * l)%Q results)
      else exact_loop rest results
  end.

(** The loop over the embedding matches; it stops at the first
    exception, keeping what it has stored so far. *)
Fixpoint semantic_loop (sem : list (EntityHit * Q)) (results : list (str * scored))
    : list (str * scored) :=
  match sem with
  | [] => results
  | (r, sim) :: rest =>
      if (negb (truthy (eh_entity_id r))
          || bool_decide (default [] (eh_entity_id r) ∈ results.*1))%bool
      then semantic_loop rest results
      else
        match math_log env (occurrence r + 1) with
        | inl _ => results
        | inr l =>
            semantic_loop rest
              (dict_set (default [] (eh_entity_id r))
                 (r, (7 # 10) * sim + (2 # 10) * l)%Q results)
        end
  end.

Definition _find_entities_hybrid (gctx : GraphStore.RlsContext)
    (query_text : str) (limit : Z) : result (list scored) :=
  matches <- find_entities_by_name_or_alias env gctx query_text limit ;;
  results <- exact_loop matches [] ;;
  let results :=
    if Z.of_nat (length results) <? limit then
      match embed_text env query_text with
      | inl _ => results
      | inr q_emb =>
          match find_entities_by_embedding env gctx q_emb limit
                  (GRAPH_ENTITY_MIN_SIM cfg) with
          | inl _ => results
          | inr sem => semantic_loop sem results
          end
      end
    else results in
  ok (slice_to limit
        (sort_by (fun a b : scored => Qle_bool b.2 a.2) (results.*2))).

(** ** [chat_send]: the retrieval part *)

(** The seeds of one query: ids and names of the matched entities. *)
Fixpoint collect_seeds (gctx : GraphStore.RlsContext) (ents : list QEntity)
    : result (list str * list str) :=
  match ents with
  | [] => ok ([], [])
  | ent :: rest =>
      matches <- _find_entities_hybrid gctx (q_name ent) 3 ;;
      let ms := List.filter (fun m : scored => truthy (eh_entity_id m.1)) matches in
      tl <- collect_seeds gctx rest ;;
      ok (List.map (fun m : scored => default [] (eh_entity_id m.1)) ms ++ tl.1,
          List.map (fun m : scored => default [] (eh_name m.1)) ms ++ tl.2)
  end.

(** Steps 1 to 3: the augmented query text and the graph-path
    candidates. *)
Definition graph_path (gctx : GraphStore.RlsContext) (ctx : RagStore.RlsContext)
    (user_text : str) (graph_prompt_key : option str)
    : result (str * list Hit) :=
  q_entities <- _extract_entities_from_text user_text graph_prompt_key None ;;
  seeds <- collect_seeds gctx q_entities ;;
  let seed_ids := seeds.1 in
  let seed_names := seeds.2 in
  neighbor_names <-
    match seed_ids with
    | [] => ok []
    | _ =>
        neighbors <- get_neighbor_entities env gctx seed_ids 10 ;;
        ok (List.filter nonempty
              (List.map (fun n : option str => strip (default [] n)) neighbors))
    end ;;
  let extra_terms := join [32%N] (first_seen (seed_names ++ neighbor_names)) in
  let query_text :=
    match extra_terms with
    | [] => user_text
    | _ => user_text ++ [10%N; 10%N] ++ extra_terms
    end in
  graph_hits <-
    (if ((0 <? GRAPH_CHUNK_CANDIDATES cfg) && negb (bool_decide (seed_ids = [])))%bool
     then
       graph_chunk_ids <- list_chunk_ids_by_entities env gctx seed_ids
                            (GRAPH_CHUNK_CANDIDATES cfg) ;;
       match graph_chunk_ids with
       | [] => ok []
       | _ => get_chunks_by_ids env ctx graph_chunk_ids
       end
     else ok []) ;;
  ok (query_text, graph_hits).

(** Step 4. *)
Definition vector_path (ctx : RagStore.RlsContext) (query_text : str)
    : result (list Hit) :=
  q_emb <- embed_text env query_text ;;
  search_chunks env ctx query_text q_emb (VECTOR_CHUNK_CANDIDATES cfg).

(** Step 5: the loop over [graph_hits + vector_hits] with its [seen]
    set, then the cut at [recall_k]. *)
Definition union_step (st : list Hit * gset str) (h : Hit) : list Hit * gset str :=
  match chunk_id h with
  | Some (c :: cs) =>
      if bool_decide ((c :: cs) ∈ st.2) then st
      else (st.1 ++ [h], {[c :: cs]} ∪ st.2)
  | _ => st
  end.

Definition union_hits (graph_hits vector_hits : list Hit) : list Hit :=
  (foldl union_step ([], ∅) (graph_hits ++ vector_hits)).1.

Definition truncate_hits (recall_k : Z) (hits : list Hit) : list Hit :=
  if (negb (recall_k =? 0) && (recall_k <? Z.of_nat (length hits)))%bool
  then slice_to recall_k hits
  else hits.

(** Step 8: the context string. *)
Definition context_marker : str :=
  [10; 46; 46; 46; 40; 25130; 26029; 41]%N.

Definition build_context (hits : list Hit) : str :=
  let context :=
    join [10%N; 10%N]
      (omap (fun h => if truthy (chunk_text h) then chunk_text h else None) hits) in
  if MAX_PDF_CONTEXT_CHARS cfg <? Z.of_nat (length context)
  then slice_to (MAX_PDF_CONTEXT_CHARS cfg) context ++ context_marker
  else context.

(** The body of the [try] block: the context and the hits. *)
Definition retrieve (gctx : GraphStore.RlsContext) (ctx : RagStore.RlsContext)
    (user_text : str) (graph_enabled : bool) (graph_prompt_key : option str)
    : result (option str * list Hit) :=
  g <- (if graph_enabled
        then graph_path gctx ctx user_text graph_prompt_key
        else ok (user_text, [])) ;;
  vector_hits <- vector_path ctx g.1 ;;
  let hits := truncate_hits (RERANK_CANDIDATES cfg) (union_hits g.2 vector_hits) in
  let hits := ChunkFunc.merge_hits_by_page_or_caption cfg hits in
  hits <- (if (RERANK_ENABLED cfg && negb (bool_decide (hits = [])))%bool
           then Rerank.rerank_hits (rerank_post env) cfg user_text hits
                  (PDF_TOP_K_CHUNKS cfg)
           else ok hits) ;;
  match hits with
  | [] => ok (None, hits)
  | _ => ok (Some (build_context hits), hits)
  end.

(** The text the handler of the [try] block stores as context. *)
Definition failure_note (e : exn) : str :=
  [40; 21521; 37327; 24211; 26816; 32034; 22833; 36133; 65306]%N
    ++ exn_type e ++ lit ": " ++ exn_msg e ++ lit ")".

(** What [chat_send] hands back, as far as retrieval decides it (the
    answer of the chat model and the list of sources are left out). *)
Record ChatResult := {
  cs_ok : bool;
  cs_error : option str;
  cs_pdf_context : option str;
  cs_hits : list Hit
}.

(** [x or dflt] for an optional string and an optional integer. *)
Definition str_or (x : option str) (dflt : str) : str :=
  if truthy x then default [] x else dflt.

Definition int_or (x : option Z) (dflt : Z) : Z :=
  match x with
  | Some z => if z =? 0 then dflt else z
  | None => dflt
  end.

(** [rid] and [gid] are the two request identifiers drawn with
    [uuid.uuid4()]. *)
Definition chat_send (user_text : option str) (graph_enabled : option bool)
    (graph_prompt_key : option str) (rag_app_id : option str)
    (rag_clearance : option Z) (rid gid : str) : ChatResult :=
  let user_text := strip (default [] user_text) in
  match user_text with
  | [] => {| cs_ok := false; cs_error := Some (lit "text is empty");
             cs_pdf_context := None; cs_hits := [] |}
  | _ =>
      let rag_app_id := str_or rag_app_id (RAG_APP_ID cfg) in
      let rag_clearance := int_or rag_clearance (RAG_CLEARANCE cfg) in
      let graph_enabled := default (GRAPH_ENABLED cfg) graph_enabled in
      let ctx := {| RagStore.app_id := rag_app_id;
                    RagStore.clearance := rag_clearance;
                    RagStore.request_id := rid |} in
      let gctx := {| GraphStore.app_id := rag_app_id;
                     GraphStore.clearance := rag_clearance;
                     GraphStore.request_id := gid |} in
      let r := try_except
                 (retrieve gctx ctx user_text graph_enabled graph_prompt_key)
                 (fun e => (Some (failure_note e), [])) in
      {| cs_ok := true; cs_error := None;
         cs_pdf_context := r.1; cs_hits := r.2 |}
  end.
End Pipeline.

(** ** The graph maintenance worker *)

Import GraphStore.

Record GraphDb := {
  entities : list Entity;
  edges : list Edge;
  jobs : list Job
}.

(** The first loop of a job: [dec_map] and [chunk_entity_map]. *)
Definition mention_step (st : list (str * Z) * list (str * list str))
    (m : Mention) : list (str * Z) * list (str * list str) :=
  let eid := strip (default [] (m_entity_id m)) in
  let cid := strip (default [] (m_chunk_id m)) in
  let cnt := int_or (m_mention_count m) 1 in
  match eid with
  | [] => st
  | _ =>
      (dict_set eid (default 0 (dict_get eid st.1) + cnt) st.1,
       if nonempty cid
       then dict_set cid (default [] (dict_get cid st.2) ++ [eid]) st.2
       else st.2)
  end.

Definition collect_mentions (mentions : list Mention)
    : list (str * Z) * list (str * list str) :=
  foldl mention_step ([], []) mentions.

(** The pairs [(l[i], l[j])] with [i < j], in the order of the two
    nested loops. *)
Fixpoint pairs {A} (l : list A) : list (A * A) :=
  match l with
  | [] => []
  | a :: l' => List.map (pair a) l' ++ pairs l'
  end.

Definition co_occurs : str := lit "co_occurs".

Definition decrement_pair (gctx : RlsContext) (tbl : list Edge) (ab : str * str)
    : list Edge :=
  decrement_edge_evidence
    (decrement_edge_evidence tbl gctx ab.1 ab.2 co_occurs 1)
    gctx ab.2 ab.1 co_occurs 1.

Definition decrement_chunk_edges (gctx : RlsContext) (tbl : list Edge)
    (eids : list str) : list Edge :=
  foldl (decrement_pair gctx) tbl (pairs (first_seen (List.filter nonempty eids))).

(** The body of the loop of [process_graph_jobs_once] for one claimed
    job.  The statements are taken to succeed, so the handler that
    marks the job failed is not reached. *)
Definition process_job (gctx : RlsContext) (now : Z) (db : GraphDb) (job : Job)
    : GraphDb :=
  let mentions :=
    match payload job with
    | Some p => default [] (p_mentions p)
    | None => []
    end in
  let maps := collect_mentions mentions in
  let dec_map := maps.1 in
  let chunk_entity_map := maps.2 in
  let ents :=
    foldl (fun tbl ed => decrement_entity_occurrence tbl gctx ed.1 ed.2)
          (entities db) dec_map in
  let edgs :=
    foldl (fun tbl ce => decrement_chunk_edges gctx tbl ce.2)
          (edges db) chunk_entity_map in
  let ents := deactivate_entities_with_zero_occurrence ents gctx (dec_map.*1) in
  {| entities := ents;
     edges := edgs;
     jobs := mark_job_done (jobs db) gctx now (job_id job) true None |}.

(** [process_graph_jobs_once]: the number of claimed jobs and the new
    state. *)
Definition process_graph_jobs_once (cfg : Config) (db : GraphDb)
    (rag_app_id : option str) (rag_clearance : option Z) (limit : Z)
    (now : Z) (gid : str) : result (GraphDb * Z) :=
  let gctx := {| app_id := strip (str_or rag_app_id (RAG_APP_ID cfg));
                 clearance := int_or rag_clearance (RAG_CLEARANCE cfg);
                 request_id := gid |} in
  claimed <- fetch_pending_jobs (jobs db) gctx now limit ;;
  let db := {| entities := entities db; edges := edges db; jobs := claimed.1 |} in
  ok (foldl (process_job gctx now) db claimed.2, Z.of_nat (length claimed.2)).

End Core.

(* ===================================================================== *)
(** * Concurrent callers of [fetch_pending_jobs] *)
(* ===================================================================== *)

(** Several connections run [fetch_pending_jobs] against one [graph_job]
    table.  The function is two statements and a commit; what happens
    between them, and inside the locking [SELECT], is PostgreSQL's
    behaviour at its default isolation level (read committed):
    - the [SELECT] fixes its candidate rows when it starts (the pending
      rows of the tenant, oldest first), then visits them one by one;
    - [SKIP LOCKED] passes over a row another transaction holds;
    - a row that is free is locked, and the [WHERE] clause is checked
      again on its latest committed version before the row is returned;
    - [LIMIT] ends the visit once enough rows are returned;
    - the [UPDATE] is invisible to others until the commit, which also
      releases the locks of the transaction.
    A step of the system is one such action of one connection. *)
Module Claiming.
Import GraphStore.

Abbreviation worker := nat.

(** Where a connection stands inside [fetch_pending_jobs]. *)
Inductive phase :=
| Idle
| Selecting (limit : Z) (todo : list str) (taken : list str)
| Selected (rows : list str)
| Updated (rows : list str).

Record state := {
  table : list Job;
  locks : gmap str worker;
  phases : worker -> phase;
  returned : worker -> list str
}.

(** The job ids a connection has locked and not yet handed back. *)
Definition held (p : phase) : list str :=
  match p with
  | Idle => []
  | Selecting _ _ taken => taken
  | Selected rows => rows
  | Updated rows => rows
  end.

(** The candidates of the [SELECT], in visiting order. *)
Definition candidates (tbl : list Job) (ctx : RlsContext) : list str :=
  List.map job_id
    (sort_by (fun a b => created_at a <=? created_at b)
       (List.filter
          (fun j => (bool_decide (job_app_id j = app_id ctx)
                     && bool_decide (status j = pending))%bool)
          tbl)).

(** The latest committed version of the row still satisfies
    [status = 'pending']. *)
Definition still_pending (tbl : list Job) (id : str) : bool :=
  existsb (fun j => (bool_decide (job_id j = id)
                     && bool_decide (status j = pending))%bool) tbl.

Definition free_for (w : worker) (lk : gmap str worker) (id : str) : bool :=
  match lk !! id with
  | None => true
  | Some w' => bool_decide (w' = w)
  end.

Definition release (w : worker) (lk : gmap str worker) : gmap str worker :=
  filter (fun kv : str * worker => kv.2 ≠ w) lk.

Definition set_phase (w : worker) (p : phase) (s : state) : state :=
  {| table := table s; locks := locks s;
     phases := <[w := p]> (phases s); returned := returned s |}.

Inductive step : state -> state -> Prop :=
| step_begin s w ctx limit :
    phases s w = Idle ->
    0 <= limit ->
    step s (set_phase w (Selecting limit (candidates (table s) ctx) []) s)
| step_skip s w limit id todo taken :
    phases s w = Selecting limit (id :: todo) taken ->
    Z.of_nat (length taken) < limit ->
    free_for w (locks s) id = false ->
    step s (set_phase w (Selecting limit todo taken) s)
| step_recheck s w limit id todo taken :
    phases s w = Selecting limit (id :: todo) taken ->
    Z.of_nat (length taken) < limit ->
    free_for w (locks s) id = true ->
    still_pending (table s) id = false ->
    step s (set_phase w (Selecting limit todo taken) s)
| step_take s w limit id todo taken :
    phases s w = Selecting limit (id :: todo) taken ->
    Z.of_nat (length taken) < limit ->
    free_for w (locks s) id = true ->
    still_pending (table s) id = true ->
    step s {| table := table s;
              locks := <[id := w]> (locks s);
              phases := <[w := Selecting limit todo (taken ++ [id])]> (phases s);
              returned := returned s |}
| step_select_end s w limit todo taken :
    phases s w = Selecting limit todo taken ->
    todo = [] \/ limit <= Z.of_nat (length taken) ->
    step s (set_phase w (Selected taken) s)
| step_update s w rows :
    phases s w = Selected rows ->
    step s (set_phase w (Updated rows) s)
| step_commit s w rows now :
    phases s w = Updated rows ->
    step s {| table := mark_running now rows (table s);
              locks := release w (locks s);
              phases := <[w := Idle]> (phases s);
              returned := <[w := returned s w ++ rows]> (returned s) |}
| step_abort s w :
    step s {| table := table s;
              locks := release w (locks s);
              phases := <[w := Idle]> (phases s);
              returned := returned s |}
| step_enqueue s ctx new_id now ty p :
    new_id ∉ List.map job_id (table s) ->
    step s {| table := enqueue_job (table s) ctx new_id now ty p;
              locks := locks s; phases := phases s; returned := returned s |}
| step_mark_done s ctx now jid success error :
    locks s !! jid = None ->
    step s {| table := mark_job_done (table s) ctx now jid success error;
              locks := locks s; phases := phases s; returned := returned s |}.

(** Every connection idle, no row locked, nothing handed out yet. *)
Definition initial (tbl : list Job) : state :=
  {| table := tbl; locks := ∅; phases := fun _ => Idle; returned := fun _ => [] |}.

Definition reachable (tbl : list Job) (s : state) : Prop :=
  rtc step (initial tbl) s.

End Claiming.

(* ===================================================================== *)
(** * Vocabulary of the statements *)
(* ===================================================================== *)

Section GraphVocabulary.
Import GraphStore Core.



(** The other arguments of one [upsert_edge] call on a fixed key. *)
Record EdgeCall := {
  call_evidence : option (list str);
  call_confidence : str;
  call_classification : Z;
  call_notes : option str
}.

(** A sequence of calls on the key [(ctx, src, dst, ty)], each carrying
    the weight [w]. *)
Definition upsert_edges (ctx : RlsContext) (src dst ty : str) (w : Q)
    (tbl : list Edge) (calls : list EdgeCall) : list Edge :=
  foldl (fun t c => upsert_edge t ctx src dst ty w (call_evidence c)
                      (call_confidence c) (call_classification c) (call_notes c))
        tbl calls.


(** The identifier and the count a mention contributes. *)
Definition mention_eid (m : Mention) : str := strip (default [] (m_entity_id m)).
Definition mention_cnt (m : Mention) : Z := int_or (m_mention_count m) 1.

(** The sum of the mention counts recorded for one entity. *)
Definition mention_total (eid : str) (ms : list Mention) : Z :=
  foldr (fun m acc => if bool_decide (mention_eid m = eid)
                      then mention_cnt m + acc else acc) 0 ms.

(** Some mention names the entity [eid]. *)
Definition mentioned (eid : str) (ms : list Mention) : bool :=
  (nonempty eid && existsb (fun m => bool_decide (mention_eid m = eid)) ms)%bool.

(** What the decrements of one job do to one row. *)
Definition dec_row (gctx : RlsContext) (dec_map : list (str * Z)) (r : Entity)
    : Entity :=
  foldl (fun r ed =>
           if bool_decide (ent_app_id r = app_id gctx /\ entity_id r = ed.1)
           then set_occurrence (Z.max (occurrence_count r - ed.2) 0) r
           else r)
        r dec_map.

End GraphVocabulary.


(** ** Sample data *)

Definition sample_ctx : GraphStore.RlsContext :=
  {| GraphStore.app_id := lit "appA"; GraphStore.clearance := 2;
     GraphStore.request_id := lit "r1" |}.






(** ** The union step, by recursion *)

(** The candidates a run of the union loop appends when it starts with
    the set [seen]. *)
Fixpoint union_from (seen : gset str) (l : list Hit) : list Hit :=
  match l with
  | [] => []
  | h :: l' =>
      match chunk_id h with
      | Some (c :: cs) =>
          if bool_decide ((c :: cs) ∈ seen) then union_from seen l'
          else h :: union_from ({[c :: cs]} ∪ seen) l'
      | _ => union_from seen l'
      end
  end.

(** The chunk ids of a list of candidates, as the loop records them. *)
Fixpoint id_set (l : list Hit) : gset str :=
  match l with
  | [] => ∅
  | h :: l' =>
      match chunk_id h with
      | Some (c :: cs) => {[c :: cs]} ∪ id_set l'
      | _ => id_set l'
      end
  end.

(** The first candidate of [l] that carries the chunk id of [h]. *)
Definition first_with_id (h : Hit) (l : list Hit) : option Hit :=
  List.find (fun x => bool_decide (chunk_id x = chunk_id h)) l.

(** ** Header texts *)

(** The characters of a page number as [build_meta_header] writes it: a
    sign, decimal digits, and the ellipsis that marks a cut value. *)
Definition header_char (c : N) : Prop :=
  c = 45%N \/ (48 <= c <= 57)%N \/ c = 8230%N.



(** A hit that carries the text [t]. *)
Definition hit_of_text (id : str) (t : str) : Hit :=
  {| chunk_id := Some id; doc_id := None; version_id := None;
     chunk_text := Some t; score := None |}.

(** A character that can stand inside a header token. *)
Definition token_char (c : N) : Prop :=
  isspace c = false /\ c <> 61%N /\ c <> 93%N.

(** The header line [[[META type=T page=P]]]. *)
Definition header_line (ty pg : str) : str :=
  lit "[[META type=" ++ ty ++ lit " page=" ++ pg ++ lit "]]".




(** ** The merge pass, as the design document words it *)

(** The candidates with the header key [k], in input order. *)
Definition group (cfg : Config) (k : str) (hits : list Hit) : list Hit :=
  List.filter (fun h => bool_decide (ChunkFunc.hit_key cfg h = k)) hits.

(** One member more in a merged record: the member's body, its header
    line taken off, goes after the text gathered so far. *)
Definition absorb (cfg : Config) (cur m : Hit) : Hit :=
  set_chunk_text (ChunkFunc.append_text cfg (text_or_empty cur) (text_or_empty m)) cur.

(** The record made of the members of one group: the first member, with
    the bodies of the later ones appended in order. *)
Definition merged_record (cfg : Config) (members : list Hit) : option Hit :=
  match members with
  | [] => None
  | first :: later => Some (foldl (absorb cfg) first later)
  end.

(** One capped record per distinct key, in the order in which the keys
    first occur. *)
Definition spec_merge (cfg : Config) (hits : list Hit) : list Hit :=
  omap (fun k => ChunkFunc.cap_text cfg <$> merged_record cfg (group cfg k hits))
       (first_seen (ChunkFunc.hit_key cfg <$> hits)).


(** ** The retrieval pipeline *)

Section PipelineVocabulary.
Import Core.
Variable env : Env.
Variable cfg : Config.

(** The two contexts [chat_send] builds. *)
Definition rag_ctx (rag_app_id : option str) (rag_clearance : option Z) (rid : str)
    : RagStore.RlsContext :=
  {| RagStore.app_id := str_or rag_app_id (RAG_APP_ID cfg);
     RagStore.clearance := int_or rag_clearance (RAG_CLEARANCE cfg);
     RagStore.request_id := rid |}.

Definition graph_ctx (rag_app_id : option str) (rag_clearance : option Z) (gid : str)
    : GraphStore.RlsContext :=
  {| GraphStore.app_id := str_or rag_app_id (RAG_APP_ID cfg);
     GraphStore.clearance := int_or rag_clearance (RAG_CLEARANCE cfg);
     GraphStore.request_id := gid |}.

(** What [chat_send] returns when the retrieval block raised [e]. *)
Definition aborted (e : exn) : ChatResult :=
  {| cs_ok := true; cs_error := None;
     cs_pdf_context := Some (failure_note e); cs_hits := [] |}.

(** The candidates that reach the rerank step: steps 1 to 6. *)
Definition pre_rerank (gctx : GraphStore.RlsContext) (ctx : RagStore.RlsContext)
    (user_text : str) (graph_enabled : bool) (graph_prompt_key : option str)
    : result (list Hit) :=
  g <- (if graph_enabled
        then graph_path env cfg gctx ctx user_text graph_prompt_key
        else ok (user_text, [])) ;;
  vector_hits <- vector_path env cfg ctx g.1 ;;
  ok (ChunkFunc.merge_hits_by_page_or_caption cfg
        (truncate_hits (RERANK_CANDIDATES cfg) (union_hits g.2 vector_hits))).

(** The messages sent to the chat model for entity extraction. *)
Definition extraction_messages (user_text : str) (graph_prompt_key : option str)
    : list (str * str) :=
  [(lit "system", entity_prompt cfg graph_prompt_key None);
   (lit "user", strip user_text)].

End PipelineVocabulary.

(** A deployment in which the chat model names one entity, the vector
    search finds one chunk, and the parts listed in [down] are out of
    reach. *)
Inductive part := GraphDatabase | RerankService.

#[export] Instance part_eq_dec : EqDecision part.
Proof. solve_decision. Defined.

Definition unreachable : exn :=
  Exn (lit "ConnectionError") (lit "connection refused").

Definition sample_hit : Hit :=
  hit_of_text (lit "c1") (header_line (lit "text") (lit "1") ++ 10%N :: lit "5G is a radio standard").

Definition sample_env (down : list part) : Core.Env :=
  {| Core.call_vllm_chat := fun _ => ok (lit "[entities]");
     Core.json_loads := fun _ =>
       Some (Core.JArr [Core.JObj [(lit "name", Core.JStr (lit "5G"));
                                   (lit "type", Core.JStr (lit "term"))]]);
     Core.find_json_span := fun _ => None;
     Core.math_log := fun _ => ok 0%Q;
     Core.embed_text := fun _ => ok [1; 0]%Q;
     Core.find_entities_by_name_or_alias := fun _ _ _ =>
       if bool_decide (GraphDatabase ∈ down) then raise unreachable
       else ok [{| Core.eh_entity_id := Some (lit "e1");
                   Core.eh_name := Some (lit "5G");
                   Core.eh_occurrence_count := Some 10 |}];
     Core.find_entities_by_embedding := fun _ _ _ _ =>
       if bool_decide (GraphDatabase ∈ down) then raise unreachable else ok [];
     Core.get_neighbor_entities := fun _ _ _ =>
       if bool_decide (GraphDatabase ∈ down) then raise unreachable else ok [];
     Core.list_chunk_ids_by_entities := fun _ _ _ =>
       if bool_decide (GraphDatabase ∈ down) then raise unreachable else ok [];
     Core.get_chunks_by_ids := fun _ _ => ok [];
     Core.search_chunks := fun _ _ _ _ => ok [sample_hit];
     Core.rerank_post := fun _ docs _ =>
       if bool_decide (RerankService ∈ down) then raise unreachable
       else ok (List.map (fun d => {| Rerank.doc := d;
                                     Rerank.item_score := Some 1%Q |}) docs) |}.

(** ** Concurrent claiming *)

(** What holds in every state the connections can reach. *)
Record claim_invariant (s : Claiming.state) : Prop := {
  held_is_locked :
    forall w id, id ∈ Claiming.held (Claiming.phases s w) ->
                 Claiming.locks s !! id = Some w;
  held_is_stored :
    forall w id, id ∈ Claiming.held (Claiming.phases s w) ->
                 id ∈ GraphStore.job_id <$> Claiming.table s;
  held_not_returned :
    forall w1 w2 id, id ∈ Claiming.held (Claiming.phases s w1) ->
                     id ∉ Claiming.returned s w2;
  returned_is_stored :
    forall w id, id ∈ Claiming.returned s w ->
                 id ∈ GraphStore.job_id <$> Claiming.table s;
  returned_not_pending :
    forall w id, id ∈ Claiming.returned s w ->
                 Claiming.still_pending (Claiming.table s) id = false;
  returned_disjoint :
    forall w1 w2 id, w1 <> w2 -> id ∈ Claiming.returned s w1 ->
                     id ∉ Claiming.returned s w2
}.

(** Two pending jobs of one tenant. *)
Definition sample_job (id : string) (t : Z) : GraphStore.Job :=
  {| GraphStore.job_id := lit id; GraphStore.job_app_id := lit "appA";
     GraphStore.job_type := lit "doc_deleted"; GraphStore.payload := None;
     GraphStore.status := GraphStore.pending; GraphStore.created_at := t;
     GraphStore.started_at := None; GraphStore.finished_at := None;
     GraphStore.error_message := None |}.

Definition sample_jobs : list GraphStore.Job :=
  [sample_job "j1" 1; sample_job "j2" 2].

(** Candidates of the two paths that share the chunk [c2]. *)
Definition sample_graph_hits : list Hit :=
  [hit_of_text (lit "c1") (lit "graph 1"); hit_of_text (lit "c2") (lit "graph 2")].

Definition sample_vector_hits : list Hit :=
  [hit_of_text (lit "c2") (lit "vector 2"); hit_of_text (lit "c3") (lit "vector 3")].

(* ===================================================================== *)
(** * Further sequence operations of Python *)
(* ===================================================================== *)

Module PySeq.

(** A bound [i] of a slice of a sequence of length [n], as the
    interpreter adjusts it: a negative bound counts from the end, and
    the result stays within [0, n]. *)
Definition clamp_index (n i : Z) : Z :=
  if i <? 0 then Z.max (i + n) 0 else Z.min i n.

(** [s[a:b]] for integers of either sign. *)
Definition slice {A} (a b : Z) (s : list A) : list A :=
  let n := Z.of_nat (length s) in
  take (Z.to_nat (clamp_index n b - clamp_index n a))
       (drop (Z.to_nat (clamp_index n a)) s).

(** [s[a:]]. *)
Definition slice_after {A} (a : Z) (s : list A) : list A :=
  drop (Z.to_nat (clamp_index (Z.of_nat (length s)) a)) s.

(** [s.split(sep)] for a separator of at least one character: the
    occurrences of [sep] are taken from the left and do not overlap.
    [skip] counts the characters of a separator still to pass over. *)
Fixpoint split_skip (sep : str) (skip : nat) (s : str) : list str :=
  match s with
  | [] => [[]]
  | c :: s' =>
      match skip with
      | S k => split_skip sep k s'
      | O =>
          if startswith (c :: s') sep
          then [] :: split_skip sep (length sep - 1) s'
          else match split_skip sep 0 s' with
               | [] => [[c]]
               | l :: ls => (c :: l) :: ls
               end
      end
  end.

Definition split (sep s : str) : list str := split_skip sep 0 s.

(** [range(0, stop, step)] for a positive [step]. *)
Definition range_by (stop step : Z) : list Z :=
  List.map (fun k => Z.of_nat k * step)
           (seq 0 (Z.to_nat ((stop + step - 1) / step))).

End PySeq.

(* ===================================================================== *)
(** * functions/chunkfunc.py: the text splitters *)
(* ===================================================================== *)

Module Chunking.
Import PySeq.

(** ** [sliding_chunk_text] *)

(** The [while] loop, one turn per unit of [fuel]; [None] says that the
    loop has not ended within [fuel] turns. *)
Fixpoint sliding_loop (fuel : nat) (text : str) (chunk_size overlap : Z)
    (start : Z) (chunks : list str) : option (list str) :=
  match fuel with
  | O => None
  | S fuel' =>
      let n := Z.of_nat (length text) in
      if start <? n then
        let end_ := Z.min n (start + chunk_size) in
        let chunks := chunks ++ [slice start end_ text] in
        if end_ =? n then Some chunks
        else sliding_loop fuel' text chunk_size overlap
               (Z.max 0 (end_ - overlap)) chunks
      else Some chunks
  end.

Definition sliding_chunk_text (fuel : nat) (text : str) (chunk_size overlap : Z)
    : option (list str) :=
  match text with
  | [] => Some []
  | _ => sliding_loop fuel text chunk_size overlap 0 []
  end.

(** ** [recursive_chunk_text] *)

(** Paragraph break, line break, the full stops, exclamation and
    question marks of Chinese, the Latin full stop, the Arabic and the
    Latin semicolon, the space, and the empty separator of the last
    pass. *)
Definition seps : list str :=
  [[10; 10]; [10]; [12290]; [65281]; [65311]; [46]; [1563]; [59]; [32]; []]%N.

Definition zero_step : exn :=
  Exn (lit "ValueError") (lit "range() arg 3 must not be zero").

(** The pass with the empty separator: pieces of [chunk_size]
    characters.  [range] rejects a step of 0 and is empty for a negative
    one. *)
Definition hard_cut (chunk_size : Z) (t : str) : result (list str) :=
  if chunk_size =? 0 then raise zero_step
  else if chunk_size <? 0 then ok []
  else ok (List.map (fun i => slice i (i + chunk_size) t)
             (range_by (Z.of_nat (length t)) chunk_size)).

(** One turn of the loop of [pack_by_sep]: the state is [out] and
    [buf]. *)
Definition pack_step (chunk_size : Z) (sep : str) (st : list str * str)
    (p : str) : list str * str :=
  match p with
  | [] => st
  | _ =>
      let piece := p ++ sep in
      if Z.of_nat (length st.2) + Z.of_nat (length piece) <=? chunk_size
      then (st.1, st.2 ++ piece)
      else (if nonempty (strip st.2) then st.1 ++ [st.2] else st.1, piece)
  end.

Definition pack_by_sep (chunk_size : Z) (t sep : str) : result (list str) :=
  match sep with
  | [] => hard_cut chunk_size t
  | _ =>
      let st := foldl (pack_step chunk_size sep) ([], []) (split sep t) in
      ok (if nonempty (strip st.2) then st.1 ++ [st.2] else st.1)
  end.

(** The inner loop over [chunks] for one separator. *)
Fixpoint split_pass (chunk_size : Z) (sep : str) (chunks : list str)
    : result (list str) :=
  match chunks with
  | [] => ok []
  | c :: rest =>
      match strip c with
      | [] => split_pass chunk_size sep rest
      | c' =>
          if Z.of_nat (length c') <=? chunk_size
          then new_chunks <- split_pass chunk_size sep rest ;; ok (c' :: new_chunks)
          else pieces <- pack_by_sep chunk_size c' sep ;;
               new_chunks <- split_pass chunk_size sep rest ;;
               ok (pieces ++ new_chunks)
      end
  end.

(** The outer loop over the separators. *)
Fixpoint split_passes (chunk_size : Z) (separators : list str) (chunks : list str)
    : result (list str) :=
  match separators with
  | [] => ok chunks
  | sep :: separators' =>
      new_chunks <- split_pass chunk_size sep chunks ;;
      split_passes chunk_size separators' new_chunks
  end.

(** One turn of the overlap loop: the tail of the previous final chunk
    goes before the current one. *)
Definition add_overlap (overlap : Z) (final : list str) (cur : str) : list str :=
  final ++ [strip (slice_after (- overlap) (List.last final []) ++ cur)].

Definition with_overlap (overlap : Z) (chunks : list str) : list str :=
  match chunks with
  | c0 :: (_ :: _) as rest =>
      if 0 <? overlap then foldl (add_overlap overlap) [c0] rest else chunks
  | _ => chunks
  end.

Definition recursive_chunk_text (text : str) (chunk_size overlap : Z)
    : result (list str) :=
  match text with
  | [] => ok []
  | _ =>
      chunks <- split_passes chunk_size seps [text] ;;
      ok (List.map strip
            (List.filter (fun c => nonempty (strip c)) (with_overlap overlap chunks)))
  end.

End Chunking.

(* ===================================================================== *)
(** * functions/rerank_client.py: [rerank] *)
(* ===================================================================== *)

Module RerankOrder.
Import Rerank.

Section WithScorer.
Variable post : str -> list (option str) -> Z -> result (list Item).

(** One turn of the loop over [results]: the state is [order] and
    [used]. *)
Definition take_index (docs : list (option str)) (st : list nat * gset nat)
    (item : Item) : list nat * gset nat :=
  match doc item with
  | None => st
  | Some _ =>
      match index_of (doc item) docs with
      | Some i =>
          if bool_decide (i ∈ st.2) then st
          else (st.1 ++ [i], {[i]} ∪ st.2)
      | None => st
      end
  end.

(** [rerank]: the positions of the documents, best first, the ones the
    scorer did not return at the end. *)
Definition rerank (query : str) (docs : list (option str)) (top_k : Z)
    : result (list nat) :=
  results <- rerank_results post query docs top_k ;;
  let st := foldl (take_index docs) ([], ∅) results in
  ok (st.1 ++ List.filter (fun i => negb (bool_decide (i ∈ st.2)))
                (seq 0 (length docs))).
End WithScorer.

End RerankOrder.

(* ===================================================================== *)
(** * relateddocker/rerank-docker/app.py *)
(* ===================================================================== *)

Module RerankApp.

(** One entry of the [results] array of the answer. *)
Record Result := {
  r_doc : str;
  r_score : Q;
  r_rank : Z
}.

Section WithModel.
(** [model.predict]: the scores of a batch of [query, document] pairs,
    computed by the cross-encoder. *)
Variable predict : list (str * str) -> list Q.

Definition index_error : exn :=
  Exn (lit "IndexError") (lit "list index out of range").

(** The handler of [POST /rerank]. *)
Definition rerank (query : str) (documents : list str) (top_k : Z)
    : result (list Result) :=
  let pairs := List.map (fun d => (query, d)) documents in
  let scores := predict pairs in
  let idx :=
    sort_by (fun i j => Qle_bool (nth j scores 0%Q) (nth i scores 0%Q))
            (seq 0 (length scores)) in
  let top := slice_to (Z.min top_k (Z.of_nat (length idx))) idx in
  if forallb (fun i => i <? length documents)%nat top
  then ok (imap (fun r i => {| r_doc := nth i documents [];
                               r_score := nth i scores 0%Q;
                               r_rank := Z.of_nat r + 1 |})
                top)
  else raise index_error.
End WithModel.

End RerankApp.

(* ===================================================================== *)
(** * core.py: the object keys of a document *)
(* ===================================================================== *)

Module CoreKeys.

(** [ObjectStore.get_uri] of [functions/object_store.py]; the bucket
    name is fixed when the store is created. *)
Definition get_uri (bucket object_key : str) : str :=
  lit "s3://" ++ bucket ++ [47%N] ++ object_key.

(** [s.split(anchor, 1)[1]] when [anchor in s], for an anchor of at
    least one character: the text after the first occurrence of
    [anchor]; [None] when there is none. *)
Fixpoint after_first (anchor s : str) : option str :=
  if startswith s anchor then Some (drop (length anchor) s)
  else match s with
       | [] => None
       | _ :: s' => after_first anchor s'
       end.

(** [[s for s in key.split("/") if s]]. *)
Definition segments (key : str) : list str :=
  List.filter nonempty (fields (fun c => N.eqb c 47) key).

(** [_parse_doc_dir_from_source_uri]. *)
Definition _parse_doc_dir_from_source_uri (source_uri rag_app_id : option str)
    : option str :=
  let source_uri := strip (default [] source_uri) in
  let rag_app_id := strip (default [] rag_app_id) in
  if (negb (nonempty source_uri) || negb (nonempty rag_app_id))%bool then None
  else if startswith source_uri (lit "s3://") then
    let tail := drop 5 source_uri in
    match split_once 47%N tail with
    | None => None
    | Some (_, key) =>
        match segments key with
        | s0 :: s1 :: _ => if bool_decide (s0 = rag_app_id) then Some s1 else None
        | _ => None
        end
    end
  else
    match after_first ([47%N] ++ rag_app_id ++ [47%N]) source_uri with
    | Some tail =>
        match segments tail with
        | s0 :: _ => Some s0
        | [] => None
        end
    | None => None
    end.

(** The dictionary [build_ocr_object_keys] returns. *)
Record OcrKeys := {
  k_img : str;
  k_text : str;
  k_tab : str;
  k_figure : str;
  k_log : str
}.

Definition invalid_arguments : exn :=
  Exn (lit "ValueError") (lit "rag_app_id/doc_dir/page_no invalid").

(** [build_ocr_object_keys], for a page number that is an [int]. *)
Definition build_ocr_object_keys (cfg : Config) (rag_app_id doc_dir : option str)
    (page_no : Z) : result OcrKeys :=
  let rag_app_id := strip (Core.str_or rag_app_id (RAG_APP_ID cfg)) in
  let doc_dir := strip (default [] doc_dir) in
  if (negb (nonempty rag_app_id) || negb (nonempty doc_dir) || (page_no <=? 0))%bool
  then raise invalid_arguments
  else
    let base := rag_app_id ++ [47%N] ++ doc_dir ++ lit "/ocr" in
    let file_base := doc_dir ++ lit "_page" ++ str_of_int page_no in
    ok {| k_img := base ++ lit "/img/" ++ file_base ++ lit ".png";
          k_text := base ++ lit "/text/" ++ file_base ++ lit ".txt";
          k_tab := base ++ lit "/tab/" ++ file_base ++ lit "table.txt";
          k_figure := base ++ lit "/figure/" ++ file_base ++ lit "figure.txt";
          k_log := base ++ lit "/log/" ++ file_base ++ lit "log.txt" |}.

(** The object keys [ingest_pages_common] writes: the source file, the
    artefacts of one page, and the text of the whole document. *)
Definition source_key (rag_app_id doc_dir suffix : str) : str :=
  rag_app_id ++ [47%N] ++ doc_dir ++ lit "/source/" ++ doc_dir ++ suffix.

Definition page_text_key (rag_app_id doc_dir : str) (page_no : Z) : str :=
  (rag_app_id ++ [47%N] ++ doc_dir ++ lit "/ocr")
    ++ lit "/text/" ++ doc_dir ++ lit "_page" ++ str_of_int page_no ++ lit ".txt".

Definition page_tab_key (rag_app_id doc_dir : str) (page_no : Z) : str :=
  (rag_app_id ++ [47%N] ++ doc_dir ++ lit "/ocr")
    ++ lit "/tab/" ++ doc_dir ++ lit "_page" ++ str_of_int page_no ++ lit "table.txt".

Definition page_figure_key (rag_app_id doc_dir : str) (page_no : Z) : str :=
  (rag_app_id ++ [47%N] ++ doc_dir ++ lit "/ocr")
    ++ lit "/figure/" ++ doc_dir ++ lit "_page" ++ str_of_int page_no
    ++ lit "figure.txt".

Definition page_img_key (rag_app_id doc_dir : str) (page_no : Z) : str :=
  (rag_app_id ++ [47%N] ++ doc_dir ++ lit "/ocr")
    ++ lit "/img/" ++ doc_dir ++ lit "_page" ++ str_of_int page_no ++ lit ".png".

Definition full_text_key (rag_app_id doc_dir : str) : str :=
  rag_app_id ++ [47%N] ++ doc_dir ++ lit "/text/" ++ doc_dir ++ lit ".txt".

(** The prefix [delete_doc] clears in the object store. *)
Definition delete_prefix (rag_app_id doc_dir : str) : str :=
  rag_app_id ++ [47%N] ++ doc_dir ++ [47%N].

End CoreKeys.

(* ===================================================================== *)
(** * The graph build of an ingested document *)
(* ===================================================================== *)

Module GraphBuild.
Import GraphStore.

(** ** Table [entity_chunk] (graphfunc/graph_pg_store.py) *)

Record EntityChunk := {
  ec_app_id : str;
  ec_entity_id : str;
  ec_chunk_id : str;
  ec_mention_count : Z;
  ec_char_position : option Z;
  ec_extracted_context : option str;
  ec_confidence : str;
  ec_classification : Z
}.

(** The conflict target [(app_id, entity_id, chunk_id)]. *)
Definition has_mention_key (app eid cid : str) (r : EntityChunk) : bool :=
  bool_decide (ec_app_id r = app ∧ ec_entity_id r = eid ∧ ec_chunk_id r = cid).

(** The [DO UPDATE SET] clause of [upsert_entity_chunk]. *)
Definition merge_entity_chunk (mention_count : Z) (conf : str) (cls : Z)
    (r : EntityChunk) : EntityChunk :=
  {| ec_app_id := ec_app_id r;
     ec_entity_id := ec_entity_id r;
     ec_chunk_id := ec_chunk_id r;
     ec_mention_count := ec_mention_count r + mention_count;
     ec_char_position := ec_char_position r;
     ec_extracted_context := ec_extracted_context r;
     ec_confidence := conf;
     ec_classification := cls |}.

(** [upsert_entity_chunk]. *)
Definition upsert_entity_chunk (tbl : list EntityChunk) (ctx : RlsContext)
    (eid cid : str) (mention_count : Z) (char_position : option Z)
    (extracted_context : option str) (conf : str) (cls : Z)
    : list EntityChunk :=
  if existsb (has_mention_key (app_id ctx) eid cid) tbl then
    List.map (fun r => if has_mention_key (app_id ctx) eid cid r
                       then merge_entity_chunk mention_count conf cls r
                       else r) tbl
  else
    tbl ++ [{| ec_app_id := app_id ctx; ec_entity_id := eid; ec_chunk_id := cid;
               ec_mention_count := mention_count;
               ec_char_position := char_position;
               ec_extracted_context := extracted_context;
               ec_confidence := conf; ec_classification := cls |}].


(** ** The loops of [ingest_pages_common] (core.py) *)

(** The three graph tables. *)
Record Stores := {
  s_entities : list Entity;
  s_entity_chunk : list EntityChunk;
  s_edges : list Edge
}.

(** One extracted entity as it reaches [upsert_entity]: its fields, the
    embedding computed for it ([None] when there is no text to embed or
    the embedding failed), and the identifier and time the database
    would give a row inserted by this call. *)
Record Extracted := {
  x_name : str;
  x_type : str;
  x_aliases : list str;
  x_confidence : option str;
  x_embedding : option vector;
  x_new_id : str;
  x_now : Z
}.

(** The state of the loop over the entities of one chunk: the tables,
    [entity_ids], and the exception that has left the loops, if any. *)
Definition record_entity (cfg : Config) (gctx : RlsContext) (cls : Z)
    (chunk_id : str) (acc : Stores * list str * option exn) (ent : Extracted)
    : Stores * list str * option exn :=
  match acc.2 with
  | Some _ => acc
  | None =>
      let st := acc.1.1 in
      let entity_ids := acc.1.2 in
      let conf := Core.str_or (x_confidence ent) (lit "medium") in
      match upsert_entity cfg (s_entities st) gctx (x_new_id ent) (x_now ent)
              (x_name ent) (x_type ent) (Some (x_aliases ent)) None conf cls
              (x_embedding ent) with
      | inl e => (st, entity_ids, Some e)
      | inr (tbl, row) =>
          let entity_id := entity_id <$> row in
          if truthy entity_id then
            ({| s_entities := tbl;
                s_entity_chunk :=
                  upsert_entity_chunk (s_entity_chunk st) gctx
                    (default [] entity_id) chunk_id 1 None None conf cls;
                s_edges := s_edges st |},
             entity_ids ++ [default [] entity_id], None)
          else
            ({| s_entities := tbl; s_entity_chunk := s_entity_chunk st;
                s_edges := s_edges st |},
             entity_ids, None)
      end
  end.

(** The two [upsert_edge] calls for one pair. *)
Definition link_pair (gctx : RlsContext) (cls : Z) (chunk_id : str)
    (tbl : list Edge) (ab : str * str) : list Edge :=
  upsert_edge
    (upsert_edge tbl gctx ab.1 ab.2 Core.co_occurs (1 # 2) (Some [chunk_id])
       (lit "medium") cls None)
    gctx ab.2 ab.1 Core.co_occurs (1 # 2) (Some [chunk_id]) (lit "medium") cls None.

(** The nested loops over the pairs of [entity_ids]. *)
Definition link_entities (gctx : RlsContext) (cls : Z) (chunk_id : str)
    (tbl : list Edge) (entity_ids : list str) : list Edge :=
  foldl (link_pair gctx cls chunk_id) tbl (Core.pairs entity_ids).

(** One turn of the loop over the chunks, for a chunk that reaches the
    extraction: its identifier and what the extraction returned. *)
Definition build_chunk (cfg : Config) (gctx : RlsContext) (cls : Z)
    (acc : Stores * option exn) (ch : str * list Extracted)
    : Stores * option exn :=
  match acc.2 with
  | Some _ => acc
  | None =>
      let r := foldl (record_entity cfg gctx cls ch.1) (acc.1, [], None) ch.2 in
      match r.2 with
      | Some e => (r.1.1, Some e)
      | None =>
          ({| s_entities := s_entities r.1.1;
              s_entity_chunk := s_entity_chunk r.1.1;
              s_edges := link_entities gctx cls ch.1 (s_edges r.1.1) r.1.2 |}, None)
      end
  end.

(** The graph build: the loop over the chunks.  The tables are handed
    back with the exception that ended the build, if one did. *)
Definition graph_build (cfg : Config) (gctx : RlsContext) (cls : Z)
    (st : Stores) (chunks : list (str * list Extracted)) : Stores * option exn :=
  foldl (build_chunk cfg gctx cls) (st, None) chunks.

End GraphBuild.

(* ===================================================================== *)
(** * graphfunc/graph_pg_store.py: the chunks of a set of entities *)
(* ===================================================================== *)

Module GraphQuery.
Import GraphStore GraphBuild.

(** The rows of the [WHERE] clause of [list_chunk_ids_by_entities]. *)
Definition mentioning (tbl : list EntityChunk) (ctx : RlsContext)
    (entity_ids : list str) : list EntityChunk :=
  List.filter (fun r => (bool_decide (ec_app_id r = app_id ctx)
                         && bool_decide (ec_entity_id r ∈ entity_ids))%bool) tbl.

(** [GROUP BY chunk_id]: the groups, in the order in which their first
    rows come, and [SUM(mention_count)] over one of them. *)
Definition mentioned_chunks (rows : list EntityChunk) : list str :=
  first_seen (List.map ec_chunk_id rows).

Definition group_score (rows : list EntityChunk) (cid : str) : Z :=
  foldr (fun r acc => if bool_decide (ec_chunk_id r = cid)
                      then ec_mention_count r + acc else acc) 0 rows.

Definition chunk_scores (tbl : list EntityChunk) (ctx : RlsContext)
    (entity_ids : list str) : list (str * Z) :=
  let rows := mentioning tbl ctx entity_ids in
  List.map (fun cid => (cid, group_score rows cid)) (mentioned_chunks rows).

(** [list_chunk_ids_by_entities]: [ORDER BY score DESC LIMIT limit]
    (the query leaves the order of equal scores open; the groups keep
    their order here).  PostgreSQL rejects a negative [LIMIT]. *)
Definition list_chunk_ids_by_entities (tbl : list EntityChunk) (ctx : RlsContext)
    (entity_ids : list str) (limit : Z) : result (list str) :=
  match entity_ids with
  | [] => ok []
  | _ =>
      if limit <? 0 then raise negative_limit
      else ok (List.map fst
                 (sql_limit limit
                    (sort_by (fun a b : str * Z => b.2 <=? a.2)
                       (chunk_scores tbl ctx entity_ids))))
  end.

End GraphQuery.

(* ===================================================================== *)
(** * Vocabulary of the further properties *)
(* ===================================================================== *)


(** A character that can stand in a word of a header: no white space
    and no closing bracket. *)
Definition word_char (c : N) : Prop := isspace c = false /\ c <> 93%N.

(** A word of a header: at least one character. *)
Definition header_word (w : str) : Prop := w <> [] /\ Forall word_char w.

(** The header line made of the given words. *)
Definition header_of_words (words : list str) : str :=
  lit "[[META" ++ [32%N] ++ join [32%N] words ++ lit "]]".

(** A chunk text without header: it is empty, or its first line does
    not start with the header prefix. *)
Definition headerless (cfg : Config) (t : str) : Prop :=
  t = [] \/ startswith (strip (hd [] (splitlines t))) (META_PREFIX cfg) = false.

(** ** The scorer behind [rerank_hits] *)

Section ServedScorer.
Variable predict : list (str * str) -> list Q.

Definition unprocessable : exn :=
  Exn (lit "HTTPError") (lit "422 Client Error: Unprocessable Entity").

(** The exchange of [rerank_results] with a scoring service that is up:
    the request carries the documents, the answer the [results] of the
    handler.  A document that is not a string fails the validation of
    the request, and an exception inside the handler is an error status
    which [raise_for_status] raises. *)
Definition served_post (query : str) (docs : list (option str)) (top_k : Z)
    : result (list Rerank.Item) :=
  match mapM id docs with
  | Some documents =>
      results <- RerankApp.rerank predict query documents top_k ;;
      ok (List.map (fun r => {| Rerank.doc := Some (RerankApp.r_doc r);
                                Rerank.item_score := Some (RerankApp.r_score r) |})
                   results)
  | None => raise unprocessable
  end.

(** The candidates next to their scores, best first, ties in input
    order. *)
Definition ranked (query : str) (hits : list Hit) : list (Hit * Q) :=
  sort_by (fun a b : Hit * Q => Qle_bool b.2 a.2)
    (zip hits (predict (List.map (fun h => (query, text_or_empty h)) hits))).

(** The [top_k] best of them. *)
Definition top_ranked (query : str) (hits : list Hit) (top_k : Z)
    : list (Hit * Q) :=
  slice_to (Z.min top_k (Z.of_nat (length hits))) (ranked query hits).

End ServedScorer.

(** What the loops of [rerank] and [rerank_hits] keep true of their
    state: [order] holds positions of [docs], none twice, and [used] is
    the set of these positions. *)
Definition order_ok (n : nat) (st : list nat * gset nat) : Prop :=
  NoDup st.1 /\ (forall i, i ∈ st.1 <-> i ∈ st.2) /\ Forall (fun i => (i < n)%nat) st.1.

(** A scoring model that prefers long documents, and three candidates. *)
Definition sample_predict (pairs : list (str * str)) : list Q :=
  List.map (fun p : str * str => inject_Z (Z.of_nat (length p.2)) / 10)%Q pairs.

Definition sample_candidates : list Hit :=
  [hit_of_text (lit "c1") (lit "ab");
   hit_of_text (lit "c2") (lit "abcdefgh");
   hit_of_text (lit "c3") (lit "abcde")].

(** ** Keys of the graph tables *)


(** The conflict target of [upsert_edge]. *)
Definition edge_key (r : GraphStore.Edge) : str * str * str * str :=
  (GraphStore.edge_app_id r, GraphStore.src_entity_id r,
   GraphStore.dst_entity_id r, GraphStore.edge_type r).

(** ** The job queue *)

Section QueueVocabulary.
Import GraphStore.

(** The pending jobs of the tenant, in table order. *)
Definition pending_of (jobs : list Job) (ctx : RlsContext) : list Job :=
  List.filter
    (fun j => (bool_decide (job_app_id j = app_id ctx)
               && bool_decide (status j = pending))%bool)
    jobs.

(** The order of [ORDER BY created_at ASC]. *)
Definition by_age (a b : Job) : bool := created_at a <=? created_at b.

End QueueVocabulary.

(** ** The maintenance worker *)

Section WorkerVocabulary.
Import GraphStore.

(** The context [process_graph_jobs_once] builds. *)
Definition worker_ctx (cfg : Config) (rag_app_id : option str)
    (rag_clearance : option Z) (gid : str) : RlsContext :=
  {| app_id := strip (Core.str_or rag_app_id (RAG_APP_ID cfg));
     clearance := Core.int_or rag_clearance (RAG_CLEARANCE cfg);
     request_id := gid |}.

(** The row [e'] is the row [e] with an evidence count that lies
    between the old count and zero. *)
Definition count_lowered (e e' : Edge) : Prop :=
  e' = set_evidence_count (evidence_count e') e
  /\ Z.min (evidence_count e) 0 <= evidence_count e' <= Z.max (evidence_count e) 0.

(** What one round does to one edge: the count may go down, and rows
    of other tenants or of another edge type stay as they are. *)
Definition edge_kept (gctx : RlsContext) (e e' : Edge) : Prop :=
  count_lowered e e'
  /\ (edge_app_id e <> app_id gctx \/ edge_type e <> Core.co_occurs -> e' = e).

End WorkerVocabulary.

(** ** The hybrid entity lookup *)

(** What the loops of [_find_entities_hybrid] keep true of [results]:
    no key twice, and every key is the non-empty identifier of the row
    stored under it. *)
Definition results_ok (results : list (str * Core.scored)) : Prop :=
  NoDup results.*1
  /\ Forall (fun kv : str * Core.scored =>
               Core.eh_entity_id kv.2.1 = Some kv.1 /\ kv.1 <> []) results.

(** ** The graph build *)

Section BuildVocabulary.
Import GraphStore GraphBuild.









End BuildVocabulary.

(** A table with one entity, and a document of one chunk whose
    extraction names that entity and a new one. *)
Definition sample_entity : GraphStore.Entity :=
  {| GraphStore.entity_id := lit "e1"; GraphStore.ent_app_id := lit "appA";
     GraphStore.name := lit "Ada"; GraphStore.type := lit "person";
     GraphStore.aliases := []; GraphStore.description := None;
     GraphStore.confidence := lit "high"; GraphStore.classification := 0;
     GraphStore.embedding := None; GraphStore.occurrence_count := 2;
     GraphStore.first_occurrence := 1; GraphStore.last_occurrence := 1;
     GraphStore.is_active := true |}.

Definition sample_stores : GraphBuild.Stores :=
  {| GraphBuild.s_entities := [sample_entity];
     GraphBuild.s_entity_chunk := [];
     GraphBuild.s_edges := [] |}.

Definition sample_extracted (nm id : string) : GraphBuild.Extracted :=
  {| GraphBuild.x_name := lit nm; GraphBuild.x_type := lit "person";
     GraphBuild.x_aliases := []; GraphBuild.x_confidence := None;
     GraphBuild.x_embedding := None; GraphBuild.x_new_id := lit id;
     GraphBuild.x_now := 5 |}.

Definition sample_document : list (str * list GraphBuild.Extracted) :=
  [(lit "c1", [sample_extracted "Ada" "e2"; sample_extracted "Bob" "e3"])].


(** ** The co-occurrence edges of a document *)

Section EdgeVocabulary.
Import GraphStore GraphBuild.


(** The key of the co-occurrence edge of the tenant between two
    entities. *)
Definition co_key (gctx : RlsContext) (ab : str * str) : str * str * str * str :=
  (app_id gctx, ab.1, ab.2, Core.co_occurs).

(** How many of the pairs [l] address the edge with key [k]. *)
Definition hits (gctx : RlsContext) (k : str * str * str * str)
    (l : list (str * str)) : Z :=
  Z.of_nat (length (List.filter (fun ab => bool_decide (co_key gctx ab = k)) l)).










End EdgeVocabulary.

(** ** Texts without a break *)

(** The separators of [recursive_chunk_text] that are not white space,
    in the order of its passes. *)
Definition marks : str := [12290; 65281; 65311; 46; 1563; 59]%N.

(** A text without white space and without any of these marks: no pass
    of [recursive_chunk_text] finds a place to cut it. *)
Definition unbroken (t : str) : Prop :=
  Forall (fun c => isspace c = false /\ c ∉ marks) t.
(* ===================================================================== *)
(** * Properties *)
(* ===================================================================== *)

(** ** First occurrences *)

Section FirstSeen.
Context {A : Type} `{EqDecision A}.
Implicit Types (l seen : list A) (x : A).

Lemma elem_of_first_seen_from seen l x :
  x ∈ first_seen_from seen l ↔ x ∈ l ∧ x ∉ seen.
Proof.
  revert seen. induction l as [|y l IH]; intros seen; simpl.
  - rewrite elem_of_nil. naive_solver.
  - case_bool_decide as Hy.
    + rewrite IH, elem_of_cons. naive_solver.
    + rewrite !elem_of_cons, IH, not_elem_of_cons.
      destruct (decide (x = y)); naive_solver.
Qed.

Lemma NoDup_first_seen_from seen l : NoDup (first_seen_from seen l).
Proof.
  revert seen. induction l as [|y l IH]; intros seen; simpl.
  - constructor.
  - case_bool_decide; [apply IH|].
    constructor; [|apply IH].
    rewrite elem_of_first_seen_from, not_elem_of_cons. naive_solver.
Qed.

Lemma first_seen_from_snoc seen l x :
  first_seen_from seen (l ++ [x]) =
    if bool_decide (x ∈ seen ++ l) then first_seen_from seen l
    else first_seen_from seen l ++ [x].
Proof.
  revert seen. induction l as [|y l IH]; intros seen; simpl.
  - rewrite app_nil_r. by case_bool_decide.
  - case_bool_decide as Hy.
    + rewrite IH. do 2 case_bool_decide; try done;
        set_solver.
    + rewrite IH. do 2 case_bool_decide; try done; set_solver.
Qed.

Lemma first_seen_snoc l x :
  first_seen (l ++ [x]) =
    if bool_decide (x ∈ l) then first_seen l else first_seen l ++ [x].
Proof. apply first_seen_from_snoc. Qed.

Lemma elem_of_first_seen l x : x ∈ first_seen l ↔ x ∈ l.
Proof.
  unfold first_seen. rewrite elem_of_first_seen_from.
  split; [naive_solver|]. intros ?; split; [done|]. apply not_elem_of_nil.
Qed.

Lemma NoDup_first_seen l : NoDup (first_seen l).
Proof. apply NoDup_first_seen_from. Qed.

Lemma first_seen_from_sublist seen l : first_seen_from seen l `sublist_of` l.
Proof.
  revert seen. induction l as [|y l IH]; intros seen; simpl; [done|].
  case_bool_decide; [by apply sublist_cons | by apply sublist_skip].
Qed.
End FirstSeen.

(** ** Sorting *)

Section SortingFacts.
Context {A : Type} (leb : A -> A -> bool).
Hypothesis leb_total : forall a b, leb a b = true \/ leb b a = true.
Hypothesis leb_trans : forall a b c, leb a b = true -> leb b c = true -> leb a c = true.

Lemma insert_sorted_perm x l : insert_sorted leb x l ≡ₚ x :: l.
Proof.
  induction l as [|y l IH]; simpl; [done|].
  destruct (leb x y); [done|]. rewrite IH. apply Permutation_swap.
Qed.

Lemma sort_by_perm l : sort_by leb l ≡ₚ l.
Proof.
  induction l as [|x l IH]; simpl; [done|].
  unfold sort_by in *. simpl. by rewrite insert_sorted_perm, IH.
Qed.

Lemma insert_sorted_sorted x l :
  StronglySorted (fun a b => leb a b = true) l ->
  StronglySorted (fun a b => leb a b = true) (insert_sorted leb x l).
Proof.
  induction 1 as [|y l Hs IH Hall]; simpl.
  - repeat constructor.
  - destruct (leb x y) eqn:Hxy.
    + constructor; [by constructor|].
      constructor; [done|].
      eapply Forall_impl; [exact Hall|]. intros z Hz. by eapply leb_trans.
    + constructor; [done|].
      rewrite insert_sorted_perm. constructor; [|done].
      destruct (leb_total x y); congruence.
Qed.

Lemma sort_by_sorted l : StronglySorted (fun a b => leb a b = true) (sort_by leb l).
Proof.
  induction l as [|x l IH]; [constructor|].
  unfold sort_by in *. simpl. by apply insert_sorted_sorted.
Qed.
End SortingFacts.

Lemma StronglySorted_take {A} (R : A -> A -> Prop) n (l : list A) :
  StronglySorted R l -> StronglySorted R (take n l).
Proof.
  intros Hs. revert n. induction Hs as [|x l Hs IH Hall]; intros [|n]; simpl;
    try constructor; [apply IH|].
  eapply Forall_forall. intros y Hy. eapply Forall_forall in Hall; [done|].
  eapply elem_of_sublist; [done | apply sublist_take].
Qed.


(** ** The graph store: entities *)

Section EntityFacts.
Import GraphStore.





End EntityFacts.




(** ** The graph store: edges *)

Section EdgeFacts.
Import GraphStore.





Lemma upsert_edge_lookup_miss tbl ctx src dst ty w ev conf cls notes i r :
  tbl !! i = Some r ->
  has_edge_key (app_id ctx) src dst ty r = false ->
  upsert_edge tbl ctx src dst ty w ev conf cls notes !! i = Some r.
Proof.
  intros Hi Hk. unfold upsert_edge.
  destruct (existsb _ tbl).
  - by rewrite list_lookup_fmap, Hi; simpl; rewrite Hk.
  - by apply lookup_app_l_Some.
Qed.

Lemma merge_edge_key app src dst ty w conf ev notes r :
  has_edge_key app src dst ty (merge_edge w conf ev notes r)
    = has_edge_key app src dst ty r.
Proof. reflexivity. Qed.



Lemma upsert_edges_length ctx src dst ty w calls tbl :
  existsb (has_edge_key (app_id ctx) src dst ty) tbl = true ->
  length (upsert_edges ctx src dst ty w tbl calls) = length tbl.
Proof.
  revert tbl. induction calls as [|c calls IH]; intros tbl Hex; [done|].
  simpl. rewrite IH.
  - unfold upsert_edge. rewrite Hex. by rewrite length_map.
  - unfold upsert_edge. rewrite Hex.
    apply existsb_exists in Hex as (r & Hr & Hk).
    apply existsb_exists. exists (merge_edge w (call_confidence c)
      (Some (default [] (call_evidence c))) (call_notes c) r).
    split; [|done]. apply in_map_iff. exists r. by rewrite Hk.
Qed.

End EdgeFacts.






(** ** Python dictionaries *)

Section PyDictFacts.
Context {K V : Type} `{EqDecision K}.
Implicit Types (d : list (K * V)) (k : K) (v : V).

Lemma dict_get_set_eq k v d : dict_get k (dict_set k v d) = Some v.
Proof.
  induction d as [|[k' v'] d IH]; simpl.
  - by rewrite bool_decide_eq_true_2.
  - case_bool_decide as E; simpl.
    + by rewrite bool_decide_eq_true_2.
    + by rewrite bool_decide_eq_false_2.
Qed.

Lemma dict_get_set_ne k k' v d :
  k <> k' -> dict_get k' (dict_set k v d) = dict_get k' d.
Proof.
  intros Hne. induction d as [|[k0 v0] d IH]; simpl.
  - by rewrite bool_decide_eq_false_2.
  - case_bool_decide as E; simpl.
    + subst k0. by rewrite !bool_decide_eq_false_2.
    + by rewrite IH.
Qed.

Lemma dict_set_keys k v d :
  (dict_set k v d).*1 = if bool_decide (k ∈ d.*1) then d.*1 else d.*1 ++ [k].
Proof.
  induction d as [|[k' v'] d IH]; [done|].
  cbn [dict_set]. rewrite fmap_cons. cbn [fst].
  destruct (decide (k' = k)) as [->|E].
  - rewrite !bool_decide_eq_true_2; [done | by left | done].
  - rewrite (bool_decide_eq_false_2 (k' = k)) by done.
    rewrite fmap_cons. cbn [fst]. rewrite IH.
    do 2 case_bool_decide; try done; set_solver.
Qed.

Lemma dict_set_NoDup k v d : NoDup d.*1 -> NoDup (dict_set k v d).*1.
Proof.
  intros Hd. rewrite dict_set_keys. case_bool_decide; [done|].
  apply NoDup_app. split_and!; [done| |apply NoDup_singleton].
  intros x Hx ->%list_elem_of_singleton. done.
Qed.

Lemma dict_get_None k d : dict_get k d = None <-> k ∉ d.*1.
Proof.
  induction d as [|[k' v'] d IH]; simpl.
  - split; [intros _; apply not_elem_of_nil | done].
  - rewrite not_elem_of_cons. case_bool_decide; naive_solver.
Qed.

Lemma dict_get_is_Some k d : is_Some (dict_get k d) <-> k ∈ d.*1.
Proof.
  rewrite <- not_eq_None_Some, dict_get_None.
  destruct (decide (k ∈ d.*1)); naive_solver.
Qed.
End PyDictFacts.

(** ** The maintenance worker *)

Section WorkerFacts.
Import GraphStore Core.

Lemma foldl_map_rows {A B} (f : B -> A -> A) (xs : list B) (tbl : list A) :
  foldl (fun t x => List.map (f x) t) tbl xs
    = List.map (fun r => foldl (fun r x => f x r) r xs) tbl.
Proof.
  revert tbl. induction xs as [|x xs IH]; intros tbl; simpl.
  - by rewrite map_id.
  - rewrite IH, map_map. done.
Qed.

Lemma mention_step_keys st m : NoDup st.1.*1 -> NoDup (mention_step st m).1.*1.
Proof.
  intros Hd. unfold mention_step.
  destruct (strip (default [] (m_entity_id m))); [done|].
  simpl. by apply dict_set_NoDup.
Qed.

Lemma collect_from_keys ms st :
  NoDup st.1.*1 -> NoDup (foldl mention_step st ms).1.*1.
Proof.
  revert st. induction ms as [|m ms IH]; intros st Hd; [done|].
  simpl. apply IH. by apply mention_step_keys.
Qed.

Lemma mention_step_get st m eid :
  eid <> [] ->
  dict_get eid (mention_step st m).1 =
    if bool_decide (mention_eid m = eid)
    then Some (default 0 (dict_get eid st.1) + mention_cnt m)
    else dict_get eid st.1.
Proof.
  intros Hne. unfold mention_step, mention_eid, mention_cnt.
  destruct (strip (default [] (m_entity_id m))) as [|c s] eqn:E.
  - by rewrite bool_decide_eq_false_2.
  - simpl. case_bool_decide as Heq.
    + rewrite Heq. by rewrite dict_get_set_eq.
    + by rewrite dict_get_set_ne.
Qed.

Lemma collect_from_get ms st eid :
  eid <> [] ->
  dict_get eid (foldl mention_step st ms).1 =
    match dict_get eid st.1 with
    | Some d => Some (d + mention_total eid ms)
    | None => if mentioned eid ms then Some (mention_total eid ms) else None
    end.
Proof.
  intros Hne. unfold mentioned.
  assert (nonempty eid = true) as -> by (by destruct eid).
  revert st. induction ms as [|m ms IH]; intros st; simpl.
  - destruct (dict_get eid st.1); [f_equal; lia | done].
  - rewrite IH, mention_step_get by done.
    case_bool_decide as Heq; simpl.
    + destruct (dict_get eid st.1); simpl; f_equal; lia.
    + done.
Qed.

Lemma collect_mentions_get ms eid :
  dict_get eid (collect_mentions ms).1 =
    if mentioned eid ms then Some (mention_total eid ms) else None.
Proof.
  destruct eid as [|c s] eqn:E.
  - transitivity (@None Z); [|done].
    apply dict_get_None. unfold collect_mentions.
    assert (forall st, [] ∉ st.1.*1 -> [] ∉ (foldl mention_step st ms).1.*1) as H.
    { induction ms as [|m ms IH]; intros st Hst; [done|]. simpl. apply IH.
      unfold mention_step.
      destruct (strip (default [] (m_entity_id m))) eqn:E'; [done|].
      simpl. rewrite dict_set_keys. case_bool_decide; [done|].
      rewrite elem_of_app, list_elem_of_singleton. naive_solver. }
    apply H. apply not_elem_of_nil.
  - unfold collect_mentions. by rewrite collect_from_get.
Qed.

Lemma decrements_rowwise gctx dec_map tbl :
  foldl (fun tbl ed => decrement_entity_occurrence tbl gctx ed.1 ed.2) tbl dec_map
    = List.map (dec_row gctx dec_map) tbl.
Proof.
  unfold decrement_entity_occurrence, dec_row.
  apply (foldl_map_rows
           (fun ed r =>
              if bool_decide (ent_app_id r = app_id gctx /\ entity_id r = ed.1)
              then set_occurrence (Z.max (occurrence_count r - ed.2) 0) r
              else r)).
Qed.

Lemma dec_row_untouched gctx dec_map r :
  ent_app_id r <> app_id gctx \/ entity_id r ∉ dec_map.*1 ->
  dec_row gctx dec_map r = r.
Proof.
  unfold dec_row. induction dec_map as [|[k v] d IH]; intros H; [done|].
  simpl. rewrite bool_decide_eq_false_2.
  - apply IH. destruct H as [H|H]; [by left|right]. set_solver.
  - intros [? ?]. destruct H as [H|H]; [done|]. set_solver.
Qed.

Lemma dec_row_spec gctx dec_map r :
  NoDup dec_map.*1 ->
  dec_row gctx dec_map r =
    match (if bool_decide (ent_app_id r = app_id gctx)
           then dict_get (entity_id r) dec_map else None) with
    | Some dec => set_occurrence (Z.max (occurrence_count r - dec) 0) r
    | None => r
    end.
Proof.
  intros Hnd. case_bool_decide as Happ.
  2:{ by rewrite dec_row_untouched by (by left). }
  induction dec_map as [|[k v] d IH]; [done|].
  rewrite fmap_cons in Hnd. apply NoDup_cons in Hnd as [Hk Hnd].
  unfold dec_row. cbn [foldl dict_get fst snd].
  destruct (decide (k = entity_id r)) as [->|E].
  - rewrite !bool_decide_eq_true_2 by done.
    apply dec_row_untouched. by right.
  - rewrite (bool_decide_eq_false_2 (_ /\ _)) by naive_solver.
    rewrite (bool_decide_eq_false_2 (k = _)) by done.
    by apply IH.
Qed.
End WorkerFacts.

(** C6.  Processing one job leaves the [entity] table with the same
    rows in the same places.  A row of the tenant whose id the payload
    mentions has its occurrence count lowered by the sum of the recorded
    mention counts, floored at zero, hence non-negative; it is
    deactivated exactly when that count has reached zero.  Every other
    row is left as it was, so it keeps its [is_active] flag. *)
Theorem process_job_floors_and_deactivates
    (gctx : GraphStore.RlsContext) (now : Z) (db : Core.GraphDb)
    (job : GraphStore.Job) :
  let mentions :=
    match GraphStore.payload job with
    | Some p => default [] (GraphStore.p_mentions p)
    | None => []
    end in
  let db' := Core.process_job gctx now db job in
  length (Core.entities db') = length (Core.entities db)
  /\ forall i r,
       Core.entities db !! i = Some r ->
       exists r',
         Core.entities db' !! i = Some r'
         /\ GraphStore.entity_id r' = GraphStore.entity_id r
         /\ GraphStore.ent_app_id r' = GraphStore.ent_app_id r
         /\ if (bool_decide (GraphStore.ent_app_id r = GraphStore.app_id gctx)
                && mentioned (GraphStore.entity_id r) mentions)%bool
            then GraphStore.occurrence_count r'
                   = Z.max (GraphStore.occurrence_count r
                            - mention_total (GraphStore.entity_id r) mentions) 0
                 /\ 0 <= GraphStore.occurrence_count r'
                 /\ GraphStore.is_active r'
                      = (if GraphStore.occurrence_count r' =? 0 then false
                         else GraphStore.is_active r)
            else r' = r.
Proof.
  intros mentions db'. subst db'. unfold Core.process_job. simpl.
  fold mentions. rewrite decrements_rowwise.
  set (dec_map := (Core.collect_mentions mentions).1).
  assert (Hnd : NoDup dec_map.*1).
  { apply collect_from_keys. simpl. constructor. }
  assert (Hlen : forall tbl ids,
             length (GraphStore.deactivate_entities_with_zero_occurrence tbl gctx ids)
               = length tbl).
  { intros tbl [|? ?]; simpl; [done | by rewrite length_map]. }
  split; [by rewrite Hlen, length_map|].
  intros i r Hi.
  assert (Hrow : List.map (dec_row gctx dec_map) (Core.entities db) !! i
                 = Some (dec_row gctx dec_map r)).
  { by rewrite list_lookup_fmap, Hi. }
  rewrite dec_row_spec in Hrow by done.
  subst dec_map. rewrite collect_mentions_get in Hrow.
  set (dec_map := (Core.collect_mentions mentions).1) in *.
  destruct (bool_decide (GraphStore.ent_app_id r = GraphStore.app_id gctx)) eqn:Happ;
    simpl in *.
  2:{ exists r. split_and!; try done.
      unfold GraphStore.deactivate_entities_with_zero_occurrence.
      destruct (dec_map.*1); [done|].
      rewrite list_lookup_fmap, Hrow. simpl. by rewrite Happ. }
  destruct (mentioned (GraphStore.entity_id r) mentions) eqn:Hm.
  - assert (Hin : GraphStore.entity_id r ∈ dec_map.*1).
    { apply dict_get_is_Some. subst dec_map.
      rewrite collect_mentions_get, Hm. by eexists. }
    unfold GraphStore.deactivate_entities_with_zero_occurrence.
    destruct (dec_map.*1) as [|k ks] eqn:Hks; [by apply elem_of_nil in Hin|].
    rewrite list_lookup_fmap, Hrow. simpl. rewrite Happ.
    rewrite (bool_decide_eq_true_2 _ Hin). simpl.
    set (n := Z.max _ 0).
    destruct (n <=? 0) eqn:Hn; eexists; (split; [reflexivity|]); simpl;
      split_and!; try done; try lia.
    + assert (n = 0) as -> by lia. done.
    + destruct (n =? 0) eqn:Hz; [lia | done].
  - exists r. split_and!; try done.
    unfold GraphStore.deactivate_entities_with_zero_occurrence.
    destruct (dec_map.*1) as [|k ks] eqn:Hks; [done|].
    rewrite list_lookup_fmap, Hrow. simpl. rewrite Happ.
    rewrite bool_decide_eq_false_2; [done|].
    rewrite <- Hks. intros Hin%dict_get_is_Some. subst dec_map.
    rewrite collect_mentions_get, Hm in Hin. by destruct Hin.
Qed.


(** ** The chunk store: nearest-neighbour search *)

Section SearchFacts.
Import RagStore.
Variable distance : vector -> vector -> Q.
Variable visible : RlsContext -> Chunk -> bool.





End SearchFacts.




(** ** The union of the graph path and the vector path *)

Section UnionFacts.
Import Core.
Implicit Types (h : Hit) (l : list Hit) (seen : gset str).

Lemma union_fold l acc seen :
  foldl union_step (acc, seen) l
    = (acc ++ union_from seen l, id_set (union_from seen l) ∪ seen).
Proof.
  revert acc seen. induction l as [|h l IH]; intros acc seen; simpl.
  - rewrite app_nil_r. f_equal. set_solver.
  - unfold union_step at 2. simpl.
    destruct (chunk_id h) as [[|c cs]|] eqn:Hid; try apply IH.
    case_bool_decide; [apply IH|].
    rewrite IH, <- app_assoc. simpl. rewrite Hid. f_equal. set_solver.
Qed.

Lemma union_hits_from graph vector :
  union_hits graph vector = union_from ∅ (graph ++ vector).
Proof. unfold union_hits. by rewrite union_fold. Qed.

Lemma elem_of_id_set l (k : str) :
  k ∈ id_set l <-> exists h, h ∈ l /\ chunk_id h = Some k /\ k <> [].
Proof.
  induction l as [|x l IH]; simpl.
  - split; [set_solver|]. intros (h & ?%elem_of_nil & _). done.
  - destruct (chunk_id x) as [[|c cs]|] eqn:Hx.
    + rewrite IH. split; intros (h & Hh & Hk & Hne); exists h.
      * split_and!; [by right|done|done].
      * apply elem_of_cons in Hh as [->|?]; [congruence|done].
    + rewrite elem_of_union, elem_of_singleton, IH. split.
      * intros [->|(h & ? & ? & ?)]; [exists x | exists h]; split_and!;
          try done; [by left | by right].
      * intros (h & Hh & Hk & Hne).
        apply elem_of_cons in Hh as [->|?]; [left; congruence | right; eauto].
    + rewrite IH. split; intros (h & Hh & Hk & Hne); exists h.
      * split_and!; [by right|done|done].
      * apply elem_of_cons in Hh as [->|?]; [congruence|done].
Qed.

Lemma union_from_app seen l1 l2 :
  union_from seen (l1 ++ l2)
    = union_from seen l1 ++ union_from (id_set l1 ∪ seen) l2.
Proof.
  revert seen. induction l1 as [|h l1 IH]; intros seen; simpl.
  - f_equal. set_solver.
  - destruct (chunk_id h) as [[|c cs]|] eqn:Hid; try apply IH.
    case_bool_decide as Hin.
    + rewrite IH. do 2 f_equal. set_solver.
    + rewrite IH. simpl. do 3 f_equal. set_solver.
Qed.

Lemma union_from_sublist seen l : union_from seen l `sublist_of` l.
Proof.
  revert seen. induction l as [|h l IH]; intros seen; simpl; [done|].
  destruct (chunk_id h) as [[|c cs]|]; try (by apply sublist_cons).
  case_bool_decide; [by apply sublist_cons | by apply sublist_skip].
Qed.

Lemma elem_of_union_from seen l h :
  h ∈ union_from seen l ->
  h ∈ l /\ exists c cs, chunk_id h = Some (c :: cs) /\ (c :: cs) ∉ seen.
Proof.
  revert seen. induction l as [|x l IH]; intros seen; simpl.
  - by intros ?%elem_of_nil.
  - destruct (chunk_id x) as [[|c cs]|] eqn:Hx;
      try (intros (? & ?)%IH; split; [by right | done]).
    case_bool_decide as Hin.
    + intros (? & ?)%IH; split; [by right | done].
    + intros [->|(? & c' & cs' & ? & Hn)%IH]%elem_of_cons.
      * split; [by left | eauto].
      * split; [by right|]. exists c', cs'. split; [done|]. set_solver.
Qed.

Lemma union_from_NoDup seen l : NoDup (chunk_id <$> union_from seen l).
Proof.
  revert seen. induction l as [|x l IH]; intros seen; simpl; [constructor|].
  destruct (chunk_id x) as [[|c cs]|] eqn:Hx; try apply IH.
  case_bool_decide as Hin; [apply IH|].
  rewrite fmap_cons, Hx. constructor; [|apply IH].
  intros (h & Hh & (_ & c' & cs' & Hid & Hn)%elem_of_union_from)%list_elem_of_fmap.
  rewrite Hid in Hh. set_solver.
Qed.

Lemma union_from_first seen l h :
  h ∈ union_from seen l -> first_with_id h l = Some h.
Proof.
  unfold first_with_id.
  revert seen. induction l as [|x l IH]; intros seen; simpl.
  - by intros ?%elem_of_nil.
  - destruct (chunk_id x) as [[|c cs]|] eqn:Hx.
    + intros Hh. pose proof Hh as (_ & c' & cs' & Hid & _)%elem_of_union_from.
      rewrite bool_decide_eq_false_2 by congruence. by eapply IH.
    + case_bool_decide as Hin.
      * intros Hh. pose proof Hh as (_ & c' & cs' & Hid & Hn)%elem_of_union_from.
        rewrite bool_decide_eq_false_2; [by eapply IH|].
        rewrite Hid. intros [= -> ->]. done.
      * intros [->|Hh]%elem_of_cons.
        { by rewrite bool_decide_eq_true_2. }
        pose proof Hh as (_ & c' & cs' & Hid & Hn)%elem_of_union_from.
        rewrite bool_decide_eq_false_2; [by eapply IH|].
        rewrite Hid. intros [= -> ->]. set_solver.
    + intros Hh. pose proof Hh as (_ & c' & cs' & Hid & _)%elem_of_union_from.
      rewrite bool_decide_eq_false_2 by congruence. by eapply IH.
Qed.

Lemma union_from_complete seen l h :
  h ∈ l -> truthy (chunk_id h) = true ->
  default [] (chunk_id h) ∉ seen ->
  chunk_id h ∈ chunk_id <$> union_from seen l.
Proof.
  revert seen. induction l as [|x l IH]; intros seen; simpl.
  - by intros ?%elem_of_nil.
  - intros [->|Hh]%elem_of_cons Ht Hn.
    + destruct (chunk_id x) as [[|c cs]|] eqn:Hx; try done.
      simpl in Hn. rewrite bool_decide_eq_false_2 by done.
      rewrite fmap_cons, Hx. by left.
    + destruct (chunk_id x) as [[|c cs]|] eqn:Hx; try (by apply IH).
      case_bool_decide as Hin; [by apply IH|].
      rewrite fmap_cons, Hx.
      destruct (decide (chunk_id h = Some (c :: cs))) as [->|Hne]; [by left|].
      right. apply IH; try done.
      destruct (chunk_id h) as [[|c' cs']|]; try done. simpl in *. set_solver.
Qed.

Lemma truncate_hits_take (recall_k : Z) l :
  0 < recall_k -> truncate_hits recall_k l = take (Z.to_nat recall_k) l.
Proof.
  intros Hk. unfold truncate_hits, slice_to.
  destruct (recall_k =? 0) eqn:E0; [lia|]. simpl.
  destruct (recall_k <? Z.of_nat (length l)) eqn:E.
  - destruct (0 <=? recall_k) eqn:E1; [done | lia].
  - rewrite take_ge; [done | lia].
Qed.
End UnionFacts.

(** C3.  The union step keeps the candidates in first-seen order, every
    kept graph-path candidate before every kept vector-path candidate; no
    chunk id occurs twice, the candidate kept for an id is its first
    occurrence in [graph ++ vector] (so the graph-path one when both
    paths found the chunk), every chunk id of the input is still there,
    and the result is cut to its first [recall_k] entries. *)
Theorem union_is_first_seen_and_graph_first
    (graph vector : list Hit) (recall_k : Z) :
  0 < recall_k ->
  let u := Core.union_hits graph vector in
  let out := Core.truncate_hits recall_k u in
  (exists gs vs,
      u = gs ++ vs /\ gs `sublist_of` graph /\ vs `sublist_of` vector
      /\ forall v g, v ∈ vs -> g ∈ graph -> chunk_id g <> chunk_id v)
  /\ NoDup (chunk_id <$> u)
  /\ (forall h, h ∈ u ->
        truthy (chunk_id h) = true /\ first_with_id h (graph ++ vector) = Some h)
  /\ (forall h, h ∈ graph ++ vector -> truthy (chunk_id h) = true ->
        chunk_id h ∈ chunk_id <$> u)
  /\ out = take (Z.to_nat recall_k) u
  /\ Z.of_nat (length out) <= recall_k.
Proof.
  intros Hk u out. subst out u. rewrite union_hits_from.
  split_and!.
  - rewrite union_from_app. eexists _, _. split; [reflexivity|].
    split; [apply union_from_sublist|]. split; [apply union_from_sublist|].
    intros v g (_ & c & cs & Hid & Hn)%elem_of_union_from Hg Heq.
    apply Hn. apply elem_of_union_l. apply elem_of_id_set.
    exists g. rewrite Heq. done.
  - apply union_from_NoDup.
  - intros h Hh. split; [|by eapply union_from_first].
    apply elem_of_union_from in Hh as (_ & c & cs & -> & _). done.
  - intros h Hh Ht. by apply union_from_complete.
  - by apply truncate_hits_take.
  - rewrite truncate_hits_take by done. rewrite length_take. lia.
Qed.

Lemma union_is_first_seen_and_graph_first_witness :
  0 < RERANK_CANDIDATES default_config
  /\ Core.truncate_hits (RERANK_CANDIDATES default_config)
       (Core.union_hits sample_graph_hits sample_vector_hits)
     = [hit_of_text (lit "c1") (lit "graph 1"); hit_of_text (lit "c2") (lit "graph 2");
        hit_of_text (lit "c3") (lit "vector 3")].
Proof.
  assert (H : 0 < RERANK_CANDIDATES default_config) by reflexivity.
  split; [exact H|].
  rewrite (proj1 (proj2 (proj2 (proj2 (proj2
             (union_is_first_seen_and_graph_first sample_graph_hits
                sample_vector_hits (RERANK_CANDIDATES default_config) H)))))).
  vm_compute. reflexivity.
Defined.

(** ** Python strings *)

Section StringFacts.
Implicit Types (s t : str) (c : N).

Lemma header_char_plain c :
  header_char c ->
  isspace c = false /\ is_linebreak c = false /\ c <> 93%N /\ c <> 61%N
  /\ c <> 10%N.
Proof.
  intros Hc. split_and!; try (destruct Hc as [->|[?| ->]]; lia).
  - apply not_true_is_false. intros H. unfold isspace, in_range in H.
    rewrite !orb_true_iff, !andb_true_iff, !N.leb_le, !N.eqb_eq in H.
    unfold header_char in Hc. lia.
  - apply not_true_is_false. intros H. unfold is_linebreak, in_range in H.
    rewrite !orb_true_iff, !andb_true_iff, !N.leb_le, !N.eqb_eq in H.
    unfold header_char in Hc. lia.
Qed.

Lemma splitlines_nonempty s : s <> [] -> splitlines s <> [].
Proof.
  destruct s as [|c s]; [done|]. intros _. simpl.
  destruct (is_linebreak c); [done|]. by destruct (splitlines s).
Qed.

(** The first line of a text whose first line break is a line feed. *)
Lemma splitlines_first a s :
  Forall (fun c => is_linebreak c = false) a ->
  hd [] (splitlines (a ++ 10%N :: s)) = a.
Proof.
  induction 1 as [|c a Hc Ha IH]; [done|].
  simpl. rewrite Hc.
  destruct (splitlines (a ++ 10%N :: s)) as [|l ls] eqn:E.
  - by destruct (splitlines_nonempty (a ++ 10%N :: s)); [destruct a|].
  - simpl in *. by rewrite IH.
Qed.

Lemma drop_while_head p c s : p c = false -> drop_while p (c :: s) = c :: s.
Proof. intros H. simpl. by rewrite H. Qed.

Lemma lstrip_head c s : isspace c = false -> lstrip (c :: s) = c :: s.
Proof. apply drop_while_head. Qed.

Lemma rstrip_last s c : isspace c = false -> rstrip (s ++ [c]) = s ++ [c].
Proof.
  intros H. unfold rstrip. rewrite rev_app_distr. simpl. rewrite H.
  change (c :: rev s) with (rev [c] ++ rev s).
  by rewrite <- rev_app_distr, rev_involutive.
Qed.

Lemma rstrip_chars_last chars s c t :
  c ∉ chars -> Forall (fun x => x ∈ chars) t ->
  rstrip_chars chars (s ++ [c] ++ t) = s ++ [c].
Proof.
  intros Hc Ht. unfold rstrip_chars. rewrite app_assoc, (rev_app_distr _ t).
  assert (forall u, drop_while (fun c0 => bool_decide (c0 ∈ chars)) (rev t ++ u)
                    = drop_while (fun c0 => bool_decide (c0 ∈ chars)) u) as ->.
  { intros u. apply List.Forall_rev in Ht. induction Ht as [|x r Hx _ IH]; [done|].
    simpl. by rewrite bool_decide_eq_true_2. }
  rewrite rev_app_distr. simpl. rewrite bool_decide_eq_false_2 by done.
  change (c :: rev s) with (rev [c] ++ rev s).
  by rewrite <- rev_app_distr, rev_involutive.
Qed.

(** A string that starts and ends with a non-space character is its own
    [strip]. *)
Lemma strip_plain c s d :
  isspace c = false -> isspace d = false ->
  strip (c :: s ++ [d]) = c :: s ++ [d].
Proof.
  intros Hc Hd. unfold strip.
  change (c :: s ++ [d]) with ((c :: s) ++ [d]).
  rewrite rstrip_last by done. by apply lstrip_head.
Qed.

Lemma strip_single c : isspace c = false -> strip [c] = [c].
Proof.
  intros Hc. unfold strip. change [c] with ([] ++ [c]).
  rewrite (rstrip_last [] c Hc). by apply lstrip_head.
Qed.

Lemma strip_no_space s :
  Forall (fun c => isspace c = false) s -> strip s = s.
Proof.
  intros Hs. destruct s as [|c s]; [done|].
  destruct (decide (s = [])) as [->|Hne].
  - apply strip_single. by inv Hs.
  - destruct (exists_last Hne) as (s' & d & ->).
    inv Hs. apply strip_plain; [done|].
    rewrite Forall_app, Forall_singleton in *. naive_solver.
Qed.

Lemma fields_no_sep p s :
  Forall (fun c => p c = false) s -> fields p s = [s].
Proof.
  induction 1 as [|c s Hc _ IH]; [done|]. simpl. by rewrite Hc, IH.
Qed.

Lemma fields_sep p a c s :
  Forall (fun c => p c = false) a -> p c = true ->
  fields p (a ++ c :: s) = a :: fields p s.
Proof.
  intros Ha Hc. induction Ha as [|x a Hx _ IH]; simpl.
  - by rewrite Hc.
  - by rewrite Hx, IH.
Qed.

Lemma split_once_found c a s :
  Forall (fun x => x <> c) a -> split_once c (a ++ c :: s) = Some (a, s).
Proof.
  induction 1 as [|x a Hx _ IH]; simpl.
  - by rewrite N.eqb_refl.
  - apply N.eqb_neq in Hx. by rewrite Hx, IH.
Qed.

Lemma replace_char_absent a b s :
  Forall (fun x => x <> a) s -> replace_char a b s = s.
Proof.
  unfold replace_char. induction 1 as [|x s Hx _ IH]; [done|].
  simpl. apply N.eqb_neq in Hx. by rewrite Hx, IH.
Qed.

(** *** Decimal numbers *)

Lemma uint_chars_digits u :
  Forall (fun c => (48 <= c <= 57)%N) (uint_chars u).
Proof. induction u; simpl; constructor; (lia || done). Qed.

Lemma str_of_int_chars z : Forall header_char (str_of_int z).
Proof.
  unfold str_of_int.
  assert (forall u, Forall header_char (uint_chars u)) as H.
  { intros u. eapply Forall_impl; [apply uint_chars_digits|].
    intros c Hc. right. by left. }
  destruct (Z.to_int z); [apply H|]. constructor; [by left | apply H].
Qed.

Lemma uint_chars_nonnil u : u <> Decimal.Nil -> uint_chars u <> [].
Proof. by destruct u. Qed.

Lemma to_int_nonnil z :
  match Z.to_int z with
  | Decimal.Pos u | Decimal.Neg u => u <> Decimal.Nil
  end.
Proof.
  destruct z; simpl; [done| |]; apply DecimalPos.Unsigned.to_uint_nonnil.
Qed.

Lemma str_of_int_nonempty z : str_of_int z <> [].
Proof.
  unfold str_of_int. pose proof (to_int_nonnil z) as H.
  destruct (Z.to_int z); [by apply uint_chars_nonnil | done].
Qed.

Lemma parse_digits_uint u b :
  u <> Decimal.Nil \/ b = true -> parse_digits b (uint_chars u) = Some u.
Proof.
  revert b. induction u; intros b Hb; simpl;
    try (rewrite IHu by (by right); done).
  destruct Hb as [?| ->]; done.
Qed.


Lemma int_of_str_of_int z : int_of_str (str_of_int z) = Some z.
Proof.
  unfold int_of_str.
  rewrite strip_no_space.
  2:{ eapply Forall_impl; [apply str_of_int_chars|].
      intros c Hc. by apply header_char_plain. }
  rewrite <- (DecimalZ.of_to z) at 2.
  unfold str_of_int. pose proof (to_int_nonnil z) as Hn.
  destruct (Z.to_int z) as [u|u].
  - pose proof (uint_chars_digits u) as Hd.
    pose proof (parse_digits_uint u false (or_introl Hn)) as Hp.
    destruct (uint_chars u) as [|c ds] eqn:E; [by destruct u|].
    inv Hd.
    assert (N.eqb c 45 = false) as -> by (apply N.eqb_neq; lia).
    assert (N.eqb c 43 = false) as -> by (apply N.eqb_neq; lia).
    by rewrite Hp.
  - simpl. by rewrite parse_digits_uint by (by left).
Qed.
End StringFacts.

(** ** Header lines *)

Section HeaderFacts.
Import ChunkFunc.
Implicit Types (s t ty pg raw : str) (c : N).

Lemma header_char_token c : header_char c -> token_char c.
Proof. intros H. apply header_char_plain in H. unfold token_char. naive_solver. Qed.

Lemma isspace_linebreak c : isspace c = false -> is_linebreak c = false.
Proof.
  intros H. apply not_true_is_false. intros Hl. apply not_true_iff_false in H.
  apply H. unfold isspace, is_linebreak, in_range in *.
  rewrite !orb_true_iff, !andb_true_iff, !N.leb_le, !N.eqb_eq in *. lia.
Qed.

Lemma token_no_space s : Forall token_char s -> Forall (fun c => isspace c = false) s.
Proof. intros H. eapply Forall_impl; [exact H|]. by intros c (? & _). Qed.

Lemma token_no_break s : Forall token_char s -> Forall (fun c => is_linebreak c = false) s.
Proof.
  intros H. eapply Forall_impl; [exact H|]. intros c (? & _).
  by apply isspace_linebreak.
Qed.

Lemma token_no_eq s : Forall token_char s -> Forall (fun c => c <> 61%N) s.
Proof. intros H. eapply Forall_impl; [exact H|]. by intros c (_ & ? & _). Qed.

Lemma startswith_app p s : startswith (p ++ s) p = true.
Proof. induction p as [|c p IH]; [by destruct s|]. simpl. by rewrite N.eqb_refl. Qed.

Lemma endswith_app s p : endswith (s ++ p) p = true.
Proof. unfold endswith. rewrite rev_app_distr. apply startswith_app. Qed.

Lemma add_token_kv meta k v :
  Forall (fun c => c <> 61%N) k ->
  add_token meta (k ++ 61%N :: v) = <[strip k := VStr (strip v)]> meta.
Proof.
  intros Hk. unfold add_token, contains_char.
  rewrite bool_decide_eq_true_2 by (apply elem_of_app; right; by left).
  by rewrite split_once_found.
Qed.

Ltac concrete_forall := apply (bool_decide_unpack _); by vm_compute.

(** The dictionary read from a chunk whose first line is a header with a
    type and a page. *)
Lemma parse_header_line cfg ty pg raw :
  META_PREFIX cfg = lit "[[META" ->
  ty <> [] -> pg <> [] -> Forall token_char ty -> Forall token_char pg ->
  parse_meta_header cfg (header_line ty pg ++ 10%N :: raw)
    = page_to_int (<[lit "page" := VStr pg]> (<[lit "type" := VStr ty]> ∅)).
Proof.
  intros Hp Hty Hpg Fty Fpg. unfold parse_meta_header. rewrite Hp.
  assert (Hline : Forall (fun c => is_linebreak c = false) (header_line ty pg)).
  { unfold header_line. rewrite !Forall_app. split_and!;
      try (by apply token_no_break); concrete_forall. }
  rewrite splitlines_first by done.
  destruct (exists_last Hpg) as (pg' & d & ->).
  assert (Hd : token_char d).
  { rewrite Forall_app, Forall_singleton in Fpg. tauto. }
  assert (Hstrip : strip (header_line ty (pg' ++ [d])) = header_line ty (pg' ++ [d])).
  { unfold header_line.
    replace (lit "[[META type=" ++ ty ++ lit " page=" ++ (pg' ++ [d]) ++ lit "]]")
      with (91%N :: (List.tl (lit "[[META type=") ++ ty ++ lit " page="
                       ++ (pg' ++ [d]) ++ [93%N]) ++ [93%N])
      by (rewrite <- !app_assoc; reflexivity).
    by apply strip_plain. }
  rewrite Hstrip.
  replace (header_line ty (pg' ++ [d]) ++ 10%N :: raw)
    with (91%N :: (List.tl (header_line ty (pg' ++ [d])) ++ 10%N :: raw))
    by reflexivity.
  cbv iota.
  assert (startswith (header_line ty (pg' ++ [d])) (lit "[[META") = true) as ->
    by reflexivity.
  assert (endswith (header_line ty (pg' ++ [d])) (lit "]]") = true) as ->.
  { unfold header_line. rewrite !app_assoc. apply endswith_app. }
  cbv iota. simpl andb. cbv iota.
  assert (drop (length (lit "[[META")) (header_line ty (pg' ++ [d]))
          = (lit " type=" ++ ty ++ lit " page=" ++ pg') ++ [d] ++ lit "]]") as ->.
  { unfold header_line. rewrite <- !app_assoc. reflexivity. }
  rewrite rstrip_chars_last.
  2:{ destruct Hd as (_ & _ & Hd). vm_compute lit.
      rewrite !elem_of_cons, elem_of_nil. naive_solver. }
  2:{ concrete_forall. }
  set (inside := (lit " type=" ++ ty ++ lit " page=" ++ pg') ++ [d]).
  assert (strip inside = (lit "type=" ++ ty) ++ 32%N :: (lit "page=" ++ pg' ++ [d])) as ->.
  { subst inside. unfold strip. rewrite rstrip_last by apply Hd.
    rewrite <- !app_assoc. reflexivity. }
  unfold split_ws.
  rewrite fields_sep; [| |reflexivity].
  2:{ apply Forall_app. split; [concrete_forall | by apply token_no_space]. }
  rewrite fields_no_sep.
  2:{ apply Forall_app. split; [concrete_forall | by apply token_no_space]. }
  change (List.filter nonempty _)
    with [lit "type" ++ 61%N :: ty; lit "page" ++ 61%N :: (pg' ++ [d])].
  cbn [foldl].
  rewrite !add_token_kv by concrete_forall.
  rewrite !(strip_no_space ty), !(strip_no_space (pg' ++ [d])) by (by apply token_no_space).
  reflexivity.
Qed.
End HeaderFacts.

(** ** Headers written by the chunk builder *)

Section BuilderFacts.
Import ChunkFunc.
Implicit Types (s t ty pg raw : str) (c : N) (p : Z).

Ltac concrete_forall := apply (bool_decide_unpack _); by vm_compute.












End BuilderFacts.



(** ** The merge pass *)

Section MergeFacts.
Import ChunkFunc.
Implicit Types (h : Hit) (hits : list Hit) (k : str).

Lemma group_snoc cfg k hits h :
  group cfg k (hits ++ [h])
    = group cfg k hits ++ (if bool_decide (hit_key cfg h = k) then [h] else []).
Proof. unfold group. rewrite List.filter_app. simpl. by destruct (bool_decide _). Qed.

Lemma group_nonempty cfg k hits :
  k ∈ hit_key cfg <$> hits -> group cfg k hits <> [].
Proof.
  intros (h & -> & Hh)%list_elem_of_fmap.
  intros Hg. assert (Hin : In h (group cfg (hit_key cfg h) hits)).
  { apply filter_In. split; [by apply list_elem_of_In|]. by apply bool_decide_eq_true. }
  by rewrite Hg in Hin.
Qed.

Lemma group_empty cfg k hits :
  k ∉ hit_key cfg <$> hits -> group cfg k hits = [].
Proof.
  intros Hk. unfold group. induction hits as [|h hits IH]; [done|].
  simpl. rewrite fmap_cons, not_elem_of_cons in Hk. destruct Hk as [Hne Hk].
  rewrite bool_decide_eq_false_2 by done. by apply IH.
Qed.

Lemma merged_record_snoc cfg members h :
  members <> [] ->
  merged_record cfg (members ++ [h]) = (fun cur => absorb cfg cur h) <$> merged_record cfg members.
Proof.
  destruct members as [|first later]; [done|]. intros _. simpl.
  by rewrite foldl_app.
Qed.

(** The loop state after the hits [hits]. *)
Lemma merge_state_spec cfg hits :
  foldl (merge_step cfg) [] hits
    = omap (fun k => pair k <$> merged_record cfg (group cfg k hits))
           (first_seen (hit_key cfg <$> hits)).
Proof.
  induction hits as [|h hits IH] using rev_ind; [done|].
  rewrite foldl_app. cbn [foldl]. rewrite IH. clear IH.
  set (ks := first_seen (hit_key cfg <$> hits)).
  set (k0 := hit_key cfg h).
  assert (Hkeys : forall l : list str,
             (omap (fun k => pair k <$> merged_record cfg (group cfg k hits)) l).*1
               = List.filter (fun k => bool_decide (k ∈ hit_key cfg <$> hits)) l).
  { induction l as [|k l IHl]; [done|]. cbn [omap list_omap List.filter].
    case_bool_decide as Hk.
    - pose proof (group_nonempty _ _ _ Hk) as Hg.
      destruct (group cfg k hits) as [|m ms] eqn:Eg; [done|].
      cbn [merged_record fmap option_fmap option_map]. rewrite fmap_cons. cbn [fst].
      by rewrite IHl.
    - rewrite group_empty by done. cbn [merged_record fmap option_fmap option_map].
      exact IHl. }
  assert (Hks : forall k, k ∈ ks <-> k ∈ hit_key cfg <$> hits).
  { intros k. apply elem_of_first_seen. }
  unfold merge_step. fold k0. rewrite Hkeys.
  assert (List.filter (fun k => bool_decide (k ∈ hit_key cfg <$> hits)) ks = ks) as ->.
  { apply forallb_filter_id. apply forallb_forall. intros k Hk.
    apply bool_decide_eq_true. apply Hks. by apply list_elem_of_In. }
  rewrite fmap_app. change (hit_key cfg <$> [h]) with [k0].
  rewrite first_seen_snoc. fold ks.
  replace (bool_decide (k0 ∈ hit_key cfg <$> hits)) with (bool_decide (k0 ∈ ks))
    by (apply bool_decide_ext; apply Hks).
  case_bool_decide as Hin.
  - unfold merge_into.
    change (List.map ?f ?l) with (f <$> l).
    rewrite list_fmap_omap. apply list_omap_ext.
    apply Forall_Forall2_diag, Forall_forall. intros k Hk.
    rewrite group_snoc. fold k0.
    destruct (decide (k0 = k)) as [<-|Hne].
    + rewrite bool_decide_eq_true_2 by done.
      rewrite merged_record_snoc by (apply group_nonempty; by apply Hks).
      destruct (merged_record cfg (group cfg k0 hits)) as [cur|]; [|done].
      cbn [fmap option_fmap option_map fst snd].
      by rewrite bool_decide_eq_true_2.
    + rewrite (bool_decide_eq_false_2 (k0 = k)), app_nil_r by done.
      destruct (merged_record cfg (group cfg k hits)) as [cur|]; [|done].
      cbn [fmap option_fmap option_map fst snd].
      by rewrite bool_decide_eq_false_2.
  - rewrite omap_app. f_equal.
    + apply list_omap_ext. apply Forall_Forall2_diag, Forall_forall. intros k Hk.
      rewrite group_snoc. fold k0.
      rewrite (bool_decide_eq_false_2 (k0 = k)) by (by intros <-).
      by rewrite app_nil_r.
    + cbn [omap list_omap]. rewrite group_snoc. fold k0.
      rewrite group_empty by (by rewrite <- Hks).
      by rewrite bool_decide_eq_true_2.
Qed.

Lemma merge_hits_spec cfg hits :
  merge_hits_by_page_or_caption cfg hits = spec_merge cfg hits.
Proof.
  unfold merge_hits_by_page_or_caption, spec_merge.
  destruct hits as [|h hits]; [done|].
  rewrite merge_state_spec.
  change (List.map ?f ?l) with (f <$> l).
  rewrite list_fmap_omap. apply list_omap_ext.
  apply Forall_Forall2_diag, Forall_forall. intros k _.
  by destruct (merged_record cfg (group cfg k (h :: hits))).
Qed.




End MergeFacts.



(** ** The retrieval pipeline *)

Section PipelineFacts.
Import Core.
Variable env : Env.
Variable cfg : Config.
Implicit Types (e : exn) (ut : str) (key : option str).

Lemma chat_send_nonempty user_text ge key app clr rid gid :
  strip (default [] user_text) <> [] ->
  chat_send env cfg user_text ge key app clr rid gid =
    let r := try_except
               (retrieve env cfg (graph_ctx cfg app clr gid) (rag_ctx cfg app clr rid)
                  (strip (default [] user_text)) (default (GRAPH_ENABLED cfg) ge) key)
               (fun e => (Some (failure_note e), [])) in
    {| cs_ok := true; cs_error := None; cs_pdf_context := r.1; cs_hits := r.2 |}.
Proof.
  intros Hne. unfold chat_send.
  destruct (strip (default [] user_text)) as [|c s]; [done|]. reflexivity.
Qed.

Lemma chat_send_aborted user_text ge key app clr rid gid e :
  strip (default [] user_text) <> [] ->
  retrieve env cfg (graph_ctx cfg app clr gid) (rag_ctx cfg app clr rid)
    (strip (default [] user_text)) (default (GRAPH_ENABLED cfg) ge) key = inl e ->
  chat_send env cfg user_text ge key app clr rid gid = aborted e.
Proof. intros Hne Hr. rewrite chat_send_nonempty by done. by rewrite Hr. Qed.

(** The retrieval block: the candidates, the optional rerank, the
    context. *)
Lemma retrieve_stages gctx ctx ut ge key :
  retrieve env cfg gctx ctx ut ge key =
    (merged <- pre_rerank env cfg gctx ctx ut ge key ;;
     hits <- (if (RERANK_ENABLED cfg && negb (bool_decide (merged = [])))%bool
              then Rerank.rerank_hits (rerank_post env) cfg ut merged (PDF_TOP_K_CHUNKS cfg)
              else ok merged) ;;
     match hits with
     | [] => ok (None, hits)
     | _ => ok (Some (build_context cfg hits), hits)
     end).
Proof.
  unfold retrieve, pre_rerank.
  destruct (if ge then _ else _) as [e|g]; [done|]. simpl.
  by destruct (vector_path env cfg ctx g.1).
Qed.

Lemma extraction_absorbs_model_failure ut key e :
  call_vllm_chat env (extraction_messages cfg ut key) = inl e ->
  _extract_entities_from_text env cfg ut key None = ok [].
Proof.
  intros H. unfold _extract_entities_from_text.
  destruct (negb _); [done|]. unfold extraction_messages in H. by rewrite H.
Qed.

Lemma graph_path_without_entities gctx ctx ut key :
  _extract_entities_from_text env cfg ut key None = ok [] ->
  graph_path env cfg gctx ctx ut key = ok (ut, []).
Proof.
  intros H. unfold graph_path. rewrite H. simpl.
  by rewrite andb_false_r.
Qed.

Lemma hybrid_name_lookup_fails gctx q limit e :
  find_entities_by_name_or_alias env gctx q limit = inl e ->
  _find_entities_hybrid env cfg gctx q limit = inl e.
Proof. intros H. unfold _find_entities_hybrid. by rewrite H. Qed.

Lemma collect_seeds_name_lookup_fails gctx ent rest e :
  find_entities_by_name_or_alias env gctx (q_name ent) 3 = inl e ->
  collect_seeds env cfg gctx (ent :: rest) = inl e.
Proof.
  intros H. cbn [collect_seeds].
  by rewrite (hybrid_name_lookup_fails _ _ _ _ H).
Qed.

(** The graph path from the seeds on. *)
Lemma graph_path_from_seeds gctx ctx ut key ents seeds :
  _extract_entities_from_text env cfg ut key None = ok ents ->
  collect_seeds env cfg gctx ents = ok seeds ->
  graph_path env cfg gctx ctx ut key =
    (neighbor_names <-
       match seeds.1 with
       | [] => ok []
       | _ =>
           neighbors <- get_neighbor_entities env gctx seeds.1 10 ;;
           ok (List.filter nonempty
                 (List.map (fun n : option str => strip (default [] n)) neighbors))
       end ;;
     let extra_terms := join [32%N] (first_seen (seeds.2 ++ neighbor_names)) in
     let query_text :=
       match extra_terms with
       | [] => ut
       | _ => ut ++ [10%N; 10%N] ++ extra_terms
       end in
     graph_hits <-
       (if ((0 <? GRAPH_CHUNK_CANDIDATES cfg) && negb (bool_decide (seeds.1 = [])))%bool
        then
          graph_chunk_ids <- list_chunk_ids_by_entities env gctx seeds.1
                               (GRAPH_CHUNK_CANDIDATES cfg) ;;
          match graph_chunk_ids with
          | [] => ok []
          | _ => get_chunks_by_ids env ctx graph_chunk_ids
          end
        else ok []) ;;
     ok (query_text, graph_hits)).
Proof. intros He Hs. unfold graph_path. by rewrite He; cbn [bind ok]; rewrite Hs. Qed.

Lemma rerank_hits_fails q hits k e :
  hits <> [] ->
  rerank_post env q (chunk_text <$> hits) k = inl e ->
  Rerank.rerank_hits (rerank_post env) cfg q hits k = inl e.
Proof.
  intros Hne H. unfold Rerank.rerank_hits, Rerank.rerank_results.
  destruct hits as [|h hits]; [done|].
  change (List.map chunk_text (h :: hits)) with (chunk_text <$> h :: hits).
  destruct (chunk_text <$> h :: hits) eqn:E; [done|]. by rewrite H.
Qed.
End PipelineFacts.

(** C2 (amended).  A failure of the chat-model call of the entity
    extraction is absorbed: the query gives what it gives with the graph
    switched off.  A failure anywhere else in the graph path (matching an
    entity by name, expanding neighbours, listing chunk ids, resolving
    the chunk rows) and a failure of the vector path end alike in
    the handler around the whole retrieval block: the hit list is empty,
    the context is the failure note, and [chat_send] still reports
    [ok = true]. *)
Theorem graph_lookup_failure_aborts_retrieval
    (env : Core.Env) (cfg : Config) (user_text : option str)
    (key : option str) (app : option str) (clr : option Z) (rid gid : str) :
  let ut := strip (default [] user_text) in
  let ctx := rag_ctx cfg app clr rid in
  let gctx := graph_ctx cfg app clr gid in
  ut <> [] ->
  (forall e,
      Core.call_vllm_chat env (extraction_messages cfg ut key) = inl e ->
      Core.chat_send env cfg user_text (Some true) key app clr rid gid
        = Core.chat_send env cfg user_text (Some false) key app clr rid gid)
  /\ (forall e,
        Core.graph_path env cfg gctx ctx ut key = inl e ->
        Core.chat_send env cfg user_text (Some true) key app clr rid gid = aborted e)
  /\ (forall e,
        Core.vector_path env cfg ctx ut = inl e ->
        Core.chat_send env cfg user_text (Some false) key app clr rid gid = aborted e)
  /\ (forall e ents,
        Core._extract_entities_from_text env cfg ut key None = ok ents ->
        (forall ent rest,
            ents = ent :: rest ->
            Core.find_entities_by_name_or_alias env gctx (Core.q_name ent) 3 = inl e ->
            Core.graph_path env cfg gctx ctx ut key = inl e)
        /\ (forall seeds,
              Core.collect_seeds env cfg gctx ents = ok seeds ->
              seeds.1 <> [] ->
              (Core.get_neighbor_entities env gctx seeds.1 10 = inl e ->
               Core.graph_path env cfg gctx ctx ut key = inl e)
              /\ (forall neighbors,
                    Core.get_neighbor_entities env gctx seeds.1 10 = ok neighbors ->
                    0 < GRAPH_CHUNK_CANDIDATES cfg ->
                    (Core.list_chunk_ids_by_entities env gctx seeds.1
                       (GRAPH_CHUNK_CANDIDATES cfg) = inl e ->
                     Core.graph_path env cfg gctx ctx ut key = inl e)
                    /\ (forall ids,
                          Core.list_chunk_ids_by_entities env gctx seeds.1
                            (GRAPH_CHUNK_CANDIDATES cfg) = ok ids ->
                          ids <> [] ->
                          Core.get_chunks_by_ids env ctx ids = inl e ->
                          Core.graph_path env cfg gctx ctx ut key = inl e)))).
Proof.
  intros ut ctx gctx Hne. split_and!.
  - intros e He. rewrite !chat_send_nonempty by done.
    change (default (GRAPH_ENABLED cfg) (Some true)) with true.
    change (default (GRAPH_ENABLED cfg) (Some false)) with false.
    unfold Core.retrieve.
    rewrite (graph_path_without_entities env cfg); [done|].
    by eapply extraction_absorbs_model_failure.
  - intros e He. apply chat_send_aborted; [done|].
    change (default (GRAPH_ENABLED cfg) (Some true)) with true.
    unfold Core.retrieve. fold ut ctx gctx. by rewrite He.
  - intros e He. apply chat_send_aborted; [done|].
    change (default (GRAPH_ENABLED cfg) (Some false)) with false.
    unfold Core.retrieve. fold ut ctx gctx.
    change (bind (ok (ut, [])) ?k) with (k (ut, @nil Hit)).
    cbv beta. change ((ut, @nil Hit).1) with ut. by rewrite He.
  - intros e ents Hents. split.
    { intros ent rest -> Hf. unfold Core.graph_path. rewrite Hents. cbn [bind ok].
      by rewrite (collect_seeds_name_lookup_fails env cfg _ _ _ _ Hf). }
    intros seeds Hseeds Hs.
    rewrite (graph_path_from_seeds env cfg _ _ _ _ _ _ Hents Hseeds).
    destruct seeds.1 as [|s0 ss] eqn:Es; [done|]. split.
    { intros Hn. by rewrite Hn. }
    intros neighbors Hn Hg. rewrite Hn. cbn [bind ok].
    assert ((0 <? GRAPH_CHUNK_CANDIDATES cfg) = true) as -> by lia.
    rewrite bool_decide_eq_false_2 by done. cbn [andb negb]. split.
    { intros Hl. by rewrite Hl. }
    intros ids Hl Hi Hc. rewrite Hl. cbn [bind ok].
    destruct ids; [done|]. by rewrite Hc.
Qed.

Lemma graph_lookup_failure_aborts_retrieval_witness :
  strip (default [] (Some (lit "what is 5G"))) <> []
  /\ Core.chat_send (sample_env [GraphDatabase]) default_config
       (Some (lit "what is 5G")) (Some true) None None None (lit "r") (lit "g")
     = aborted unreachable.
Proof.
  assert (H : strip (default [] (Some (lit "what is 5G"))) <> []) by (by vm_compute).
  split; [exact H|].
  refine (proj1 (proj2 (graph_lookup_failure_aborts_retrieval
                          (sample_env [GraphDatabase]) default_config
                          (Some (lit "what is 5G")) None None None
                          (lit "r") (lit "g") H)) unreachable _).
  vm_compute. reflexivity.
Defined.

(** C2 as stated fails: with the graph database out of reach the query
    does not fall back to the vector-only result (one hit); it ends with
    no hit at all, and still reports success. *)
Lemma graph_lookup_failure_counterexample :
  let graph_on :=
    Core.chat_send (sample_env [GraphDatabase]) default_config
      (Some (lit "what is 5G")) (Some true) None None None (lit "r") (lit "g") in
  let vector_only :=
    Core.chat_send (sample_env [GraphDatabase]) default_config
      (Some (lit "what is 5G")) (Some false) None None None (lit "r") (lit "g") in
  Core.cs_hits vector_only = [sample_hit]
  /\ Core.cs_hits graph_on = []
  /\ Core.cs_ok graph_on = true
  /\ Core.cs_hits graph_on <> Core.cs_hits vector_only.
Proof. vm_compute. split_and!; done. Qed.

(** C8 (amended).  [rerank_hits] does not handle a failing scorer: the
    exception leaves it, and in [chat_send] it reaches the handler around
    the retrieval block, so the final hit list is empty and the context is
    the failure note.  The candidates keep their pre-rerank membership
    and order when reranking is switched off. *)
Theorem rerank_failure_empties_the_hits
    (env : Core.Env) (cfg : Config) (user_text : option str)
    (ge : option bool) (key : option str) (app : option str) (clr : option Z)
    (rid gid : str) (merged : list Hit) :
  let ut := strip (default [] user_text) in
  ut <> [] ->
  pre_rerank env cfg (graph_ctx cfg app clr gid) (rag_ctx cfg app clr rid) ut
    (default (GRAPH_ENABLED cfg) ge) key = ok merged ->
  (forall e,
      RERANK_ENABLED cfg = true -> merged <> [] ->
      Core.rerank_post env ut (chunk_text <$> merged) (PDF_TOP_K_CHUNKS cfg) = inl e ->
      Rerank.rerank_hits (Core.rerank_post env) cfg ut merged (PDF_TOP_K_CHUNKS cfg)
        = inl e
      /\ Core.chat_send env cfg user_text ge key app clr rid gid = aborted e)
  /\ (RERANK_ENABLED cfg = false ->
      Core.cs_hits (Core.chat_send env cfg user_text ge key app clr rid gid) = merged).
Proof.
  intros ut Hne Hpre. split.
  - intros e Hen Hm Hpost.
    pose proof (rerank_hits_fails env cfg ut merged _ e Hm Hpost) as Hr.
    split; [done|]. apply chat_send_aborted; [done|].
    rewrite retrieve_stages. fold ut. rewrite Hpre. cbn [bind ok].
    rewrite Hen, bool_decide_eq_false_2 by done. cbn [andb negb].
    by rewrite Hr.
  - intros Hen. rewrite chat_send_nonempty by done.
    rewrite retrieve_stages. fold ut. rewrite Hpre. cbn [bind ok].
    rewrite Hen. cbn [andb bind ok]. by destruct merged.
Qed.

Lemma rerank_failure_empties_the_hits_witness :
  strip (default [] (Some (lit "what is 5G"))) <> []
  /\ pre_rerank (sample_env [RerankService]) default_config
       (graph_ctx default_config None None (lit "g"))
       (rag_ctx default_config None None (lit "r"))
       (strip (default [] (Some (lit "what is 5G"))))
       (default (GRAPH_ENABLED default_config) (Some false)) None = ok [sample_hit]
  /\ Core.chat_send (sample_env [RerankService]) default_config
       (Some (lit "what is 5G")) (Some false) None None None (lit "r") (lit "g")
     = aborted unreachable.
Proof.
  assert (H : strip (default [] (Some (lit "what is 5G"))) <> []) by (by vm_compute).
  assert (Hp : pre_rerank (sample_env [RerankService]) default_config
                 (graph_ctx default_config None None (lit "g"))
                 (rag_ctx default_config None None (lit "r"))
                 (strip (default [] (Some (lit "what is 5G"))))
                 (default (GRAPH_ENABLED default_config) (Some false)) None
               = ok [sample_hit]) by (by vm_compute).
  split; [exact H|]. split; [exact Hp|].
  refine (proj2 (proj1 (rerank_failure_empties_the_hits
                          (sample_env [RerankService]) default_config
                          (Some (lit "what is 5G")) (Some false) None None None
                          (lit "r") (lit "g") [sample_hit] H Hp)
                   unreachable eq_refl _ _)).
  - discriminate.
  - vm_compute. reflexivity.
Defined.

(** C8 as stated fails: with the scorer out of reach the one pre-rerank
    candidate is lost and the final hit list is empty. *)
Lemma rerank_unreachable_counterexample :
  pre_rerank (sample_env [RerankService]) default_config
    (graph_ctx default_config None None (lit "g"))
    (rag_ctx default_config None None (lit "r"))
    (lit "what is 5G") false None = ok [sample_hit]
  /\ Core.cs_hits
       (Core.chat_send (sample_env [RerankService]) default_config
          (Some (lit "what is 5G")) (Some false) None None None (lit "r") (lit "g"))
     = []
  /\ Core.cs_ok
       (Core.chat_send (sample_env [RerankService]) default_config
          (Some (lit "what is 5G")) (Some false) None None None (lit "r") (lit "g"))
     = true.
Proof. vm_compute. split_and!; done. Qed.

(** ** Concurrent callers of [fetch_pending_jobs] *)

Section ClaimingFacts.
Import GraphStore Claiming.
Implicit Types (s : state) (w : nat) (id : str) (tbl : list Job).

Lemma still_pending_true tbl id :
  still_pending tbl id = true <->
  exists j, j ∈ tbl /\ job_id j = id /\ status j = pending.
Proof.
  unfold still_pending. rewrite existsb_exists. split.
  - intros (j & Hj & H). apply andb_true_iff in H as [H1 H2].
    apply bool_decide_eq_true in H1, H2. exists j.
    split; [by apply list_elem_of_In | done].
  - intros (j & Hj & H1 & H2). exists j. split; [by apply list_elem_of_In|].
    by rewrite !bool_decide_eq_true_2.
Qed.

Lemma still_pending_false tbl id :
  still_pending tbl id = false <->
  forall j, j ∈ tbl -> job_id j = id -> status j <> pending.
Proof.
  rewrite <- not_true_iff_false, still_pending_true. naive_solver.
Qed.

Lemma mark_running_ids now ids tbl :
  job_id <$> mark_running now ids tbl = job_id <$> tbl.
Proof.
  unfold mark_running. change (List.map ?f ?l) with (f <$> l).
  rewrite <- list_fmap_compose. apply list_fmap_ext. intros i j _. simpl.
  by destruct (bool_decide _).
Qed.

Lemma mark_job_done_ids tbl ctx now jid success error :
  job_id <$> mark_job_done tbl ctx now jid success error = job_id <$> tbl.
Proof.
  unfold mark_job_done. change (List.map ?f ?l) with (f <$> l).
  rewrite <- list_fmap_compose. apply list_fmap_ext. intros i j _. simpl.
  by destruct (bool_decide _).
Qed.

Lemma mark_running_not_pending now ids tbl id :
  id ∈ ids \/ still_pending tbl id = false ->
  still_pending (mark_running now ids tbl) id = false.
Proof.
  intros H. apply still_pending_false. intros j' Hj' Hid.
  unfold mark_running in Hj'. apply list_elem_of_In, in_map_iff in Hj' as (j & <- & Hj).
  apply list_elem_of_In in Hj.
  case_bool_decide as Hin; simpl in *; [done|].
  destruct H as [H|H]; [by subst|].
  rewrite still_pending_false in H. by apply (H j).
Qed.

Lemma mark_job_done_not_pending tbl ctx now jid success error id :
  still_pending tbl id = false ->
  still_pending (mark_job_done tbl ctx now jid success error) id = false.
Proof.
  rewrite !still_pending_false. intros H j' Hj' Hid.
  unfold mark_job_done in Hj'. apply list_elem_of_In, in_map_iff in Hj' as (j & <- & Hj).
  apply list_elem_of_In in Hj.
  case_bool_decide as Hin; simpl in *; [by destruct success|].
  by apply (H j).
Qed.

Lemma release_other w w' (lk : gmap str nat) id :
  w' <> w -> lk !! id = Some w' -> release w lk !! id = Some w'.
Proof. intros Hne H. unfold release. by apply map_lookup_filter_Some. Qed.

Lemma initial_invariant tbl : claim_invariant (initial tbl).
Proof. split; simpl; intros; by apply elem_of_nil in H || set_solver. Qed.

(** A step that only moves one connection to a phase holding what it
    held before (or less). *)
Lemma set_phase_invariant s w p :
  claim_invariant s ->
  (forall id, id ∈ held p -> id ∈ held (phases s w)) ->
  claim_invariant (set_phase w p s).
Proof.
  intros [H1 H2 H3 H4 H5 H6] Hp.
  assert (Hh : forall w' id, id ∈ held (<[w := p]> (phases s) w') ->
                             id ∈ held (phases s w')).
  { intros w' id. destruct (decide (w' = w)) as [->|Hne].
    - rewrite fn_lookup_insert. apply Hp.
    - by rewrite fn_lookup_insert_ne. }
  split; simpl; eauto.
Qed.

Lemma step_invariant s s' : claim_invariant s -> step s s' -> claim_invariant s'.
Proof.
  intros Hinv Hstep. destruct Hstep.
  - (* begin *) apply set_phase_invariant; [done|]. simpl. by intros id ?%elem_of_nil.
  - (* skip *) apply set_phase_invariant; [done|]. by rewrite H.
  - (* recheck *) apply set_phase_invariant; [done|]. by rewrite H.
  - (* take *)
    destruct Hinv as [H1' H2' H3' H4' H5' H6'].
    assert (Hh : forall w' id', id' ∈ held (<[w := Selecting limit todo (taken ++ [id])]>
                                               (phases s) w') ->
                  (w' = w /\ id' = id) \/ id' ∈ held (phases s w')).
    { intros w' id'. destruct (decide (w' = w)) as [->|Hne].
      - rewrite fn_lookup_insert, H. simpl. rewrite elem_of_app, list_elem_of_singleton.
        naive_solver.
      - rewrite fn_lookup_insert_ne by done. by right. }
    apply still_pending_true in H2 as (j & Hj & Hid & Hst).
    split; simpl.
    + intros w' id' [[-> ->]|Hin]%Hh; [by rewrite lookup_insert_eq|].
      destruct (decide (id' = id)) as [->|Hne].
      * rewrite lookup_insert_eq. f_equal. apply H1' in Hin.
        unfold free_for in H1. rewrite Hin in H1. by apply bool_decide_eq_true in H1.
      * rewrite lookup_insert_ne by done. by apply H1'.
    + intros w' id' [[-> ->]|Hin]%Hh; [|by eapply H2'].
      subst. apply list_elem_of_fmap. by exists j.
    + intros w1 w2 id' [[-> ->]|Hin]%Hh; [|by eapply H3'].
      intros Hr%H5'. rewrite still_pending_false in Hr. by apply (Hr j).
    + done.
    + done.
    + done.
  - (* end of the select *) apply set_phase_invariant; [done|]. by rewrite H.
  - (* update *) apply set_phase_invariant; [done|]. by rewrite H.
  - (* commit *)
    destruct Hinv as [H1' H2' H3' H4' H5' H6'].
    assert (Hh : forall w' id', id' ∈ held (<[w := Idle]> (phases s) w') ->
                                w' <> w /\ id' ∈ held (phases s w')).
    { intros w' id'. destruct (decide (w' = w)) as [->|Hne].
      - rewrite fn_lookup_insert. by intros ?%elem_of_nil.
      - by rewrite fn_lookup_insert_ne. }
    assert (Hr : forall w' id', id' ∈ <[w := returned s w ++ rows]> (returned s) w' ->
                  id' ∈ returned s w' \/ (w' = w /\ id' ∈ held (phases s w))).
    { intros w' id'. destruct (decide (w' = w)) as [->|Hne].
      - rewrite fn_lookup_insert, elem_of_app, H. simpl. naive_solver.
      - rewrite fn_lookup_insert_ne by done. by left. }
    split; simpl.
    + intros w' id' [Hne Hin]%Hh. apply release_other; [done|]. by apply H1'.
    + intros w' id' [Hne Hin]%Hh. rewrite mark_running_ids. by eapply H2'.
    + intros w1 w2 id' [Hne Hin]%Hh [Hr'|[-> Hr']]%Hr.
      * by eapply H3'.
      * apply H1' in Hin, Hr'. congruence.
    + intros w' id' [Hr'|[-> Hr']]%Hr; rewrite mark_running_ids; eauto.
    + intros w' id' [Hr'|[-> Hr']]%Hr; apply mark_running_not_pending.
      * right. by eapply H5'.
      * left. by rewrite H in Hr'.
    + intros w1 w2 id' Hne [Hr1|[-> Hr1]]%Hr [Hr2|[-> Hr2]]%Hr.
      * by eapply H6'.
      * by eapply H3'.
      * by eapply H3'.
      * done.
  - (* abort *)
    destruct Hinv as [H1' H2' H3' H4' H5' H6'].
    assert (Hh : forall w' id', id' ∈ held (<[w := Idle]> (phases s) w') ->
                                w' <> w /\ id' ∈ held (phases s w')).
    { intros w' id'. destruct (decide (w' = w)) as [->|Hne].
      - rewrite fn_lookup_insert. by intros ?%elem_of_nil.
      - by rewrite fn_lookup_insert_ne. }
    split; simpl; eauto.
    + intros w' id' [Hne Hin]%Hh. apply release_other; [done|]. by apply H1'.
    + intros w' id' [Hne Hin]%Hh. by eapply H2'.
    + intros w1 w2 id' [Hne Hin]%Hh. by eapply H3'.
  - (* enqueue *)
    destruct Hinv as [H1' H2' H3' H4' H5' H6'].
    split; simpl; eauto.
    + intros w' id' Hin. unfold enqueue_job. rewrite fmap_app, elem_of_app.
      left. by eapply H2'.
    + intros w' id' Hin. unfold enqueue_job. rewrite fmap_app, elem_of_app.
      left. by eapply H4'.
    + intros w' id' Hin. apply still_pending_false.
      intros j [Hj|Hj%list_elem_of_singleton]%elem_of_app Hid.
      * pose proof (H5' _ _ Hin) as Hp. rewrite still_pending_false in Hp.
        by apply (Hp j).
      * subst j. simpl in Hid. subst id'. apply H4' in Hin.
        exfalso. by apply H.
  - (* mark done *)
    destruct Hinv as [H1' H2' H3' H4' H5' H6'].
    split; simpl; eauto.
    + intros w' id' Hin. rewrite mark_job_done_ids. by eapply H2'.
    + intros w' id' Hin. rewrite mark_job_done_ids. by eapply H4'.
    + intros w' id' Hin. apply mark_job_done_not_pending. by eapply H5'.
Qed.

Lemma reachable_invariant tbl s : reachable tbl s -> claim_invariant s.
Proof.
  unfold reachable. intros H. apply rtc_nsteps in H as [n H].
  revert s H. induction n as [|n IH]; intros s H.
  - inv H. apply initial_invariant.
  - apply nsteps_inv_r in H as (s0 & H0 & Hs). eapply step_invariant; eauto.
Qed.
End ClaimingFacts.

(** C9.  Whatever the interleaving of the connections that run
    [fetch_pending_jobs] on one table, no job id is handed to two of
    them; a job id that was handed out belongs to a stored row that is
    no longer pending; and the rows a connection has selected and not
    yet committed are locked by it and were never handed out. *)
Theorem concurrent_claims_are_disjoint
    (tbl : list GraphStore.Job) (s : Claiming.state) :
  Claiming.reachable tbl s ->
  (forall w1 w2 id,
      w1 <> w2 -> id ∈ Claiming.returned s w1 -> id ∉ Claiming.returned s w2)
  /\ (forall w id,
        id ∈ Claiming.returned s w ->
        id ∈ GraphStore.job_id <$> Claiming.table s
        /\ Claiming.still_pending (Claiming.table s) id = false)
  /\ (forall w id,
        id ∈ Claiming.held (Claiming.phases s w) ->
        Claiming.locks s !! id = Some w
        /\ forall w', id ∉ Claiming.returned s w').
Proof.
  intros [H1 H2 H3 H4 H5 H6]%reachable_invariant. split_and!; eauto.
Qed.

Lemma concurrent_claims_are_disjoint_witness :
  exists s,
    Claiming.reachable sample_jobs s
    /\ Claiming.returned s 0%nat = [lit "j1"]
    /\ Claiming.returned s 1%nat = [lit "j2"]
    /\ lit "j1" ∉ Claiming.returned s 1%nat.
Proof.
  assert (Hrun : exists s,
             Claiming.reachable sample_jobs s
             /\ Claiming.returned s 0%nat = [lit "j1"]
             /\ Claiming.returned s 1%nat = [lit "j2"]).
  { eexists. split.
    - unfold Claiming.reachable.
      eapply rtc_l.
      { apply (Claiming.step_begin _ 0%nat sample_ctx 1); [reflexivity | discriminate]. }
      eapply rtc_l.
      { apply (Claiming.step_begin _ 1%nat sample_ctx 1); [reflexivity | discriminate]. }
      eapply rtc_l.
      { apply (Claiming.step_take _ 0%nat 1 (lit "j1") [lit "j2"] []);
          reflexivity. }
      eapply rtc_l.
      { apply (Claiming.step_skip _ 1%nat 1 (lit "j1") [lit "j2"] []);
          reflexivity. }
      eapply rtc_l.
      { apply (Claiming.step_take _ 1%nat 1 (lit "j2") [] []); reflexivity. }
      eapply rtc_l.
      { apply (Claiming.step_select_end _ 0%nat 1 [lit "j2"] [lit "j1"]);
          [reflexivity | right; discriminate]. }
      eapply rtc_l.
      { apply (Claiming.step_select_end _ 1%nat 1 [] [lit "j2"]);
          [reflexivity | by left]. }
      eapply rtc_l.
      { apply (Claiming.step_update _ 0%nat [lit "j1"]). reflexivity. }
      eapply rtc_l.
      { apply (Claiming.step_commit _ 0%nat [lit "j1"] 5). reflexivity. }
      eapply rtc_l.
      { apply (Claiming.step_update _ 1%nat [lit "j2"]). reflexivity. }
      eapply rtc_l.
      { apply (Claiming.step_commit _ 1%nat [lit "j2"] 6). reflexivity. }
      apply rtc_refl.
    - split; reflexivity. }
  destruct Hrun as (s & Hs & H0 & H1).
  exists s. split; [exact Hs|]. split; [exact H0|]. split; [exact H1|].
  apply (proj1 (concurrent_claims_are_disjoint sample_jobs s Hs) 0%nat 1%nat (lit "j1")).
  - discriminate.
  - rewrite H0. apply list_elem_of_here.
Defined.

(** ** One connection alone *)

Section SoloRun.
Import GraphStore Claiming.
Implicit Types (s : state) (w : nat) (id : str).

Lemma candidates_select_pending tbl ctx limit :
  job_id <$> select_pending tbl ctx limit
    = take (Z.to_nat limit) (candidates tbl ctx).
Proof.
  unfold select_pending, candidates, sql_limit.
  change (List.map ?f ?l) with (f <$> l). by rewrite fmap_take.
Qed.

Lemma candidates_pending tbl ctx id :
  id ∈ candidates tbl ctx -> still_pending tbl id = true.
Proof.
  unfold candidates. change (List.map ?f ?l) with (f <$> l).
  intros (j & -> & Hj)%list_elem_of_fmap.
  rewrite sort_by_perm in Hj.
  apply list_elem_of_In, filter_In in Hj as [Hj Hc].
  apply andb_true_iff in Hc as [_ Hc]. apply bool_decide_eq_true in Hc.
  apply still_pending_true. exists j. split; [by apply list_elem_of_In | done].
Qed.

(** The visit of the candidates by a connection that finds every row
    free: it locks and takes them in order until [limit] is reached. *)
Lemma solo_visit w limit todo :
  forall taken s,
    phases s w = Selecting limit todo taken ->
    (forall id, id ∈ todo -> still_pending (table s) id = true) ->
    (forall id, free_for w (locks s) id = true) ->
    Z.of_nat (length taken) <= limit ->
    exists s',
      rtc step s s'
      /\ phases s' w
         = Selected (taken ++ take (Z.to_nat limit - length taken) todo)
      /\ table s' = table s /\ returned s' = returned s
      /\ forall w', w' <> w -> phases s' w' = phases s w'.
Proof.
  induction todo as [|id todo IH]; intros taken s Hph Hpend Hfree Hlen.
  - eexists. split; [apply rtc_once; eapply step_select_end; eauto|].
    simpl. rewrite fn_lookup_insert, take_nil, app_nil_r.
    split_and!; try done. intros w' Hne. by rewrite fn_lookup_insert_ne.
  - destruct (decide (Z.of_nat (length taken) = limit)) as [Heq|Hne].
    + eexists. split; [apply rtc_once; eapply step_select_end; eauto; right; lia|].
      simpl. rewrite fn_lookup_insert.
      replace (Z.to_nat limit - length taken)%nat with 0%nat by lia.
      rewrite take_0, app_nil_r.
      split_and!; try done. intros w' Hw. by rewrite fn_lookup_insert_ne.
    + set (s1 := {| table := table s;
                    locks := <[id := w]> (locks s);
                    phases := <[w := Selecting limit todo (taken ++ [id])]> (phases s);
                    returned := returned s |}).
      assert (Hstep : step s s1).
      { eapply step_take; eauto; [lia|]. apply Hpend. by left. }
      destruct (IH (taken ++ [id]) s1) as (s' & Hrtc & Hph' & Ht & Hr & Ho).
      * simpl. by rewrite fn_lookup_insert.
      * intros id' Hin. simpl. apply Hpend. by right.
      * intros id'. simpl. unfold free_for.
        destruct (decide (id = id')) as [->|Hd].
        -- rewrite lookup_insert_eq. by apply bool_decide_eq_true.
        -- rewrite lookup_insert_ne by done. apply Hfree.
      * rewrite length_app. simpl. lia.
      * exists s'. split; [by eapply rtc_l|]. split_and!; try done.
        -- rewrite Hph'. f_equal. rewrite <- app_assoc. f_equal.
           rewrite length_app. simpl.
           replace (Z.to_nat limit - length taken)%nat
             with (S (Z.to_nat limit - (length taken + 1)))%nat by lia.
           done.
        -- intros w' Hw. rewrite Ho by done. simpl. by rewrite fn_lookup_insert_ne.
Qed.

(** Run by one connection while no row is locked, the steps of the
    model hand back the rows of [fetch_pending_jobs] and leave the table
    it leaves. *)
Lemma solo_claim_is_fetch_pending_jobs s w ctx limit now :
  phases s w = Idle ->
  locks s = ∅ ->
  0 <= limit ->
  exists s' rows,
    rtc step s s'
    /\ fetch_pending_jobs (table s) ctx now limit = ok (table s', rows)
    /\ returned s' w = returned s w ++ (job_id <$> rows)
    /\ phases s' w = Idle.
Proof.
  intros Hidle Hlocks Hlimit.
  set (s1 := set_phase w (Selecting limit (candidates (table s) ctx) []) s).
  assert (Hbegin : step s s1) by (by apply step_begin).
  destruct (solo_visit w limit (candidates (table s) ctx) [] s1)
    as (s2 & Hrtc & Hph & Ht & Hr & _).
  { simpl. by rewrite fn_lookup_insert. }
  { intros id. apply candidates_pending. }
  { intros id. simpl. unfold free_for. by rewrite Hlocks, lookup_empty. }
  { simpl. lia. }
  simpl in Hph. rewrite Nat.sub_0_r in Hph.
  set (rows := take (Z.to_nat limit) (candidates (table s) ctx)) in *.
  set (s3 := set_phase w (Updated rows) s2).
  set (s4 := {| table := mark_running now rows (table s3);
                locks := release w (locks s3);
                phases := <[w := Idle]> (phases s3);
                returned := <[w := returned s3 w ++ rows]> (returned s3) |}).
  exists s4, (select_pending (table s) ctx limit). split_and!.
  - eapply rtc_l; [exact Hbegin|]. etrans; [exact Hrtc|].
    eapply rtc_l; [by apply (step_update s2 w rows)|].
    apply rtc_once. apply (step_commit s3 w rows now).
    simpl. by rewrite fn_lookup_insert.
  - unfold fetch_pending_jobs. assert ((limit <? 0) = false) as -> by lia.
    simpl. change (List.map job_id ?l) with (job_id <$> l).
    by rewrite candidates_select_pending, Ht.
  - simpl. rewrite fn_lookup_insert, Hr. simpl.
    by rewrite candidates_select_pending.
  - simpl. by rewrite fn_lookup_insert.
Qed.
End SoloRun.
Section SliceFacts.
Import PySeq.
Context {A : Type}.
Implicit Types (s : list A).



End SliceFacts.

Section SlidingFacts.
Import PySeq Chunking.
Implicit Types (text : str) (chunks : list str).


Lemma sliding_loop_stuck text chunk_size overlap :
  chunk_size <= overlap ->
  forall fuel start chunks,
    0 <= start -> start + chunk_size < Z.of_nat (length text) ->
    start < Z.of_nat (length text) ->
    sliding_loop fuel text chunk_size overlap start chunks = None.
Proof.
  intros Hov. induction fuel as [|fuel IH]; intros start chunks H0 Hs Hn.
  { reflexivity. }
  cbn [sliding_loop].
  destruct (Z.ltb_spec start (Z.of_nat (length text))); [|lia].
  rewrite Z.min_r by lia.
  destruct (Z.eqb_spec (start + chunk_size) (Z.of_nat (length text))); [lia|].
  apply IH; lia.
Qed.
End SlidingFacts.



(** X2.  With an overlap that is not below the chunk size, the loop of
    [sliding_chunk_text] never ends on a text longer than one chunk:
    its start index does not advance. *)
Theorem sliding_loops_forever_on_large_overlap
    (text : str) (chunk_size overlap : Z) :
  chunk_size <= overlap ->
  text <> [] ->
  chunk_size < Z.of_nat (length text) ->
  forall fuel, Chunking.sliding_chunk_text fuel text chunk_size overlap = None.
Proof.
  intros Hov Ht Hn fuel. unfold Chunking.sliding_chunk_text.
  destruct text as [|c text']; [done|].
  apply sliding_loop_stuck; [exact Hov|lia|lia|simpl; lia].
Qed.

Lemma sliding_loops_forever_on_large_overlap_witness :
  4 <= 4 /\ lit "abcdefghij" <> [] /\ 4 < Z.of_nat (length (lit "abcdefghij"))
  /\ Chunking.sliding_chunk_text 1000 (lit "abcdefghij") 4 4 = None.
Proof.
  assert (H1 : 4 <= 4) by lia.
  assert (H2 : lit "abcdefghij" <> []) by (by vm_compute).
  assert (H3 : 4 < Z.of_nat (length (lit "abcdefghij"))) by (vm_compute; reflexivity).
  split; [exact H1|]. split; [exact H2|]. split; [exact H3|].
  exact (sliding_loops_forever_on_large_overlap (lit "abcdefghij") 4 4 H1 H2 H3 1000%nat).
Defined.
Section StripFacts.
Implicit Types (s t : str) (c : N).

Lemma drop_while_length p s : (length (drop_while p s) <= length s)%nat.
Proof. induction s as [|c s IH]; simpl; [lia|]. destruct (p c); simpl; lia. Qed.

Lemma drop_while_shape p s :
  drop_while p s = [] \/ exists c t, drop_while p s = c :: t /\ p c = false.
Proof.
  induction s as [|c s IH]; simpl; [by left|].
  destruct (p c) eqn:Hc; [exact IH|]. right. by exists c, s.
Qed.

Lemma strip_length s : (length (strip s) <= length s)%nat.
Proof.
  unfold strip, lstrip, rstrip.
  etrans; [apply drop_while_length|]. rewrite length_rev.
  etrans; [apply drop_while_length|]. by rewrite length_rev.
Qed.

Lemma rstrip_shape s :
  rstrip s = [] \/ exists t d, rstrip s = t ++ [d] /\ isspace d = false.
Proof.
  unfold rstrip. destruct (drop_while_shape isspace (rev s)) as [->|(c & t & -> & Hc)].
  - by left.
  - right. exists (rev t), c. by rewrite reverse_cons || (simpl; split).
Qed.

Lemma lstrip_app_last t d :
  isspace d = false -> exists u, lstrip (t ++ [d]) = u ++ [d].
Proof.
  intros Hd. induction t as [|c t IH]; simpl.
  - exists []. unfold lstrip. simpl. by rewrite Hd.
  - unfold lstrip in *. simpl. destruct (isspace c).
    + exact IH.
    + by exists (c :: t).
Qed.

Lemma strip_shape s :
  strip s = []
  \/ (exists c, strip s = [c] /\ isspace c = false)
  \/ (exists c m d, strip s = c :: m ++ [d] /\ isspace c = false /\ isspace d = false).
Proof.
  unfold strip. destruct (rstrip_shape s) as [->|(t & d & -> & Hd)]; [by left|].
  destruct (lstrip_app_last t d Hd) as (u & Hu).
  assert (Hx : drop_while isspace (t ++ [d]) = u ++ [d]) by exact Hu.
  change (lstrip (t ++ [d])) with (drop_while isspace (t ++ [d])).
  destruct (drop_while_shape isspace (t ++ [d])) as [Hnil|(c & v & Hv & Hc)].
  { rewrite Hnil in Hx. by destruct u. }
  rewrite Hv in Hx |- *. right.
  destruct u as [|c' u]; simpl in Hx.
  - injection Hx as -> ->. left. by exists d.
  - injection Hx as -> ->. right. by exists c', u, d.
Qed.

Lemma strip_idemp s : strip (strip s) = strip s.
Proof.
  destruct (strip_shape s) as [->|[(c & -> & Hc)|(c & m & d & -> & Hc & Hd)]].
  - reflexivity.
  - by apply strip_single.
  - by apply strip_plain.
Qed.
End StripFacts.

Section RecursiveFacts.
Import PySeq Chunking.
Implicit Types (s t text : str) (chunks : list str).

Lemma slice_length_le {A} (a b : Z) (l : list A) :
  0 <= a -> a <= b -> Z.of_nat (length (slice a b l)) <= b - a.
Proof.
  intros Ha Hab. unfold slice, clamp_index.
  destruct (Z.ltb_spec a 0), (Z.ltb_spec b 0); try lia.
  rewrite length_take. lia.
Qed.

Lemma slice_after_length {A} (k : Z) (l : list A) :
  0 < k -> Z.of_nat (length (slice_after (- k) l)) <= k.
Proof.
  intros Hk. unfold slice_after, clamp_index.
  destruct (Z.ltb_spec (- k) 0); [|lia].
  rewrite length_drop. lia.
Qed.

Lemma hard_cut_bound chunk_size t :
  0 < chunk_size ->
  exists pieces,
    hard_cut chunk_size t = ok pieces
    /\ Forall (fun c => Z.of_nat (length c) <= chunk_size) pieces.
Proof.
  intros Hc. unfold hard_cut.
  destruct (Z.eqb_spec chunk_size 0); [lia|].
  destruct (Z.ltb_spec chunk_size 0); [lia|].
  eexists. split; [reflexivity|].
  apply Forall_forall. intros c Hin.
  apply list_elem_of_In, in_map_iff in Hin as (i & <- & Hi).
  unfold range_by in Hi. apply in_map_iff in Hi as (k & <- & _).
  pose proof (slice_length_le (Z.of_nat k * chunk_size)
                (Z.of_nat k * chunk_size + chunk_size) t) as Hl.
  nia.
Qed.

Lemma pack_by_sep_total chunk_size t sep :
  0 < chunk_size -> exists pieces, pack_by_sep chunk_size t sep = ok pieces.
Proof.
  intros Hc. destruct sep as [|c sep]; simpl.
  - destruct (hard_cut_bound chunk_size t Hc) as (p & -> & _). by eexists.
  - by eexists.
Qed.

Lemma split_pass_total chunk_size sep chunks :
  0 < chunk_size -> exists out, split_pass chunk_size sep chunks = ok out.
Proof.
  intros Hc. induction chunks as [|c rest (out & IH)]; simpl; [by eexists|].
  destruct (strip c) as [|x xs]; [by eexists|].
  rewrite IH. destruct (_ <=? _); cbn [bind ok]; [by eexists|].
  destruct (pack_by_sep_total chunk_size (x :: xs) sep Hc) as (p & ->).
  cbn [bind ok]. by eexists.
Qed.

Lemma last_pass_bound chunk_size chunks :
  0 < chunk_size ->
  exists out,
    split_pass chunk_size [] chunks = ok out
    /\ Forall (fun c => Z.of_nat (length c) <= chunk_size) out.
Proof.
  intros Hc. induction chunks as [|c rest (out & IH & Hall)]; cbn [split_pass].
  { eexists. split; [reflexivity|constructor]. }
  destruct (strip c) as [|x xs]; [by eexists|].
  rewrite IH. destruct (Z.leb_spec (Z.of_nat (length (x :: xs))) chunk_size); cbn [bind ok].
  - eexists. split; [reflexivity|]. by constructor.
  - cbn [pack_by_sep].
    destruct (hard_cut_bound chunk_size (x :: xs) Hc) as (p & -> & Hp).
    cbn [bind ok]. eexists. split; [reflexivity|]. by apply Forall_app.
Qed.

Lemma split_passes_bound chunk_size separators chunks :
  0 < chunk_size ->
  exists out,
    split_passes chunk_size (separators ++ [[]]) chunks = ok out
    /\ Forall (fun c => Z.of_nat (length c) <= chunk_size) out.
Proof.
  intros Hc. revert chunks. induction separators as [|sep separators IH]; intros chunks.
  - cbn [app split_passes].
    destruct (last_pass_bound chunk_size chunks Hc) as (out & -> & Hall).
    cbn [bind ok]. by exists out.
  - cbn [app split_passes].
    destruct (split_pass_total chunk_size sep chunks Hc) as (new & ->).
    cbn [bind ok]. apply IH.
Qed.

Lemma add_overlap_bound chunk_size overlap rest final :
  0 < overlap ->
  Forall (fun c => Z.of_nat (length c) <= chunk_size) rest ->
  Forall (fun c => Z.of_nat (length c) <= chunk_size + overlap) final ->
  Forall (fun c => Z.of_nat (length c) <= chunk_size + overlap)
         (foldl (add_overlap overlap) final rest).
Proof.
  intros Hov. revert final. induction rest as [|c rest IH]; intros final Hr Hf; cbn [foldl].
  { exact Hf. }
  inversion Hr as [|? ? Hc Hr']; subst. apply IH; [exact Hr'|].
  unfold add_overlap. apply Forall_app. split; [exact Hf|].
  constructor; [|constructor].
  pose proof (strip_length (slice_after (- overlap) (List.last final []) ++ c)) as Hl.
  rewrite length_app in Hl.
  pose proof (slice_after_length overlap (List.last final []) Hov).
  unfold str, char in *. lia.
Qed.

Lemma with_overlap_bound chunk_size overlap chunks :
  Forall (fun c => Z.of_nat (length c) <= chunk_size) chunks ->
  Forall (fun c => Z.of_nat (length c) <= chunk_size + Z.max overlap 0)
         (with_overlap overlap chunks).
Proof.
  intros Hall. unfold with_overlap.
  assert (Hweak : Forall (fun c => Z.of_nat (length c) <= chunk_size + Z.max overlap 0) chunks).
  { eapply Forall_impl; [exact Hall|]. simpl. intros. lia. }
  destruct chunks as [|c0 [|c1 rest]]; try exact Hweak.
  destruct (Z.ltb_spec 0 overlap); [|exact Hweak].
  rewrite Z.max_l by lia.
  inversion Hall as [|? ? H0 Hrest]; subst.
  apply add_overlap_bound; [lia|exact Hrest|].
  constructor; [lia|constructor].
Qed.

Lemma split_pass_short chunk_size sep t :
  strip t = t -> t <> [] -> Z.of_nat (length t) <= chunk_size ->
  split_pass chunk_size sep [t] = ok [t].
Proof.
  intros Hs Ht Hl. cbn [split_pass]. rewrite Hs.
  destruct t as [|x xs]; [done|].
  destruct (Z.leb_spec (Z.of_nat (length (x :: xs))) chunk_size); [|lia].
  reflexivity.
Qed.

Lemma split_passes_short chunk_size separators t :
  strip t = t -> t <> [] -> Z.of_nat (length t) <= chunk_size ->
  split_passes chunk_size separators [t] = ok [t].
Proof.
  intros Hs Ht Hl. induction separators as [|sep separators IH]; [reflexivity|].
  cbn [split_passes]. rewrite split_pass_short by done. exact IH.
Qed.

Lemma split_passes_blank chunk_size separators t :
  strip t = [] -> separators <> [] ->
  split_passes chunk_size separators [t] = ok [].
Proof.
  intros Hs Hne. destruct separators as [|sep separators]; [done|].
  cbn [split_passes split_pass]. rewrite Hs. cbn [bind ok].
  clear Hne. induction separators as [|sep' separators IH]; [reflexivity|].
  exact IH.
Qed.
End RecursiveFacts.

(** X3.  With a positive chunk size [recursive_chunk_text] returns, and
    every chunk it returns is non-empty, carries no white space at
    either end, and is at most [chunk_size] characters long, plus
    [overlap] characters when an overlap is asked for. *)
Theorem recursive_chunks_are_bounded (text : str) (chunk_size overlap : Z) :
  0 < chunk_size ->
  exists chunks,
    Chunking.recursive_chunk_text text chunk_size overlap = ok chunks
    /\ Forall (fun c => c <> [] /\ strip c = c
                        /\ Z.of_nat (length c) <= chunk_size + Z.max overlap 0)
              chunks.
Proof.
  intros Hc. unfold Chunking.recursive_chunk_text.
  destruct text as [|x xs].
  { eexists. split; [reflexivity|constructor]. }
  cbv beta iota.
  destruct (split_passes_bound chunk_size
              [[10; 10]; [10]; [12290]; [65281]; [65311]; [46]; [1563]; [59]; [32]]%N
              [x :: xs] Hc) as (out & Hrun & Hall).
  assert (Heq : Chunking.split_passes chunk_size Chunking.seps [x :: xs] = ok out)
    by exact Hrun.
  unfold str, char in *. rewrite Heq.
  cbn [bind ok]. eexists. split; [reflexivity|].
  apply (with_overlap_bound chunk_size overlap) in Hall.
  apply Forall_forall. intros c Hin.
  apply list_elem_of_In, in_map_iff in Hin as (c0 & <- & Hin).
  apply List.filter_In in Hin as [Hin Hne]. apply list_elem_of_In in Hin.
  split; [by destruct (strip c0)|]. split; [apply strip_idemp|].
  rewrite Forall_forall in Hall. specialize (Hall c0 Hin).
  pose proof (strip_length c0). lia.
Qed.

Lemma recursive_chunks_are_bounded_witness :
  0 < 6
  /\ exists chunks,
       Chunking.recursive_chunk_text (lit "ab cd. ef gh; ij kl mn") 6 2 = ok chunks
       /\ Forall (fun c => c <> [] /\ strip c = c
                           /\ Z.of_nat (length c) <= 6 + Z.max 2 0) chunks.
Proof.
  assert (H : 0 < 6) by lia.
  split; [exact H|].
  exact (recursive_chunks_are_bounded (lit "ab cd. ef gh; ij kl mn") 6 2 H).
Defined.

(** X4.  A text that fits into one chunk once its surrounding white
    space is removed is returned by [recursive_chunk_text] as that one
    chunk, and a blank text gives no chunk. *)
Theorem recursive_keeps_short_text_whole (text : str) (chunk_size overlap : Z) :
  Z.of_nat (length (strip text)) <= chunk_size ->
  Chunking.recursive_chunk_text text chunk_size overlap
    = ok (match strip text with [] => [] | t => [t] end).
Proof.
  intros Hl. unfold Chunking.recursive_chunk_text.
  destruct text as [|x xs]; [reflexivity|].
  cbv beta iota.
  destruct (strip (x :: xs)) as [|y ys] eqn:Hs.
  - rewrite split_passes_blank by done. reflexivity.
  - assert (Hfirst : Chunking.split_pass chunk_size [10; 10]%N [x :: xs] = ok [y :: ys]).
    { cbn [Chunking.split_pass]. rewrite Hs.
      destruct (Z.leb_spec (Z.of_nat (length (y :: ys))) chunk_size); [|lia].
      reflexivity. }
    unfold Chunking.seps. cbn [Chunking.split_passes].
    unfold str, char in *. rewrite Hfirst. cbn [bind ok].
    assert (Hid : strip (y :: ys) = y :: ys) by (rewrite <- Hs; apply strip_idemp).
    pose proof (split_passes_short chunk_size
                  [[10]; [12290]; [65281]; [65311]; [46]; [1563]; [59]; [32]; []]%N
                  (y :: ys) Hid ltac:(done) Hl) as Hrest.
    cbn [Chunking.split_passes] in Hrest |- *.
    unfold str, char in *. rewrite Hrest. cbn [bind ok].
    cbn [Chunking.with_overlap List.filter]. rewrite Hid.
    cbn [nonempty List.map]. rewrite Hid. reflexivity.
Qed.

Lemma recursive_keeps_short_text_whole_witness :
  Z.of_nat (length (strip (lit "  one short line  "))) <= 4000
  /\ Chunking.recursive_chunk_text (lit "  one short line  ") 4000 200
     = ok [lit "one short line"].
Proof.
  assert (H : Z.of_nat (length (strip (lit "  one short line  "))) <= 4000)
    by (vm_compute; discriminate).
  split; [exact H|].
  rewrite (recursive_keeps_short_text_whole (lit "  one short line  ") 4000 200 H).
  vm_compute. reflexivity.
Defined.
Section HeaderWords.
Import ChunkFunc.
Implicit Types (w : str) (words : list str) (c : N).

Ltac concrete_forall := apply (bool_decide_unpack _); by vm_compute.

Lemma token_word c : token_char c -> word_char c.
Proof. intros (? & _ & ?). by split. Qed.

Lemma word_no_space w : Forall word_char w -> Forall (fun c => isspace c = false) w.
Proof. intros H. eapply Forall_impl; [exact H|]. by intros c (? & _). Qed.

Lemma join_cons2 sep w1 w2 words :
  join sep (w1 :: w2 :: words) = w1 ++ sep ++ join sep (w2 :: words).
Proof. reflexivity. Qed.

Lemma join_word_chars words :
  Forall header_word words ->
  Forall (fun c => c = 32%N \/ word_char c) (join [32%N] words).
Proof.
  induction words as [|w1 [|w2 words] IH]; intros Hall.
  - constructor.
  - inversion Hall as [|? ? [_ Hw] _]; subst. cbn [join].
    eapply Forall_impl; [exact Hw|]. naive_solver.
  - inversion Hall as [|? ? [_ Hw] Hrest]; subst. rewrite join_cons2.
    rewrite !Forall_app. split_and!.
    + eapply Forall_impl; [exact Hw|]. naive_solver.
    + repeat constructor.
    + by apply IH.
Qed.

Lemma join_words_head words :
  words <> [] -> Forall header_word words ->
  exists c m, join [32%N] words = c :: m /\ word_char c.
Proof.
  intros Hne Hall. destruct words as [|w1 words]; [done|].
  inversion Hall as [|? ? [Hw1 Fw1] _]; subst.
  destruct w1 as [|c w1]; [done|]. inversion Fw1; subst.
  destruct words; [by exists c, w1|]. rewrite join_cons2. by eexists c, _.
Qed.

Lemma join_words_last words :
  words <> [] -> Forall header_word words ->
  exists m d, join [32%N] words = m ++ [d] /\ word_char d.
Proof.
  induction words as [|w1 [|w2 words] IH]; intros Hne Hall; [done| |].
  - inversion Hall as [|? ? [Hw1 Fw1] _]; subst. cbn [join].
    destruct (exists_last Hw1) as (m & d & ->). exists m, d. split; [done|].
    rewrite Forall_app, Forall_singleton in Fw1. tauto.
  - inversion Hall as [|? ? _ Hrest]; subst.
    destruct (IH ltac:(done) Hrest) as (m & d & Hm & Hd).
    rewrite join_cons2, Hm. exists (w1 ++ [32%N] ++ m), d.
    by rewrite <- !app_assoc.
Qed.

(** [split()] finds the words of a line whose words are separated by
    single spaces. *)
Lemma split_ws_join words :
  Forall header_word words -> split_ws (join [32%N] words) = words.
Proof.
  unfold split_ws.
  induction words as [|w1 [|w2 words] IH]; intros Hall.
  - reflexivity.
  - inversion Hall as [|? ? [Hw Fw] _]; subst. cbn [join].
    rewrite fields_no_sep by (by apply word_no_space).
    by destruct w1.
  - inversion Hall as [|? ? [Hw Fw] Hrest]; subst. rewrite join_cons2.
    change (w1 ++ [32%N] ++ join [32%N] (w2 :: words))
      with (w1 ++ 32%N :: join [32%N] (w2 :: words)).
    rewrite fields_sep; [| by apply word_no_space | reflexivity].
    cbn [List.filter]. rewrite IH by done. by destruct w1.
Qed.

Lemma word_chars_no_break (s : str) :
  Forall (fun c => c = 32%N \/ word_char c) s ->
  Forall (fun c => is_linebreak c = false) s.
Proof.
  intros H. eapply Forall_impl; [exact H|]. intros c [->|[Hc _]]; [reflexivity|].
  by apply isspace_linebreak.
Qed.

(** The dictionary read from a chunk whose first line is a header made
    of words. *)
Lemma parse_header_of_words cfg words raw :
  META_PREFIX cfg = lit "[[META" ->
  words <> [] -> Forall header_word words ->
  parse_meta_header cfg (header_of_words words ++ 10%N :: raw)
    = page_to_int (foldl add_token ∅ words).
Proof.
  intros Hp Hne Hall. unfold parse_meta_header. rewrite Hp.
  destruct (join_words_last words Hne Hall) as (m & d & Hm & Hd).
  destruct (join_words_head words Hne Hall) as (c & m' & Hm' & Hc).
  pose proof (join_word_chars words Hall) as Hchars.
  set (line := header_of_words words).
  assert (Hline : Forall (fun c => is_linebreak c = false) line).
  { subst line. unfold header_of_words. rewrite !Forall_app. split_and!;
      try concrete_forall. by apply word_chars_no_break. }
  rewrite splitlines_first by done.
  assert (Hstrip : strip line = line).
  { subst line. unfold header_of_words.
    replace (lit "[[META" ++ [32%N] ++ join [32%N] words ++ lit "]]")
      with (91%N :: (List.tl (lit "[[META") ++ [32%N] ++ join [32%N] words ++ [93%N])
              ++ [93%N])
      by (rewrite <- !app_assoc; reflexivity).
    by apply strip_plain. }
  rewrite Hstrip.
  replace (line ++ 10%N :: raw) with (91%N :: (List.tl line ++ 10%N :: raw))
    by reflexivity.
  cbv iota.
  assert (startswith line (lit "[[META") = true) as -> by reflexivity.
  assert (endswith line (lit "]]") = true) as ->.
  { subst line. unfold header_of_words. rewrite !app_assoc. apply endswith_app. }
  cbv iota. simpl andb. cbv iota.
  assert (drop (length (lit "[[META")) line = (32%N :: m) ++ [d] ++ lit "]]") as ->.
  { subst line. unfold header_of_words. rewrite Hm, <- !app_assoc. reflexivity. }
  rewrite rstrip_chars_last.
  2:{ destruct Hd as (_ & Hd). vm_compute lit.
      rewrite !elem_of_cons, elem_of_nil. naive_solver. }
  2:{ concrete_forall. }
  assert (strip ((32%N :: m) ++ [d]) = join [32%N] words) as ->.
  { unfold strip. rewrite rstrip_last by apply Hd.
    change ((32%N :: m) ++ [d]) with (32%N :: (m ++ [d])). rewrite <- Hm, Hm'.
    unfold lstrip. cbn [drop_while].
    change (isspace 32%N) with true. cbv iota.
    change (drop_while isspace (c :: m')) with (lstrip (c :: m')).
    apply lstrip_head, Hc. }
  by rewrite split_ws_join.
Qed.

Lemma add_token_plain meta w :
  Forall token_char w -> add_token meta w = meta.
Proof.
  intros Hw. unfold add_token, contains_char.
  rewrite bool_decide_eq_false_2; [done|].
  intros Hin. rewrite Forall_forall in Hw. by destruct (Hw _ Hin) as (_ & ? & _).
Qed.

Lemma header_value_plain (v : str) :
  v <> [] -> Forall (fun c => c = 32%N \/ word_char c) v ->
  (exists c m, v = c :: m /\ isspace c = false) ->
  (exists m d, v = m ++ [d] /\ isspace d = false) ->
  (length v <= 120)%nat ->
  header_value (VStr v) = v.
Proof.
  intros Hne Hchars (c & m & Hv & Hc) (m' & d & Hv' & Hd) Hlen.
  unfold header_value. cbn [to_str].
  rewrite (replace_char_absent 93%N).
  2:{ eapply Forall_impl; [exact Hchars|]. intros x [->|[_ ?]]; done. }
  rewrite (replace_char_absent 10%N).
  2:{ eapply Forall_impl; [exact Hchars|]. intros x [->|[Hx _]]; [done|].
      intros ->. by vm_compute in Hx. }
  assert (Hs : strip v = v).
  { destruct m' as [|x m'].
    - rewrite Hv'. by apply strip_single.
    - rewrite Hv' in Hv. simpl in Hv. injection Hv as -> Hm.
      rewrite Hv'. by apply (strip_plain c m' d). }
  rewrite Hs. destruct (Nat.ltb_spec 120 (length v)); [lia|]. reflexivity.
Qed.

Lemma header_value_word w :
  header_word w -> (length w <= 120)%nat -> header_value (VStr w) = w.
Proof.
  intros [Hne Hw] Hlen. apply header_value_plain; try done.
  - eapply Forall_impl; [exact Hw|]. naive_solver.
  - destruct w as [|c m]; [done|]. inversion Hw as [|? ? [Hc _] _]; subst. by exists c, m.
  - destruct (exists_last Hne) as (m & d & ->).
    rewrite Forall_app, Forall_singleton in Hw. destruct Hw as [_ [Hd _]]. by exists m, d.
Qed.

Lemma header_value_page (p : Z) :
  (length (str_of_int p) <= 120)%nat ->
  header_value (VInt p) = str_of_int p.
Proof.
  intros Hlen. pose proof (str_of_int_chars p) as Hc. unfold header_value. cbn [to_str].
  rewrite (replace_char_absent 93%N).
  2:{ eapply Forall_impl; [exact Hc|]. intros c H. by apply header_char_plain. }
  rewrite (replace_char_absent 10%N).
  2:{ eapply Forall_impl; [exact Hc|]. intros c H. by apply header_char_plain. }
  rewrite strip_no_space.
  2:{ eapply Forall_impl; [exact Hc|]. intros c H. by apply header_char_plain. }
  destruct (Nat.ltb_spec 120 (length (str_of_int p))); [lia|]. reflexivity.
Qed.
End HeaderWords.
Section HeaderRoundTrip.
Import ChunkFunc.
Implicit Types (w ty : str) (words ws : list str) (c : N) (p : Z).

Ltac concrete_forall := apply (bool_decide_unpack _); by vm_compute.

Lemma foldl_add_token_plain ws meta :
  Forall (fun w => Forall token_char w) ws -> foldl add_token meta ws = meta.
Proof.
  revert meta. induction ws as [|w ws IH]; intros meta Hall; [reflexivity|].
  inversion Hall; subst. cbn [foldl]. rewrite add_token_plain by done. by apply IH.
Qed.

Lemma key_value_word (k v : str) :
  k <> [] -> Forall token_char k -> Forall word_char v ->
  header_word (k ++ 61%N :: v).
Proof.
  intros Hk Fk Fv. split; [by destruct k|].
  apply Forall_app. split.
  - eapply Forall_impl; [exact Fk|]. apply token_word.
  - constructor; [by split|exact Fv].
Qed.

Lemma page_word p : Forall word_char (str_of_int p).
Proof.
  eapply Forall_impl; [apply str_of_int_chars|].
  intros c Hc. apply token_word, header_char_token, Hc.
Qed.

Lemma token_words_are_words ws :
  Forall (fun w => w <> [] /\ Forall token_char w) ws -> Forall header_word ws.
Proof.
  intros H. eapply Forall_impl; [exact H|]. intros w [? Hw]. split; [done|].
  eapply Forall_impl; [exact Hw|]. apply token_word.
Qed.

(** What [parse_meta_header] reads from the three fields of a header
    followed by further words that hold no equals sign. *)
Lemma parse_three_fields cfg ty p w ws raw :
  META_PREFIX cfg = lit "[[META" ->
  ty <> [] -> Forall token_char ty ->
  w <> [] -> Forall token_char w ->
  Forall (fun w => w <> [] /\ Forall token_char w) ws ->
  parse_meta_header cfg
    (header_of_words ([lit "type" ++ 61%N :: ty;
                       lit "page" ++ 61%N :: str_of_int p;
                       lit "caption" ++ 61%N :: w] ++ ws) ++ 10%N :: raw)
    = <[lit "type" := VStr ty]>
        (<[lit "page" := VInt p]> (<[lit "caption" := VStr w]> ∅)).
Proof.
  intros Hp Hty Fty Hw Fw Hws.
  assert (Fw' : Forall word_char w) by (eapply Forall_impl; [exact Fw|]; apply token_word).
  assert (Fty' : Forall word_char ty) by (eapply Forall_impl; [exact Fty|]; apply token_word).
  rewrite parse_header_of_words; [|exact Hp|done|].
  2:{ apply Forall_app. split; [|by apply token_words_are_words].
      repeat constructor; try (by destruct ty); try (by destruct w); try done;
        try (apply Forall_app; split; [unfold word_char; concrete_forall|]);
        try (constructor; [by split|]); try done; apply page_word. }
  rewrite foldl_app. cbn [foldl].
  rewrite !add_token_kv by concrete_forall.
  rewrite foldl_add_token_plain
    by (eapply Forall_impl; [exact Hws|]; by intros ? [_ ?]).
  rewrite (strip_no_space ty), (strip_no_space w), (strip_no_space (str_of_int p))
    by (apply word_no_space; first [done | apply page_word]).
  change (strip (lit "type")) with (lit "type").
  change (strip (lit "page")) with (lit "page").
  change (strip (lit "caption")) with (lit "caption").
  assert (Hpc : lit "page" <> lit "caption") by (by vm_compute).
  assert (Hpt : lit "page" <> lit "type") by (by vm_compute).
  assert (Htc : lit "type" <> lit "caption") by (by vm_compute).
  unfold page_to_int.
  rewrite lookup_insert_ne, lookup_insert_eq by done.
  cbn [to_str]. rewrite int_of_str_of_int.
  apply map_eq. intros k.
  destruct (decide (k = lit "type")) as [->|Hk1].
  { rewrite lookup_insert_eq, lookup_insert_ne, lookup_insert_ne, lookup_insert_ne,
      lookup_insert_eq by done. reflexivity. }
  destruct (decide (k = lit "page")) as [->|Hk2].
  { rewrite lookup_insert_eq, lookup_insert_ne, lookup_insert_eq by done. reflexivity. }
  destruct (decide (k = lit "caption")) as [->|Hk3].
  { rewrite lookup_insert_ne, lookup_insert_eq by done.
    rewrite !lookup_insert_ne, lookup_insert_eq by done. reflexivity. }
  by rewrite !lookup_insert_ne by done.
Qed.

Lemma join_caption (a b k w : str) ws :
  join [32%N] [a; b; k ++ join [32%N] (w :: ws)]
    = join [32%N] ([a; b; k ++ w] ++ ws).
Proof.
  destruct ws as [|w2 ws]; [reflexivity|].
  cbn [app]. rewrite !join_cons2. cbn [join]. by rewrite <- !app_assoc.
Qed.
End HeaderRoundTrip.

(** X5.  A header written by [build_meta_header] is read back by
    [parse_meta_header]: for a type that is one word of at most 120
    characters without an equals sign or a closing bracket, and a page
    number of at most 120 digits, the chunk made of the header and any
    body parses to exactly that type and that page number. *)
Theorem header_round_trip (cfg : Config) (ty : str) (p : Z) (body : str) :
  META_PREFIX cfg = lit "[[META" ->
  ty <> [] -> Forall token_char ty -> (length ty <= 120)%nat ->
  (length (str_of_int p) <= 120)%nat ->
  ChunkFunc.parse_meta_header cfg
    (ChunkFunc.build_meta_header cfg (Some (ChunkFunc.VStr ty))
       (Some (ChunkFunc.VInt p)) None ++ 10%N :: body)
    = <[lit "type" := ChunkFunc.VStr ty]> (<[lit "page" := ChunkFunc.VInt p]> ∅).
Proof.
  intros Hp Hty Fty Lty Lp.
  assert (Hb : ChunkFunc.build_meta_header cfg (Some (ChunkFunc.VStr ty))
                 (Some (ChunkFunc.VInt p)) None
               = header_line ty (str_of_int p)).
  { unfold ChunkFunc.build_meta_header, ChunkFunc.header_part, header_line.
    rewrite Hp, header_value_page by done.
    rewrite header_value_word; [|split; [done|]|done].
    2:{ eapply Forall_impl; [exact Fty|]. apply token_word. }
    destruct ty as [|c ty]; [done|]. cbn [app join]. rewrite <- !app_assoc. reflexivity. }
  rewrite Hb, parse_header_line; try done.
  2:{ apply str_of_int_nonempty. }
  2:{ eapply Forall_impl; [apply str_of_int_chars|]. apply header_char_token. }
  unfold ChunkFunc.page_to_int. rewrite lookup_insert_eq. cbn [ChunkFunc.to_str].
  rewrite int_of_str_of_int, insert_insert_eq.
  apply insert_insert_ne. by vm_compute.
Qed.

Lemma header_round_trip_witness :
  META_PREFIX default_config = lit "[[META"
  /\ ChunkFunc.parse_meta_header default_config
       (ChunkFunc.build_meta_header default_config
          (Some (ChunkFunc.VStr (lit "Tables"))) (Some (ChunkFunc.VInt 12)) None
        ++ 10%N :: lit "a | b")
     = <[lit "type" := ChunkFunc.VStr (lit "Tables")]>
         (<[lit "page" := ChunkFunc.VInt 12]> ∅).
Proof.
  assert (H1 : META_PREFIX default_config = lit "[[META") by reflexivity.
  split; [exact H1|].
  apply (header_round_trip default_config (lit "Tables") 12 (lit "a | b") H1).
  - by vm_compute.
  - unfold token_char. apply (bool_decide_unpack _). by vm_compute.
  - vm_compute. lia.
  - vm_compute. lia.
Defined.

(** X6.  Of a caption the header keeps the first word only: when the
    caption written by [build_meta_header] is made of words separated
    by single spaces (at most 120 characters, no equals sign or closing
    bracket), [parse_meta_header] reads back the type, the page number
    and, as caption, the first word. *)
Theorem caption_is_cut_to_its_first_word
    (cfg : Config) (ty : str) (p : Z) (w : str) (ws : list str) (body : str) :
  META_PREFIX cfg = lit "[[META" ->
  ty <> [] -> Forall token_char ty -> (length ty <= 120)%nat ->
  (length (str_of_int p) <= 120)%nat ->
  Forall (fun w => w <> [] /\ Forall token_char w) (w :: ws) ->
  (length (join [32%N] (w :: ws)) <= 120)%nat ->
  ChunkFunc.parse_meta_header cfg
    (ChunkFunc.build_meta_header cfg (Some (ChunkFunc.VStr ty))
       (Some (ChunkFunc.VInt p)) (Some (ChunkFunc.VStr (join [32%N] (w :: ws))))
     ++ 10%N :: body)
    = <[lit "type" := ChunkFunc.VStr ty]>
        (<[lit "page" := ChunkFunc.VInt p]>
           (<[lit "caption" := ChunkFunc.VStr w]> ∅)).
Proof.
  intros Hp Hty Fty Lty Lp Hws Lcap.
  inversion Hws as [|? ? [Hw Fw] Hrest]; subst.
  pose proof (token_words_are_words _ Hws) as Hwords.
  destruct (join_words_head (w :: ws) ltac:(done) Hwords) as (c & m & Hm & Hc).
  destruct (join_words_last (w :: ws) ltac:(done) Hwords) as (m' & d & Hm' & Hd).
  assert (Hcap : ChunkFunc.header_value (ChunkFunc.VStr (join [32%N] (w :: ws)))
                 = join [32%N] (w :: ws)).
  { apply header_value_plain; try done.
    - by rewrite Hm.
    - by apply join_word_chars.
    - exists c, m. split; [done|apply Hc].
    - exists m', d. split; [done|apply Hd]. }
  assert (Hb : ChunkFunc.build_meta_header cfg (Some (ChunkFunc.VStr ty))
                 (Some (ChunkFunc.VInt p))
                 (Some (ChunkFunc.VStr (join [32%N] (w :: ws))))
               = header_of_words ([lit "type" ++ 61%N :: ty;
                                   lit "page" ++ 61%N :: str_of_int p;
                                   lit "caption" ++ 61%N :: w] ++ ws)).
  { unfold ChunkFunc.build_meta_header, header_of_words. rewrite Hp.
    assert (Hparts :
      ChunkFunc.header_part (lit "type") (Some (ChunkFunc.VStr ty))
        ++ ChunkFunc.header_part (lit "page") (Some (ChunkFunc.VInt p))
        ++ ChunkFunc.header_part (lit "caption")
             (Some (ChunkFunc.VStr (join [32%N] (w :: ws))))
      = [lit "type" ++ 61%N :: ty; lit "page" ++ 61%N :: str_of_int p;
         (lit "caption" ++ [61%N]) ++ join [32%N] (w :: ws)]).
    { unfold ChunkFunc.header_part. rewrite Hcap, header_value_page by done.
      rewrite header_value_word; [|split; [done|]|done].
      2:{ eapply Forall_impl; [exact Fty|]. apply token_word. }
      rewrite Hm. destruct ty as [|c0 ty]; [done|].
      cbn [app]. rewrite <- !app_assoc. reflexivity. }
    rewrite Hparts, join_caption. rewrite <- !app_assoc. reflexivity. }
  rewrite Hb. by apply parse_three_fields.
Qed.

Lemma caption_is_cut_to_its_first_word_witness :
  META_PREFIX default_config = lit "[[META"
  /\ ChunkFunc.parse_meta_header default_config
       (ChunkFunc.build_meta_header default_config
          (Some (ChunkFunc.VStr (lit "table"))) (Some (ChunkFunc.VInt 7))
          (Some (ChunkFunc.VStr (join [32%N] [lit "Sales"; lit "by"; lit "region"])))
        ++ 10%N :: lit "a | b")
     = <[lit "type" := ChunkFunc.VStr (lit "table")]>
         (<[lit "page" := ChunkFunc.VInt 7]>
            (<[lit "caption" := ChunkFunc.VStr (lit "Sales")]> ∅)).
Proof.
  assert (H1 : META_PREFIX default_config = lit "[[META") by reflexivity.
  split; [exact H1|].
  apply (caption_is_cut_to_its_first_word default_config (lit "table") 7
           (lit "Sales") [lit "by"; lit "region"] (lit "a | b") H1).
  - by vm_compute.
  - unfold token_char. apply (bool_decide_unpack _). by vm_compute.
  - vm_compute. lia.
  - vm_compute. lia.
  - unfold token_char. apply (bool_decide_unpack _). by vm_compute.
  - vm_compute. lia.
Defined.
Section HeaderlessFacts.
Import ChunkFunc.
Implicit Types (h : Hit) (hits : list Hit).

Lemma headerless_key cfg h :
  headerless cfg (text_or_empty h) -> hit_key cfg h = lit "text:None".
Proof.
  intros Hh. unfold hit_key.
  assert (parse_meta_header cfg (text_or_empty h) = ∅) as ->; [|reflexivity].
  unfold parse_meta_header. destruct Hh as [->|Hs]; [reflexivity|].
  destruct (text_or_empty h); [reflexivity|]. by rewrite Hs.
Qed.

Lemma first_seen_from_all_seen {A} `{EqDecision A} (seen l : list A) :
  (forall x, x ∈ l -> x ∈ seen) -> first_seen_from seen l = [].
Proof.
  induction l as [|x l IH]; intros Hall; [reflexivity|]. cbn [first_seen_from].
  rewrite bool_decide_eq_true_2 by (apply Hall; by left).
  apply IH. intros y Hy. apply Hall. by right.
Qed.

Lemma filter_all {A} (f : A -> bool) (l : list A) :
  (forall x, x ∈ l -> f x = true) -> List.filter f l = l.
Proof.
  induction l as [|x l IH]; intros Hall; [reflexivity|]. cbn [List.filter].
  rewrite Hall by (by left). f_equal. apply IH. intros y Hy. apply Hall. by right.
Qed.

Lemma absorb_ids cfg h hits :
  chunk_id (foldl (absorb cfg) h hits) = chunk_id h
  /\ doc_id (foldl (absorb cfg) h hits) = doc_id h
  /\ version_id (foldl (absorb cfg) h hits) = version_id h
  /\ score (foldl (absorb cfg) h hits) = score h.
Proof.
  revert h. induction hits as [|x hits IH]; intros h; [done|].
  cbn [foldl]. destruct (IH (absorb cfg h x)) as (-> & -> & -> & ->). done.
Qed.

Lemma cap_text_ids cfg h :
  chunk_id (cap_text cfg h) = chunk_id h /\ doc_id (cap_text cfg h) = doc_id h
  /\ version_id (cap_text cfg h) = version_id h /\ score (cap_text cfg h) = score h.
Proof. unfold cap_text. by destruct (_ && _). Qed.
End HeaderlessFacts.

(** X7.  Candidates without header line all share the key of the
    page-less text block, so [merge_hits_by_page_or_caption] collapses
    any non-empty list of them into one record: the first candidate,
    with the texts of all the others appended in input order and the
    result cut at the ceiling. *)
Theorem headerless_hits_merge_into_one (cfg : Config) (h : Hit) (hits : list Hit) :
  (forall x, x ∈ h :: hits -> headerless cfg (text_or_empty x)) ->
  let record := ChunkFunc.cap_text cfg (foldl (absorb cfg) h hits) in
  ChunkFunc.merge_hits_by_page_or_caption cfg (h :: hits) = [record]
  /\ chunk_id record = chunk_id h /\ doc_id record = doc_id h.
Proof.
  intros Hall record.
  assert (Hkeys : forall x, x ∈ h :: hits -> ChunkFunc.hit_key cfg x = lit "text:None").
  { intros x Hx. by apply headerless_key, Hall. }
  split.
  - rewrite merge_hits_spec. unfold spec_merge. rewrite fmap_cons.
    unfold first_seen. cbn [first_seen_from].
    rewrite bool_decide_eq_false_2 by apply not_elem_of_nil.
    rewrite first_seen_from_all_seen.
    2:{ intros k Hk. apply list_elem_of_fmap in Hk as (x & -> & Hx).
        rewrite Hkeys by (by right). rewrite Hkeys by (by left). by left. }
    cbn [omap list_omap]. unfold group. rewrite filter_all.
    2:{ intros x Hx. apply bool_decide_eq_true_2.
        rewrite (Hkeys x Hx). symmetry. apply Hkeys. by left. }
    reflexivity.
  - subst record. destruct (cap_text_ids cfg (foldl (absorb cfg) h hits)) as (-> & -> & _).
    destruct (absorb_ids cfg h hits) as (-> & -> & _). done.
Qed.

Lemma headerless_hits_merge_into_one_witness :
  (forall x,
      x ∈ [hit_of_text (lit "c1") (lit "first part");
           hit_of_text (lit "c2") (lit "an unrelated part")] ->
      headerless default_config (text_or_empty x))
  /\ length (ChunkFunc.merge_hits_by_page_or_caption default_config
               [hit_of_text (lit "c1") (lit "first part");
                hit_of_text (lit "c2") (lit "an unrelated part")]) = 1%nat.
Proof.
  assert (H : forall x,
             x ∈ [hit_of_text (lit "c1") (lit "first part");
                  hit_of_text (lit "c2") (lit "an unrelated part")] ->
             headerless default_config (text_or_empty x)).
  { intros x Hx. right. rewrite !elem_of_cons, elem_of_nil in Hx.
    destruct Hx as [->|[->|[]]]; by vm_compute. }
  split; [exact H|].
  rewrite (proj1 (headerless_hits_merge_into_one default_config _ _ H)).
  reflexivity.
Defined.
Section RerankFacts.
Import Rerank.
Implicit Types (hits : list Hit) (docs : list (option str)) (st : list nat * gset nat).

Lemma index_of_lt d docs i : index_of d docs = Some i -> (i < length docs)%nat.
Proof.
  revert i. induction docs as [|x docs IH]; intros i; [done|]. cbn [index_of].
  case_bool_decide; [intros [= <-]; simpl; lia|].
  destruct (index_of d docs) as [j|]; [|done]. intros [= <-].
  specialize (IH j eq_refl). simpl. lia.
Qed.

Lemma index_of_lookup d docs i : index_of d docs = Some i -> docs !! i = Some d.
Proof.
  revert i. induction docs as [|x docs IH]; intros i; [done|]. cbn [index_of].
  case_bool_decide as Hx; [intros [= <-]; by rewrite Hx|].
  destruct (index_of d docs) as [j|]; [|done]. intros [= <-]. by apply IH.
Qed.

Lemma order_ok_empty n : order_ok n ([], ∅).
Proof. split; [constructor|]. split; [|constructor]. intros i. set_solver. Qed.

Lemma order_ok_push n st i :
  order_ok n st -> i ∉ st.2 -> (i < n)%nat -> order_ok n (st.1 ++ [i], {[i]} ∪ st.2).
Proof.
  intros (Hnd & Hset & Hlt) Hi Hn. split; [|split]; cbn [fst snd].
  - apply NoDup_app. split; [done|]. split; [|apply NoDup_singleton].
    intros x Hx. rewrite list_elem_of_singleton. intros ->. by apply Hi, Hset.
  - intros x. rewrite elem_of_app, list_elem_of_singleton, elem_of_union, elem_of_singleton.
    rewrite Hset. tauto.
  - apply Forall_app. split; [done|]. by apply Forall_singleton.
Qed.

Lemma take_item_ok min_score docs st item :
  order_ok (length docs) st -> order_ok (length docs) (take_item min_score docs st item).
Proof.
  intros Hok. unfold take_item. destruct (doc item); [|done].
  destruct (match min_score with Some m => _ | None => _ end); [done|].
  destruct (index_of _ docs) as [i|] eqn:Hi; [|done].
  case_bool_decide; [done|].
  apply order_ok_push; [done..|]. by eapply index_of_lt.
Qed.

Lemma fold_take_item_ok min_score docs results st :
  order_ok (length docs) st ->
  order_ok (length docs) (foldl (take_item min_score docs) st results).
Proof.
  revert st. induction results as [|item results IH]; intros st Hok; [done|].
  cbn [foldl]. by apply IH, take_item_ok.
Qed.

Lemma take_index_is_take_item docs st item :
  RerankOrder.take_index docs st item = take_item None docs st item.
Proof. unfold RerankOrder.take_index, take_item. by destruct (doc item). Qed.

Lemma fold_take_index docs results st :
  foldl (RerankOrder.take_index docs) st results
    = foldl (take_item None docs) st results.
Proof.
  revert st. induction results as [|item results IH]; intros st; [done|].
  cbn [foldl]. by rewrite take_index_is_take_item, IH.
Qed.

Lemma filter_sublist {A} (f : A -> bool) (l : list A) :
  List.filter f l `sublist_of` l.
Proof.
  induction l as [|x l IH]; [constructor|]. cbn [List.filter].
  destruct (f x); by constructor.
Qed.

(** The positions a loop has gathered, completed by the ones it has
    not: every position once. *)
Lemma order_completed n st :
  order_ok n st ->
  st.1 ++ List.filter (fun i => negb (bool_decide (i ∈ st.2))) (seq 0 n)
    ≡ₚ seq 0 n.
Proof.
  intros (Hnd & Hset & Hlt). apply NoDup_Permutation.
  - apply NoDup_app. split; [done|]. split.
    + intros x Hx Hf. apply list_elem_of_In, List.filter_In in Hf as [_ Hf].
      apply negb_true_iff, bool_decide_eq_false in Hf. by apply Hf, Hset.
    + eapply sublist_NoDup; [apply NoDup_seq|apply filter_sublist].
  - apply NoDup_seq.
  - intros x. rewrite elem_of_app, elem_of_seq. split.
    + intros [Hx|Hx].
      * rewrite Forall_forall in Hlt. specialize (Hlt x Hx). lia.
      * apply list_elem_of_In, List.filter_In in Hx as [Hx _].
        apply list_elem_of_In, elem_of_seq in Hx. lia.
    + intros Hx. destruct (decide (x ∈ st.2)) as [Hin|Hin].
      * left. by apply Hset.
      * right. apply list_elem_of_In, List.filter_In. split.
        -- apply list_elem_of_In, elem_of_seq. lia.
        -- by apply negb_true_iff, bool_decide_eq_false.
Qed.

Lemma omap_lookup_seq {A} (l pre : list A) :
  omap ((pre ++ l) !!.) (seq (length pre) (length l)) = l.
Proof.
  revert pre. induction l as [|x l IH]; intros pre; [reflexivity|].
  cbn [length seq omap list_omap].
  rewrite list_lookup_middle by done. f_equal.
  specialize (IH (pre ++ [x])). rewrite <- app_assoc, length_app in IH.
  cbn [app length] in IH. by rewrite Nat.add_1_r in IH.
Qed.

Lemma omap_lookup_all {A} (l : list A) : omap (l !!.) (seq 0 (length l)) = l.
Proof. apply (omap_lookup_seq l []). Qed.

Lemma omap_submseteq {A B} (f : A -> option B) (l k : list A) :
  l ⊆+ k -> omap f l ⊆+ omap f k.
Proof.
  induction 1 as [|x l k _ IH|x y l|x l k _ IH|l k m _ IH1 _ IH2];
    cbn [omap list_omap] in *.
  - constructor.
  - destruct (f x); [by constructor|done].
  - destruct (f x), (f y); try done. by constructor.
  - destruct (f x); [by constructor|done].
  - by etrans.
Qed.

Lemma selection_submseteq {A} (l : list A) (order : list nat) :
  NoDup order -> Forall (fun i => (i < length l)%nat) order ->
  omap (l !!.) order ⊆+ l.
Proof.
  intros Hnd Hlt.
  trans (omap (l !!.) (seq 0 (length l))); [|rewrite omap_lookup_all; reflexivity].
  apply omap_submseteq, NoDup_submseteq; [done|].
  intros i Hi. rewrite Forall_forall in Hlt. apply elem_of_seq.
  specialize (Hlt i Hi). lia.
Qed.
End RerankFacts.

Section RerankHitsFacts.
Import Rerank.

Lemma rerank_hits_facts
    (post : str -> list (option str) -> Z -> result (list Rerank.Item))
    (cfg : Config) (query : str) (hits : list Hit) (top_k : Z) (out : list Hit) :
  Rerank.rerank_hits post cfg query hits top_k = ok out ->
  out ⊆+ hits
  /\ (hits <> [] -> RERANK_MIN_SCORE cfg <> None -> out <> [])
  /\ (RERANK_MIN_SCORE cfg = None -> out ≡ₚ hits).
Proof.
  unfold Rerank.rerank_hits. destruct hits as [|h hits'] eqn:Hh.
  { intros [= <-]. by repeat split. }
  rewrite <- Hh. set (docs := List.map chunk_text hits).
  assert (Hlen : length docs = length hits) by apply length_map.
  destruct (Rerank.rerank_results post query docs top_k) as [e|results]; [done|].
  cbn [bind]. intros [= <-].
  pose proof (fold_take_item_ok (RERANK_MIN_SCORE cfg) docs results _
                (order_ok_empty (length docs))) as Hok.
  set (st := foldl (Rerank.take_item (RERANK_MIN_SCORE cfg) docs) ([], ∅) results) in *.
  destruct Hok as (Hnd & Hset & Hlt). rewrite Hlen in *.
  destruct (RERANK_MIN_SCORE cfg) as [m|] eqn:Hm.
  - split; [|split; [|done]].
    + destruct st.1 as [|i o] eqn:Ho.
      * rewrite omap_lookup_all. reflexivity.
      * by apply selection_submseteq.
    + intros _ _. destruct st.1 as [|i o] eqn:Ho.
      * rewrite omap_lookup_all, Hh. done.
      * inversion Hlt as [|? ? Hi _]; subst.
        apply lookup_lt_is_Some_2 in Hi as [x Hx].
        cbn [omap list_omap]. by rewrite Hx.
  - assert (Hperm : st.1 ++ List.filter (fun i => negb (bool_decide (i ∈ st.2)))
                               (seq 0 (length hits)) ≡ₚ seq 0 (length hits))
      by (by apply order_completed).
    assert (Hout : omap (hits !!.)
                     (st.1 ++ List.filter (fun i => negb (bool_decide (i ∈ st.2)))
                                (seq 0 (length hits))) ≡ₚ hits).
    { rewrite Hperm. by rewrite omap_lookup_all. }
    split; [|split; [done|]].
    + rewrite Hout. reflexivity.
    + intros _. exact Hout.
Qed.
End RerankHitsFacts.

(** X8.  Whatever the scoring service answers, [rerank_hits] hands back
    candidates it was given, none more often than it came in; with a
    score threshold configured the result of a non-empty list is never
    empty, and without a threshold it is a reordering of the whole
    list. *)
Theorem rerank_hits_selects_candidates
    (post : str -> list (option str) -> Z -> result (list Rerank.Item))
    (cfg : Config) (query : str) (hits : list Hit) (top_k : Z) (out : list Hit) :
  Rerank.rerank_hits post cfg query hits top_k = ok out ->
  out ⊆+ hits
  /\ (hits <> [] -> RERANK_MIN_SCORE cfg <> None -> out <> [])
  /\ (RERANK_MIN_SCORE cfg = None -> out ≡ₚ hits).
Proof. apply rerank_hits_facts. Qed.

Lemma rerank_hits_selects_candidates_witness :
  Rerank.rerank_hits (Core.rerank_post (sample_env [])) default_config
    (lit "5G") [sample_hit] 3 = ok [sample_hit]
  /\ [sample_hit] ⊆+ [sample_hit].
Proof.
  assert (H : Rerank.rerank_hits (Core.rerank_post (sample_env [])) default_config
                (lit "5G") [sample_hit] 3 = ok [sample_hit]) by (by vm_compute).
  split; [exact H|].
  exact (proj1 (rerank_hits_selects_candidates _ _ _ _ _ _ H)).
Defined.

(** X9.  Whatever the scoring service answers, [rerank] returns every
    position of the document list exactly once. *)
Theorem rerank_returns_every_position_once
    (post : str -> list (option str) -> Z -> result (list Rerank.Item))
    (query : str) (docs : list (option str)) (top_k : Z) (order : list nat) :
  RerankOrder.rerank post query docs top_k = ok order ->
  order ≡ₚ seq 0 (length docs).
Proof.
  unfold RerankOrder.rerank.
  destruct (Rerank.rerank_results post query docs top_k) as [e|results]; [done|].
  cbn [bind]. intros [= <-]. rewrite fold_take_index.
  apply order_completed, fold_take_item_ok, order_ok_empty.
Qed.

Lemma rerank_returns_every_position_once_witness :
  RerankOrder.rerank (Core.rerank_post (sample_env []))
    (lit "q") [Some (lit "a"); Some (lit "b")] 1 = ok [0; 1]%nat
  /\ [0; 1]%nat ≡ₚ seq 0 2.
Proof.
  assert (H : RerankOrder.rerank (Core.rerank_post (sample_env []))
                (lit "q") [Some (lit "a"); Some (lit "b")] 1 = ok [0; 1]%nat)
    by (by vm_compute).
  split; [exact H|].
  exact (rerank_returns_every_position_once _ _ _ _ _ H).
Defined.
Section ListHelpers.
Context {A B : Type}.

Lemma insert_sorted_ext (leb1 leb2 : A -> A -> bool) x (l : list A) :
  (forall a b, leb1 a b = leb2 a b) -> insert_sorted leb1 x l = insert_sorted leb2 x l.
Proof.
  intros H. induction l as [|y l IH]; [reflexivity|]. cbn [insert_sorted].
  by rewrite H, IH.
Qed.

Lemma sort_by_ext (leb1 leb2 : A -> A -> bool) (l : list A) :
  (forall a b, leb1 a b = leb2 a b) -> sort_by leb1 l = sort_by leb2 l.
Proof.
  intros H. unfold sort_by. induction l as [|x l IH]; [reflexivity|]. cbn [foldr].
  by rewrite IH, (insert_sorted_ext leb1 leb2).
Qed.

Lemma insert_sorted_map (g : A -> B) (leb : B -> B -> bool) x (l : list A) :
  List.map g (insert_sorted (fun a b => leb (g a) (g b)) x l)
    = insert_sorted leb (g x) (List.map g l).
Proof.
  induction l as [|y l IH]; [reflexivity|]. cbn [insert_sorted List.map].
  destruct (leb (g x) (g y)); [reflexivity|]. cbn [List.map]. by rewrite IH.
Qed.

Lemma sort_by_map (g : A -> B) (leb : B -> B -> bool) (l : list A) :
  List.map g (sort_by (fun a b => leb (g a) (g b)) l) = sort_by leb (List.map g l).
Proof.
  unfold sort_by. induction l as [|x l IH]; [reflexivity|]. cbn [foldr List.map].
  by rewrite insert_sorted_map, IH.
Qed.

Lemma slice_to_map (g : A -> B) (k : Z) (l : list A) :
  List.map g (slice_to k l) = slice_to k (List.map g l).
Proof.
  unfold slice_to. rewrite length_map.
  destruct (0 <=? k); apply (fmap_take g).
Qed.

Lemma filter_map_swap (f : B -> bool) (g : A -> B) (l : list A) :
  List.filter f (List.map g l) = List.map g (List.filter (fun a => f (g a)) l).
Proof.
  induction l as [|x l IH]; [reflexivity|]. cbn [List.filter List.map].
  destruct (f (g x)); cbn [List.map]; by rewrite IH.
Qed.

Lemma map_nth_seq (l pre : list A) (d : A) :
  List.map (fun i => nth i (pre ++ l) d) (seq (length pre) (length l)) = l.
Proof.
  revert pre. induction l as [|x l IH]; intros pre; [reflexivity|].
  cbn [length seq List.map]. rewrite app_nth2 by lia. rewrite Nat.sub_diag. cbn [nth].
  f_equal. specialize (IH (pre ++ [x])). rewrite <- app_assoc, length_app in IH.
  cbn [app length] in IH. by rewrite Nat.add_1_r in IH.
Qed.

Lemma map_nth_all (l : list A) (d : A) :
  List.map (fun i => nth i l d) (seq 0 (length l)) = l.
Proof. apply (map_nth_seq l []). Qed.

Lemma nth_zip_snd (l : list A) (k : list B) (a : A) (b : B) i :
  length l = length k -> (nth i (zip l k) (a, b)).2 = nth i k b.
Proof.
  revert k i. induction l as [|x l IH]; intros [|y k] i Hlen; try done.
  - by destruct i.
  - destruct i; [reflexivity|]. cbn [zip zip_with nth]. apply IH.
    simpl in Hlen. lia.
Qed.

Lemma nth_zip_fst (l : list A) (k : list B) (a : A) (b : B) i :
  length l = length k -> (nth i (zip l k) (a, b)).1 = nth i l a.
Proof.
  revert k i. induction l as [|x l IH]; intros [|y k] i Hlen; try done.
  - by destruct i.
  - destruct i; [reflexivity|]. cbn [zip zip_with nth]. apply IH.
    simpl in Hlen. lia.
Qed.

Lemma lookup_nth (l : list A) (d : A) i :
  (i < length l)%nat -> l !! i = Some (nth i l d).
Proof.
  revert i. induction l as [|x l IH]; intros i Hi; [simpl in Hi; lia|].
  destruct i; [reflexivity|]. cbn [nth]. apply IH. simpl in Hi. lia.
Qed.
End ListHelpers.

Section ServedFacts.
Import Rerank.
Variable predict : list (str * str) -> list Q.
Hypothesis predict_length : forall pairs, length (predict pairs) = length pairs.
Implicit Types (hits : list Hit) (ts : list str) (st : list nat * gset nat).

Lemma index_of_nth ts i :
  NoDup ts -> (i < length ts)%nat ->
  index_of (Some (nth i ts [])) (Some <$> ts) = Some i.
Proof.
  revert i. induction ts as [|t ts IH]; intros i Hnd Hi; [simpl in Hi; lia|].
  apply NoDup_cons in Hnd as [Hnot Hnd]. rewrite fmap_cons. cbn [index_of].
  destruct i as [|i]; cbn [nth].
  - by rewrite bool_decide_eq_true_2.
  - rewrite bool_decide_eq_false_2.
    + rewrite IH; [done|done|simpl in Hi; lia].
    + intros [= ->]. apply Hnot. apply list_elem_of_In, nth_In. simpl in Hi. lia.
Qed.

Lemma docs_of_hits hits :
  Forall (fun h => chunk_text h <> None) hits ->
  List.map chunk_text hits = Some <$> (text_or_empty <$> hits).
Proof.
  induction 1 as [|h hits Hh _ IH]; [reflexivity|].
  cbn [List.map]. rewrite !fmap_cons, IH. f_equal.
  unfold text_or_empty. by destruct (chunk_text h).
Qed.

Lemma mapM_id_Some {X} (l : list X) : mapM id (Some <$> l) = Some l.
Proof. induction l as [|x l IH]; [reflexivity|]. rewrite fmap_cons. simpl. by rewrite IH. Qed.

(** What the loop of [rerank_hits] gathers from the answer of the
    service: the positions that pass the threshold, in the order of
    the answer. *)
Lemma fold_served_items min_score ts (scores : list Q) idxs st :
  NoDup ts -> NoDup idxs ->
  (forall i, i ∈ idxs -> i ∉ st.2 /\ (i < length ts)%nat) ->
  let accept i :=
    match min_score with
    | Some m => Qle_bool m (nth i scores 0%Q)
    | None => true
    end in
  (foldl (take_item min_score (Some <$> ts)) st
     (List.map (fun i => {| doc := Some (nth i ts []);
                            item_score := Some (nth i scores 0%Q) |}) idxs)).1
    = st.1 ++ List.filter accept idxs.
Proof.
  intros Hts Hnd Hin accept. revert st Hin.
  induction idxs as [|i idxs IH]; intros st Hin.
  { cbn [List.map foldl List.filter]. by rewrite app_nil_r. }
  apply NoDup_cons in Hnd as [Hi Hnd].
  destruct (Hin i ltac:(by left)) as [Hused Hlt].
  cbn [List.map foldl List.filter].
  assert (Hstep : take_item min_score (Some <$> ts) st
                    {| doc := Some (nth i ts []); item_score := Some (nth i scores 0%Q) |}
                  = if accept i then (st.1 ++ [i], {[i]} ∪ st.2) else st).
  { unfold take_item. cbn [doc item_score]. subst accept. cbv beta.
    destruct min_score as [m|].
    - unfold below. destruct (Qle_bool m (nth i scores 0%Q)); cbn [negb]; [|done].
      rewrite index_of_nth by done. by rewrite bool_decide_eq_false_2.
    - rewrite index_of_nth by done. by rewrite bool_decide_eq_false_2. }
  rewrite Hstep. destruct (accept i).
  - rewrite IH; [cbn [fst]; by rewrite <- app_assoc|done|]. cbn [fst snd].
    intros j Hj. destruct (Hin j ltac:(by right)) as [Hj1 Hj2]. split; [|done].
    rewrite elem_of_union, elem_of_singleton. intros [->|?]; done.
  - apply IH; [done|]. intros j Hj. apply Hin. by right.
Qed.
End ServedFacts.
Section ServedRerank.
Import Rerank.
Variable predict : list (str * str) -> list Q.
Hypothesis predict_length : forall pairs, length (predict pairs) = length pairs.
Implicit Types (hits : list Hit) (ts : list str).

Lemma slice_to_sublist {X} (k : Z) (l : list X) : slice_to k l `sublist_of` l.
Proof. unfold slice_to. destruct (0 <=? k); apply sublist_take. Qed.

Lemma omap_lookup_nth {X} (l : list X) (d : X) (order : list nat) :
  Forall (fun i => (i < length l)%nat) order ->
  omap (l !!.) order = List.map (fun i => nth i l d) order.
Proof.
  induction 1 as [|i order Hi _ IH]; [reflexivity|].
  cbn [omap list_omap List.map]. rewrite (lookup_nth l d i Hi).
  f_equal. exact IH.
Qed.

Lemma imap_ignore {X Y} (f : nat -> X -> Y) (g : X -> Y) (l : list X) :
  (forall n x, f n x = g x) -> imap f l = g <$> l.
Proof. intros H. rewrite <- imap_const. apply imap_ext. intros. apply H. Qed.

(** The positions the service returns, read as candidates with their
    scores, are the best-ranked candidates. *)
Lemma served_positions query h0 hits top_k :
  let ts := text_or_empty <$> hits in
  let scores := predict (List.map (fun d => (query, d)) ts) in
  let top :=
    slice_to (Z.min top_k (Z.of_nat (length hits)))
      (sort_by (fun i j => Qle_bool (nth j scores 0%Q) (nth i scores 0%Q))
         (seq 0 (length scores))) in
  List.map (fun i => nth i (zip hits scores) (h0, 0%Q)) top
    = top_ranked predict query hits top_k.
Proof.
  intros ts scores top. subst top. unfold top_ranked, ranked.
  assert (Hsc : predict (List.map (fun h => (query, text_or_empty h)) hits) = scores).
  { subst scores ts. f_equal. by rewrite List.map_map. }
  rewrite Hsc.
  assert (Hn : length scores = length hits).
  { subst scores ts. by rewrite predict_length, length_map, length_fmap. }
  rewrite slice_to_map. f_equal.
  rewrite (sort_by_ext _
             (fun i j => (fun a b : Hit * Q => Qle_bool b.2 a.2)
                           (nth i (zip hits scores) (h0, 0%Q))
                           (nth j (zip hits scores) (h0, 0%Q)))).
  2:{ intros i j. cbv beta. by rewrite !nth_zip_snd. }
  rewrite (sort_by_map (fun i => nth i (zip hits scores) (h0, 0%Q))
             (fun a b : Hit * Q => Qle_bool b.2 a.2)).
  f_equal.
  assert (Hz : length scores = length (zip hits scores)).
  { rewrite length_zip_with. lia. }
  rewrite Hz. apply map_nth_all.
Qed.
End ServedRerank.

(** X10.  [rerank_hits] in front of the scoring service of the
    repository, when the service answers and the candidates carry
    pairwise different texts: with the threshold [m] configured, the
    result is the candidates the service ranks among its [top_k] best
    (best first, ties in input order) that score at least [m]; when
    none does, the candidates come back unchanged. *)
Theorem served_rerank_keeps_the_best
    (predict : list (str * str) -> list Q) (cfg : Config) (query : str)
    (hits : list Hit) (top_k : Z) (m : Q) :
  (forall pairs, length (predict pairs) = length pairs) ->
  RERANK_MIN_SCORE cfg = Some m ->
  Forall (fun h => chunk_text h <> None) hits ->
  NoDup (text_or_empty <$> hits) ->
  Rerank.rerank_hits (served_post predict) cfg query hits top_k
    = ok (match List.filter (fun a : Hit * Q => Qle_bool m a.2)
                  (top_ranked predict query hits top_k) with
          | [] => hits
          | kept => kept.*1
          end)
  /\ ranked predict query hits
       ≡ₚ zip hits (predict (List.map (fun h => (query, text_or_empty h)) hits))
  /\ StronglySorted (fun a b : Hit * Q => (b.2 <= a.2)%Q) (ranked predict query hits).
Proof.
  intros Hlen Hm Hsome Hnd. split; [|split].
  2:{ apply sort_by_perm. }
  2:{ unfold ranked.
      rewrite <- (list_fmap_id (sort_by _ _)).
      eapply StronglySorted_fmap; [|apply sort_by_sorted].
      - intros a b. cbv beta. by rewrite Qle_bool_iff.
      - intros a b. destruct (Qle_bool b.2 a.2) eqn:E; [by left|right].
        apply Qle_bool_iff. apply not_true_iff_false in E.
        rewrite Qle_bool_iff in E. lra.
      - intros a b c H1 H2. apply Qle_bool_iff. apply Qle_bool_iff in H1, H2. lra. }
  destruct hits as [|h0 hits'] eqn:Hh.
  { unfold top_ranked, ranked, slice_to. cbn [Rerank.rerank_hits zip_with foldr].
    unfold sort_by. cbn [foldr]. destruct (0 <=? _); by rewrite take_nil. }
  rewrite <- Hh in *. unfold Rerank.rerank_hits. rewrite Hh at 1. cbv iota.
  set (ts := text_or_empty <$> hits) in *.
  assert (Hdocs : List.map chunk_text hits = Some <$> ts) by (by apply docs_of_hits).
  rewrite Hdocs.
  assert (Hn : length ts = length hits) by apply length_fmap.
  assert (Hres : Rerank.rerank_results (served_post predict) query (Some <$> ts) top_k
                 = served_post predict query (Some <$> ts) top_k).
  { unfold Rerank.rerank_results. subst ts. rewrite Hh. by rewrite !fmap_cons. }
  rewrite Hres. unfold served_post. rewrite mapM_id_Some.
  unfold RerankApp.rerank.
  set (scores := predict (List.map (fun d => (query, d)) ts)).
  assert (Hsn : length scores = length hits).
  { subst scores. by rewrite Hlen, length_map. }
  set (idx := sort_by (fun i j => Qle_bool (nth j scores 0%Q) (nth i scores 0%Q))
                (seq 0 (length scores))).
  assert (Hperm : idx ≡ₚ seq 0 (length hits)).
  { subst idx. rewrite Hsn. apply sort_by_perm. }
  assert (Hidxlen : Z.of_nat (length idx) = Z.of_nat (length hits)).
  { by rewrite Hperm, length_seq. }
  rewrite Hidxlen.
  set (top := slice_to (Z.min top_k (Z.of_nat (length hits))) idx).
  assert (Htop_sub : top `sublist_of` idx) by apply slice_to_sublist.
  assert (Htop_nd : NoDup top).
  { eapply sublist_NoDup; [|exact Htop_sub]. rewrite Hperm. apply NoDup_seq. }
  assert (Htop_lt : forall i, i ∈ top -> (i < length hits)%nat).
  { intros i Hi. eapply elem_of_sublist in Hi; [|exact Htop_sub].
    rewrite Hperm in Hi. apply elem_of_seq in Hi. lia. }
  assert (Hall : forallb (fun i => (i <? length ts)%nat) top = true).
  { apply forallb_forall. intros i Hi. apply list_elem_of_In, Htop_lt in Hi.
    apply Nat.ltb_lt. lia. }
  rewrite Hall. cbn [bind ok].
  assert (Hitems :
    List.map (fun r => {| Rerank.doc := Some (RerankApp.r_doc r);
                          Rerank.item_score := Some (RerankApp.r_score r) |})
      (imap (fun r i => {| RerankApp.r_doc := nth i ts [];
                           RerankApp.r_score := nth i scores 0%Q;
                           RerankApp.r_rank := Z.of_nat r + 1 |}) top)
    = List.map (fun i => {| Rerank.doc := Some (nth i ts []);
                            Rerank.item_score := Some (nth i scores 0%Q) |}) top).
  { change (List.map ?f (imap ?g top)) with (f <$> imap g top).
    rewrite fmap_imap. by apply imap_ignore. }
  rewrite Hitems, Hm.
  pose proof (fold_served_items (Some m) ts scores top ([], ∅) Hnd Htop_nd) as Hfold.
  cbn [fst snd app] in Hfold. rewrite Hfold.
  2:{ intros i Hi. split; [set_solver|]. rewrite Hn. by apply Htop_lt. }
  pose proof (served_positions predict Hlen query h0 hits top_k) as Hpos.
  cbv zeta in Hpos. fold ts in Hpos. fold scores in Hpos. fold idx in Hpos.
  fold top in Hpos. rewrite <- Hpos.
  rewrite filter_map_swap.
  assert (Hacc : forall i,
             Qle_bool m (nth i (zip hits scores) (h0, 0%Q)).2
             = Qle_bool m (nth i scores 0%Q)).
  { intros i. by rewrite nth_zip_snd. }
  rewrite (List.filter_ext _ _ Hacc).
  set (kept := List.filter (fun i => Qle_bool m (nth i scores 0%Q)) top).
  assert (Hkept_lt : Forall (fun i => (i < length hits)%nat) kept).
  { apply Forall_forall. intros i Hi. apply Htop_lt.
    subst kept. apply list_elem_of_In, List.filter_In in Hi as [Hi _].
    by apply list_elem_of_In. }
  f_equal. destruct kept as [|i o] eqn:Hk.
  - cbn [List.map]. rewrite length_fmap, Hn. apply omap_lookup_all.
  - rewrite <- Hk in *. rewrite (omap_lookup_nth hits h0) by done.
    assert (Hfst : List.map (fun i => nth i (zip hits scores) (h0, 0%Q)) kept
                   = List.map (fun i => (nth i hits h0, nth i scores 0%Q)) kept).
    { apply List.map_ext. intros j.
      rewrite (surjective_pairing (nth j (zip hits scores) (h0, 0%Q))).
      by rewrite nth_zip_fst, nth_zip_snd. }
    rewrite Hfst, Hk. cbn [List.map fmap list_fmap fst]. f_equal.
    clear. induction o as [|j o IH]; [reflexivity|]. cbn [List.map fmap list_fmap fst].
    by rewrite IH.
Qed.

Lemma served_rerank_keeps_the_best_witness :
  (forall pairs, length (sample_predict pairs) = length pairs)
  /\ RERANK_MIN_SCORE default_config = Some (4 # 10)%Q
  /\ Rerank.rerank_hits (served_post sample_predict) default_config (lit "q")
       sample_candidates 2
     = ok [hit_of_text (lit "c2") (lit "abcdefgh"); hit_of_text (lit "c3") (lit "abcde")].
Proof.
  assert (H1 : forall pairs, length (sample_predict pairs) = length pairs)
    by (intros; apply length_map).
  assert (H2 : RERANK_MIN_SCORE default_config = Some (4 # 10)%Q) by reflexivity.
  assert (H3 : Forall (fun h => chunk_text h <> None) sample_candidates)
    by (repeat constructor; discriminate).
  assert (H4 : NoDup (text_or_empty <$> sample_candidates))
    by (apply (bool_decide_unpack _); by vm_compute).
  split; [exact H1|]. split; [exact H2|].
  rewrite (proj1 (served_rerank_keeps_the_best sample_predict default_config (lit "q")
                    sample_candidates 2 (4 # 10)%Q H1 H2 H3 H4)).
  by vm_compute.
Defined.
Section KeyFacts.
Import GraphStore.
Implicit Types (tbl : list Entity) (r : Entity).



Lemma has_edge_key_iff app src dst ty (r : Edge) :
  has_edge_key app src dst ty r = true <-> edge_key r = (app, src, dst, ty).
Proof.
  unfold has_edge_key, edge_key. rewrite bool_decide_eq_true. split.
  - by intros (-> & -> & -> & ->).
  - by intros [= -> -> -> ->].
Qed.

End KeyFacts.




Section QueueFacts.
Import GraphStore.
Implicit Types (jobs : list Job) (j : Job).

Lemma by_age_total a b : by_age a b = true \/ by_age b a = true.
Proof. unfold by_age. rewrite !Z.leb_le. lia. Qed.

Lemma by_age_trans a b c :
  by_age a b = true -> by_age b c = true -> by_age a c = true.
Proof. unfold by_age. rewrite !Z.leb_le. lia. Qed.

Lemma sorted_by_age jobs :
  StronglySorted (fun a b => created_at a <= created_at b) (sort_by by_age jobs).
Proof.
  rewrite <- (list_fmap_id (sort_by by_age jobs)).
  eapply StronglySorted_fmap;
    [|apply (sort_by_sorted by_age by_age_total by_age_trans)].
  intros a b. unfold by_age. by rewrite Z.leb_le.
Qed.

Lemma select_pending_eq jobs ctx limit :
  select_pending jobs ctx limit
    = take (Z.to_nat limit) (sort_by by_age (pending_of jobs ctx)).
Proof. reflexivity. Qed.

Lemma elem_of_pending_of jobs ctx j :
  j ∈ pending_of jobs ctx <->
  j ∈ jobs /\ job_app_id j = app_id ctx /\ status j = pending.
Proof.
  unfold pending_of. rewrite list_elem_of_In, List.filter_In, <- list_elem_of_In.
  rewrite andb_true_iff, !bool_decide_eq_true. tauto.
Qed.

Lemma elem_of_select_pending jobs ctx limit j :
  j ∈ select_pending jobs ctx limit ->
  j ∈ jobs /\ job_app_id j = app_id ctx /\ status j = pending.
Proof.
  rewrite select_pending_eq. intros Hin. apply elem_of_pending_of.
  rewrite <- (sort_by_perm by_age). eapply elem_of_sublist; [done|apply sublist_take].
Qed.

Lemma mark_running_lookup now ids jobs i j :
  jobs !! i = Some j ->
  mark_running now ids jobs !! i
    = Some (if bool_decide (job_id j ∈ ids)
            then set_job_status running (Some now) (finished_at j) (error_message j) j
            else j).
Proof.
  intros Hi. unfold mark_running.
  change (List.map ?f jobs) with (f <$> jobs). by rewrite list_lookup_fmap, Hi.
Qed.

Lemma mark_running_pending now ids jobs j :
  j ∈ mark_running now ids jobs -> status j = pending -> job_id j ∉ ids.
Proof.
  intros Hin Hst Hid.
  pose proof (mark_running_not_pending now ids jobs (job_id j) (or_introl Hid)) as Hf.
  rewrite still_pending_false in Hf. by apply (Hf j).
Qed.
End QueueFacts.

(** X13.  [fetch_pending_jobs], run by one connection with a limit that
    is not negative: it returns the oldest pending jobs of the tenant,
    oldest first, as many as the limit allows; in the table exactly the
    rows carrying the identifier of a returned job are marked running;
    and a later call never returns one of these identifiers again. *)
Theorem fetch_pending_jobs_claims_the_oldest
    (jobs : list GraphStore.Job) (ctx : GraphStore.RlsContext) (now limit : Z) :
  0 <= limit ->
  exists jobs' rows,
    GraphStore.fetch_pending_jobs jobs ctx now limit = ok (jobs', rows)
    /\ Z.of_nat (length rows)
       = Z.min limit (Z.of_nat (length (pending_of jobs ctx)))
    /\ StronglySorted
         (fun a b => GraphStore.created_at a <= GraphStore.created_at b) rows
    /\ (exists rest,
          rows ++ rest ≡ₚ pending_of jobs ctx
          /\ forall r r', r ∈ rows -> r' ∈ rest ->
               GraphStore.created_at r <= GraphStore.created_at r')
    /\ length jobs' = length jobs
    /\ (forall i j, jobs !! i = Some j ->
          jobs' !! i
          = Some (if bool_decide (GraphStore.job_id j ∈ GraphStore.job_id <$> rows)
                  then GraphStore.set_job_status GraphStore.running (Some now)
                         (GraphStore.finished_at j) (GraphStore.error_message j) j
                  else j))
    /\ (forall now2 limit2 jobs'' rows2,
          GraphStore.fetch_pending_jobs jobs' ctx now2 limit2 = ok (jobs'', rows2) ->
          forall id, id ∈ GraphStore.job_id <$> rows ->
                     id ∉ GraphStore.job_id <$> rows2).
Proof.
  intros Hlim. unfold GraphStore.fetch_pending_jobs.
  destruct (Z.ltb_spec limit 0) as [|_]; [lia|].
  eexists _, _. split; [reflexivity|].
  pose proof (sorted_by_age (pending_of jobs ctx)) as Hs.
  rewrite select_pending_eq.
  set (sorted := sort_by by_age (pending_of jobs ctx)) in *.
  assert (Hlen : length sorted = length (pending_of jobs ctx)).
  { subst sorted. by rewrite (sort_by_perm by_age). }
  split_and!.
  - rewrite length_take, Hlen. lia.
  - by apply StronglySorted_take.
  - exists (drop (Z.to_nat limit) sorted). split.
    + rewrite take_drop. apply sort_by_perm.
    + intros r r' Hr Hr'.
      rewrite <- (take_drop (Z.to_nat limit) sorted) in Hs.
      by eapply (StronglySorted_app_1_elem_of _ _ _ _ _ Hs).
  - unfold GraphStore.mark_running. by rewrite length_map.
  - intros i j Hi. change (List.map GraphStore.job_id ?l) with (GraphStore.job_id <$> l).
    by apply mark_running_lookup.
  - intros now2 limit2 jobs'' rows2.
    destruct (limit2 <? 0); [done|]. intros [= _ <-] id Hid Hid2.
    apply list_elem_of_fmap in Hid2 as (j2 & -> & Hj2).
    apply elem_of_select_pending in Hj2 as (Hin & _ & Hst).
    by eapply mark_running_pending.
Qed.

Lemma fetch_pending_jobs_claims_the_oldest_witness :
  0 <= 1
  /\ exists jobs',
       GraphStore.fetch_pending_jobs sample_jobs sample_ctx 5 1
         = ok (jobs', [sample_job "j1" 1])
       /\ GraphStore.status <$> jobs' = [GraphStore.running; GraphStore.pending].
Proof.
  assert (H : 0 <= 1) by lia. split; [exact H|].
  destruct (fetch_pending_jobs_claims_the_oldest sample_jobs sample_ctx 5 1 H)
    as (jobs' & rows & Hrun & _).
  vm_compute in Hrun. injection Hrun as <- <-.
  eexists. split; [by vm_compute|]. by vm_compute.
Defined.
Section WorkerJobFacts.
Import GraphStore Core.
Implicit Types (db : GraphDb) (rows : list Job) (j : Job).

Lemma jobs_after_process gctx now rows db :
  jobs (foldl (process_job gctx now) db rows)
    = foldl (fun js r => mark_job_done js gctx now (job_id r) true None) (jobs db) rows.
Proof.
  revert db. induction rows as [|r rows IH]; intros db; [reflexivity|].
  cbn [foldl]. by rewrite IH.
Qed.

Lemma done_row_fold gctx now rows j :
  foldl (fun row r =>
           if bool_decide (job_app_id row = app_id gctx /\ job_id row = job_id r)
           then set_job_status done (started_at row) (Some now) None row
           else row) j rows
    = if (bool_decide (job_app_id j = app_id gctx)
          && bool_decide (job_id j ∈ job_id <$> rows))%bool
      then set_job_status done (started_at j) (Some now) None j
      else j.
Proof.
  revert j. induction rows as [|r rows IH]; intros j.
  { cbn [foldl fmap list_fmap]. rewrite (bool_decide_eq_false_2 (_ ∈ [])).
    - by rewrite andb_false_r.
    - apply not_elem_of_nil. }
  cbn [foldl]. rewrite IH, fmap_cons.
  destruct (decide (job_app_id j = app_id gctx)) as [Ha|Ha].
  2:{ rewrite (bool_decide_eq_false_2 (_ /\ _)) by tauto.
      by rewrite (bool_decide_eq_false_2 (job_app_id j = _)). }
  destruct (decide (job_id j = job_id r)) as [Hi|Hi].
  - rewrite (bool_decide_eq_true_2 (_ /\ _)) by done. cbn [job_app_id job_id set_job_status].
    rewrite !(bool_decide_eq_true_2 (job_app_id j = _)) by done.
    rewrite (bool_decide_eq_true_2 (job_id j ∈ job_id r :: _)) by (rewrite Hi; by left).
    cbn [andb]. by destruct (bool_decide (job_id j ∈ _)).
  - rewrite (bool_decide_eq_false_2 (_ /\ _)) by tauto.
    rewrite !(bool_decide_eq_true_2 (job_app_id j = _)) by done. cbn [andb].
    destruct (decide (job_id j ∈ job_id <$> rows)) as [Hin|Hin].
    + rewrite !bool_decide_eq_true_2; [done| |done]. by right.
    + rewrite !bool_decide_eq_false_2; [done| |done].
      rewrite elem_of_cons. tauto.
Qed.

Lemma NoDup_fmap_eq {X K} (f : X -> K) (l : list X) x y :
  NoDup (f <$> l) -> x ∈ l -> y ∈ l -> f x = f y -> x = y.
Proof.
  induction l as [|z l IH]; intros Hnd Hx Hy Hf; [by apply elem_of_nil in Hx|].
  rewrite fmap_cons in Hnd. apply NoDup_cons in Hnd as [Hz Hnd].
  apply elem_of_cons in Hx as [->|Hx]; apply elem_of_cons in Hy as [->|Hy].
  - done.
  - exfalso. apply Hz. rewrite Hf. by apply list_elem_of_fmap_2.
  - exfalso. apply Hz. rewrite <- Hf. by apply list_elem_of_fmap_2.
  - by apply IH.
Qed.
End WorkerJobFacts.

(** X14.  One round of the maintenance worker, with a limit that is
    not negative and job identifiers that are unique: it returns the
    number of jobs it claimed, which is the limit or the number of
    pending jobs of the tenant, whichever is smaller; every claimed
    job ends as done, stamped with the time of the round and without
    error message; every other job is left as it was. *)
Theorem process_graph_jobs_once_finishes_its_claims
    (cfg : Config) (db : Core.GraphDb) (rag_app_id : option str)
    (rag_clearance : option Z) (limit now : Z) (gid : str) :
  0 <= limit ->
  NoDup (GraphStore.job_id <$> Core.jobs db) ->
  let gctx := worker_ctx cfg rag_app_id rag_clearance gid in
  let claimed := GraphStore.select_pending (Core.jobs db) gctx limit in
  exists db',
    Core.process_graph_jobs_once cfg db rag_app_id rag_clearance limit now gid
      = ok (db', Z.of_nat (length claimed))
    /\ Z.of_nat (length claimed)
       = Z.min limit (Z.of_nat (length (pending_of (Core.jobs db) gctx)))
    /\ length (Core.jobs db') = length (Core.jobs db)
    /\ forall i j, Core.jobs db !! i = Some j ->
         Core.jobs db' !! i
         = Some (if bool_decide (GraphStore.job_id j ∈ GraphStore.job_id <$> claimed)
                 then GraphStore.set_job_status GraphStore.done (Some now) (Some now)
                        None j
                 else j).
Proof.
  intros Hlim Hnd gctx claimed.
  unfold Core.process_graph_jobs_once. fold (worker_ctx cfg rag_app_id rag_clearance gid).
  fold gctx. unfold GraphStore.fetch_pending_jobs.
  destruct (Z.ltb_spec limit 0) as [|_]; [lia|]. cbn [bind ok fst snd].
  fold claimed. eexists. split; [reflexivity|].
  split.
  { subst claimed. rewrite select_pending_eq, length_take, (sort_by_perm by_age). lia. }
  rewrite jobs_after_process. cbn [Core.jobs].
  pose (f := fun (r row : GraphStore.Job) =>
               if bool_decide (GraphStore.job_app_id row = GraphStore.app_id gctx
                               /\ GraphStore.job_id row = GraphStore.job_id r)
               then GraphStore.set_job_status GraphStore.done
                      (GraphStore.started_at row) (Some now) None row
               else row).
  set (init := GraphStore.mark_running now _ (Core.jobs db)).
  change (foldl _ init claimed) with (foldl (fun t x => List.map (f x) t) init claimed).
  rewrite (foldl_map_rows f). subst init f. cbv beta.
  split.
  { unfold GraphStore.mark_running. by rewrite !length_map. }
  intros i j Hi.
  change (List.map ?f ?l) with (f <$> l). rewrite list_lookup_fmap.
  change (GraphStore.job_id <$> claimed)
    with (GraphStore.job_id <$> claimed) in *.
  rewrite (mark_running_lookup now _ (Core.jobs db) i j Hi). cbn [fmap option_fmap option_map].
  f_equal. rewrite done_row_fold.
  change (List.map GraphStore.job_id claimed) with (GraphStore.job_id <$> claimed).
  destruct (decide (GraphStore.job_id j ∈ GraphStore.job_id <$> claimed)) as [Hin|Hin].
  - rewrite !(bool_decide_eq_true_2 _ Hin).
    cbn [GraphStore.set_job_status GraphStore.job_app_id GraphStore.job_id
           GraphStore.started_at].
    apply list_elem_of_fmap in Hin as (r & Hid & Hr).
    apply elem_of_select_pending in Hr as (Hr & Happ & _).
    assert (r = j) as ->.
    { eapply (NoDup_fmap_eq GraphStore.job_id); [exact Hnd|done| |done].
      by eapply list_elem_of_lookup_2. }
    by rewrite bool_decide_eq_true_2.
  - rewrite !(bool_decide_eq_false_2 _ Hin).
    by rewrite andb_false_r.
Qed.

Lemma process_graph_jobs_once_finishes_its_claims_witness :
  0 <= 10
  /\ exists db',
       Core.process_graph_jobs_once default_config
         {| Core.entities := []; Core.edges := []; Core.jobs := sample_jobs |}
         (Some (lit "appA")) (Some 2) 10 7 (lit "g1") = ok (db', 2)
       /\ GraphStore.status <$> Core.jobs db' = [GraphStore.done; GraphStore.done].
Proof.
  assert (H : 0 <= 10) by lia. split; [exact H|].
  assert (Hnd : NoDup (GraphStore.job_id <$> sample_jobs))
    by (apply (bool_decide_unpack _); by vm_compute).
  destruct (process_graph_jobs_once_finishes_its_claims default_config
              {| Core.entities := []; Core.edges := []; Core.jobs := sample_jobs |}
              (Some (lit "appA")) (Some 2) 10 7 (lit "g1") H Hnd)
    as (db' & Hrun & _).
  vm_compute in Hrun. injection Hrun as <-.
  eexists. split; by vm_compute.
Defined.
Section EdgeFrame.
Import GraphStore Core.
Implicit Types (tbl : list Edge) (e : Edge).

Lemma count_lowered_refl e : 0 <= 0 -> count_lowered e e.
Proof. intros _. split; [by destruct e|lia]. Qed.

Lemma count_lowered_trans e1 e2 e3 :
  count_lowered e1 e2 -> count_lowered e2 e3 -> count_lowered e1 e3.
Proof.
  intros [H1 B1] [H2 B2]. split; [|lia].
  rewrite H2 at 1. rewrite H1. reflexivity.
Qed.

Lemma edge_kept_refl gctx tbl : Forall2 (edge_kept gctx) tbl tbl.
Proof.
  apply Forall_Forall2_diag, Forall_forall. intros e _.
  split; [by apply count_lowered_refl|done].
Qed.

Lemma edge_kept_trans gctx tbl1 tbl2 tbl3 :
  Forall2 (edge_kept gctx) tbl1 tbl2 -> Forall2 (edge_kept gctx) tbl2 tbl3 ->
  Forall2 (edge_kept gctx) tbl1 tbl3.
Proof.
  intros H12. revert tbl3. induction H12 as [|e1 e2 t1 t2 [Hc Hf] _ IH]; intros tbl3 H23.
  - by inversion H23.
  - inversion H23 as [|? e3 ? t3 [Hc' Hf'] H23']; subst. constructor; [|by apply IH].
    split; [by eapply count_lowered_trans|].
    intros Hk. specialize (Hf Hk). subst e2. by apply Hf'.
Qed.

Lemma decrement_edge_kept gctx tbl src dst :
  Forall2 (edge_kept gctx) tbl (decrement_edge_evidence tbl gctx src dst co_occurs 1).
Proof.
  unfold decrement_edge_evidence.
  change (List.map ?f tbl) with (f <$> tbl).
  apply Forall2_fmap_r, Forall_Forall2_diag, Forall_forall. intros e _.
  unfold compose. destruct (has_edge_key (app_id gctx) src dst co_occurs e) eqn:Hk.
  - split; [split; [reflexivity|cbn [evidence_count set_evidence_count]; lia]|].
    apply has_edge_key_iff in Hk. injection Hk as Ha _ _ Ht. tauto.
  - split; [by apply count_lowered_refl|done].
Qed.

Lemma decrement_pair_kept gctx tbl ab :
  Forall2 (edge_kept gctx) tbl (decrement_pair gctx tbl ab).
Proof.
  unfold decrement_pair.
  eapply edge_kept_trans; apply decrement_edge_kept.
Qed.

Lemma decrement_chunk_edges_kept gctx tbl eids :
  Forall2 (edge_kept gctx) tbl (decrement_chunk_edges gctx tbl eids).
Proof.
  unfold decrement_chunk_edges. generalize (pairs (first_seen (List.filter nonempty eids))).
  intros ps. revert tbl. induction ps as [|ab ps IH]; intros tbl.
  - apply edge_kept_refl.
  - cbn [foldl]. eapply edge_kept_trans; [apply decrement_pair_kept|apply IH].
Qed.
End EdgeFrame.

(** X15.  A maintenance job never removes an edge and never touches
    its weight or its list of evidence chunks: every edge row stays in
    place, identical but for its evidence count, which ends between
    its old value and zero; rows of other tenants and rows of another
    edge type than [co_occurs] are not changed at all. *)
Theorem process_job_keeps_edges
    (gctx : GraphStore.RlsContext) (now : Z) (db : Core.GraphDb)
    (job : GraphStore.Job) :
  let db' := Core.process_job gctx now db job in
  length (Core.edges db') = length (Core.edges db)
  /\ forall i e,
       Core.edges db !! i = Some e ->
       exists e',
         Core.edges db' !! i = Some e'
         /\ e' = GraphStore.set_evidence_count (GraphStore.evidence_count e') e
         /\ Z.min (GraphStore.evidence_count e) 0 <= GraphStore.evidence_count e'
            <= Z.max (GraphStore.evidence_count e) 0
         /\ (GraphStore.edge_app_id e <> GraphStore.app_id gctx
             \/ GraphStore.edge_type e <> Core.co_occurs -> e' = e).
Proof.
  intros db'.
  assert (H : Forall2 (edge_kept gctx) (Core.edges db) (Core.edges db')).
  { subst db'. unfold Core.process_job. cbn [Core.edges].
    generalize (Core.collect_mentions
                  match GraphStore.payload job with
                  | Some p => default [] (GraphStore.p_mentions p)
                  | None => []
                  end).2.
    intros chunk_map. generalize (Core.edges db).
    induction chunk_map as [|ce chunk_map IH]; intros tbl.
    - apply edge_kept_refl.
    - cbn [foldl]. eapply edge_kept_trans; [apply decrement_chunk_edges_kept|apply IH]. }
  split; [symmetry; by eapply Forall2_length|].
  intros i e Hi. destruct (Forall2_lookup_l _ _ _ _ _ H Hi) as (e' & He' & [[Heq Hb] Hf]).
  exists e'. done.
Qed.
Section ExtractionFacts.
Import Core.
Variable env : Env.
Variable cfg : Config.
Implicit Types (out : list QEntity) (items : list json).

Lemma stripped_field_stripped fields k dflt s :
  stripped_field fields k dflt = ok s -> strip s = s.
Proof.
  unfold stripped_field.
  destruct (match dict_get k fields with Some v => _ | None => _ end); try done.
  intros [= <-]. apply strip_idemp.
Qed.

Lemma collect_entities_well_formed (P : QEntity -> Prop) items out res :
  (forall nm ty als conf,
      nm <> [] -> strip nm = nm -> ty <> [] -> strip ty = ty ->
      conf ∈ [lit "high"; lit "medium"; lit "low"] ->
      P {| q_name := nm; q_type := ty; q_aliases := als; q_confidence := conf |}) ->
  Forall P out -> (length out < 12)%nat ->
  collect_entities items out = ok res ->
  Forall P res /\ (length res <= 12)%nat.
Proof.
  intros HP. revert out. induction items as [|item items IH]; intros out Hall Hlen.
  { cbn [collect_entities]. intros [= <-]. split; [done|lia]. }
  cbn [collect_entities]. destruct item as [|b|z|q|s|arr|flds]; try (by apply IH).
  destruct (stripped_field flds (lit "name") []) as [e|nm] eqn:Hn; [done|].
  cbn [bind].
  destruct (stripped_field flds (lit "type") []) as [e|ty] eqn:Ht; [done|].
  cbn [bind].
  destruct nm as [|c nm]; [by apply IH|].
  destruct ty as [|d ty]; [by apply IH|].
  destruct (stripped_field flds (lit "confidence") (lit "medium")) as [e|conf]; [done|].
  cbn [bind].
  set (conf' := if bool_decide (lower conf ∈ [lit "high"; lit "medium"; lit "low"])
                then lower conf else lit "medium").
  assert (Hconf : conf' ∈ [lit "high"; lit "medium"; lit "low"]).
  { subst conf'. case_bool_decide; [done|]. right. by left. }
  set (ent := {| q_name := c :: nm; q_type := d :: ty |}).
  assert (Hent : P ent).
  { apply HP; try done.
    - by eapply stripped_field_stripped.
    - by eapply stripped_field_stripped. }
  assert (Hall' : Forall P (out ++ [ent])).
  { apply Forall_app. split; [done|]. by apply Forall_singleton. }
  destruct (Nat.leb_spec 12 (length (out ++ [ent]))) as [Hge|Hlt].
  - intros [= <-]. split; [done|]. rewrite length_app in *. simpl in *. lia.
  - by apply IH.
Qed.
End ExtractionFacts.

(** X16.  Whatever the chat model answers, the entities
    [_extract_entities_from_text] returns are well formed: at most
    twelve of them, each with a non-empty name and type free of
    surrounding white space, and a confidence that is one of [high],
    [medium], [low]. *)
Theorem extracted_entities_are_well_formed
    (env : Core.Env) (cfg : Config) (text : str) (prompt_key prompt_text : option str)
    (out : list Core.QEntity) :
  Core._extract_entities_from_text env cfg text prompt_key prompt_text = ok out ->
  (length out <= 12)%nat
  /\ Forall (fun e => Core.q_name e <> [] /\ strip (Core.q_name e) = Core.q_name e
                      /\ Core.q_type e <> [] /\ strip (Core.q_type e) = Core.q_type e
                      /\ Core.q_confidence e ∈ [lit "high"; lit "medium"; lit "low"])
            out.
Proof.
  unfold Core._extract_entities_from_text.
  assert (Hnil : forall P, @ok (list Core.QEntity) [] = ok out ->
                           (length out <= 12)%nat /\ Forall P out).
  { intros P [= <-]. split; [simpl; lia|constructor]. }
  destruct (negb _); [apply Hnil|].
  destruct (Core.call_vllm_chat env _) as [e|raw]; [apply Hnil|].
  destruct (Core._safe_json_from_text env raw) as [data|]; [|apply Hnil].
  destruct (negb _); [apply Hnil|].
  assert (Hgo : forall items,
             Core.collect_entities items [] = ok out ->
             (length out <= 12)%nat
             /\ Forall (fun e => Core.q_name e <> [] /\ strip (Core.q_name e) = Core.q_name e
                          /\ Core.q_type e <> [] /\ strip (Core.q_type e) = Core.q_type e
                          /\ Core.q_confidence e ∈ [lit "high"; lit "medium"; lit "low"])
                      out).
  { intros items Hrun.
    eapply collect_entities_well_formed in Hrun as [H1 H2]; [done| |constructor|simpl; lia].
    intros nm ty als conf ? ? ? ? ?. done. }
  destruct data; try apply Hnil; apply Hgo.
Qed.

Lemma extracted_entities_are_well_formed_witness :
  exists out,
    Core._extract_entities_from_text (sample_env []) default_config (lit "what is 5G")
      None None = ok out
    /\ (length out <= 12)%nat.
Proof.
  eexists. split; [by vm_compute|].
  exact (proj1 (extracted_entities_are_well_formed (sample_env []) default_config
                  (lit "what is 5G") None None _ eq_refl)).
Defined.
Section HybridFacts.
Import Core.
Variable env : Env.
Variable cfg : Config.
Implicit Types (results : list (str * scored)).

Lemma elem_of_dict_set {K V} `{EqDecision K} (k : K) (v : V) (d : list (K * V)) x :
  x ∈ dict_set k v d -> x = (k, v) \/ x ∈ d.
Proof.
  induction d as [|[k' v'] d IH]; cbn [dict_set].
  - rewrite list_elem_of_singleton. by left.
  - case_bool_decide.
    + rewrite !elem_of_cons. tauto.
    + rewrite !elem_of_cons. intros [->|Hx]; [by right; left|].
      destruct (IH Hx); [by left|by right; right].
Qed.

Lemma results_ok_set results (r : EntityHit) (s : Q) :
  results_ok results -> truthy (eh_entity_id r) = true ->
  results_ok (dict_set (default [] (eh_entity_id r)) (r, s) results).
Proof.
  intros [Hnd Hall] Hid. split; [by apply dict_set_NoDup|].
  apply Forall_forall. intros kv Hkv. apply elem_of_dict_set in Hkv as [->|Hkv].
  - cbn [fst snd]. destruct (eh_entity_id r) as [[|c i]|]; done.
  - rewrite Forall_forall in Hall. by apply Hall.
Qed.

Lemma exact_loop_ok matches results res :
  results_ok results -> exact_loop env matches results = ok res -> results_ok res.
Proof.
  revert results. induction matches as [|r matches IH]; intros results Hok.
  { cbn [exact_loop]. by intros [= <-]. }
  cbn [exact_loop]. destruct (truthy (eh_entity_id r)) eqn:Hid; [|by apply IH].
  destruct (math_log env _) as [e|l]; [done|]. cbn [bind].
  apply IH. by apply results_ok_set.
Qed.

Lemma semantic_loop_ok sem results :
  results_ok results -> results_ok (semantic_loop env sem results).
Proof.
  revert results. induction sem as [|[r sim] sem IH]; intros results Hok; [done|].
  cbn [semantic_loop]. destruct (negb (truthy (eh_entity_id r))) eqn:Hid.
  { cbn [orb]. by apply IH. }
  cbn [orb]. case_bool_decide; [by apply IH|].
  destruct (math_log env _) as [e|l]; [done|].
  apply IH, results_ok_set; [done|]. by apply negb_false_iff.
Qed.

Lemma results_ok_ids results :
  results_ok results ->
  (fun s : scored => eh_entity_id s.1) <$> results.*2 = Some <$> results.*1.
Proof.
  intros [_ Hall]. induction Hall as [|[k v] results [Hk _] _ IH]; [done|].
  rewrite !fmap_cons. cbn [fst snd] in *. by rewrite Hk, IH.
Qed.

Lemma by_relevance_total (a b : scored) :
  Qle_bool b.2 a.2 = true \/ Qle_bool a.2 b.2 = true.
Proof.
  destruct (Qle_bool b.2 a.2) eqn:E; [by left|right].
  apply Qle_bool_iff. apply not_true_iff_false in E. rewrite Qle_bool_iff in E. lra.
Qed.

Lemma by_relevance_trans (a b c : scored) :
  Qle_bool b.2 a.2 = true -> Qle_bool c.2 b.2 = true -> Qle_bool c.2 a.2 = true.
Proof. rewrite !Qle_bool_iff. lra. Qed.
End HybridFacts.

(** X17.  What [_find_entities_hybrid] returns for a limit that is not
    negative: at most [limit] entities, every one with a non-empty
    identifier, no identifier twice, in non-increasing order of
    score. *)
Theorem hybrid_matches_are_distinct_and_ranked
    (env : Core.Env) (cfg : Config) (gctx : GraphStore.RlsContext)
    (query_text : str) (limit : Z) (out : list Core.scored) :
  0 <= limit ->
  Core._find_entities_hybrid env cfg gctx query_text limit = ok out ->
  Z.of_nat (length out) <= limit
  /\ Forall (fun s : Core.scored => truthy (Core.eh_entity_id s.1) = true) out
  /\ NoDup ((fun s : Core.scored => Core.eh_entity_id s.1) <$> out)
  /\ StronglySorted (fun a b : Core.scored => (b.2 <= a.2)%Q) out.
Proof.
  intros Hlim. unfold Core._find_entities_hybrid.
  destruct (Core.find_entities_by_name_or_alias env gctx query_text limit)
    as [e|matches]; [done|]. cbn [bind].
  destruct (Core.exact_loop env matches []) as [e|results] eqn:Hexact; [done|].
  cbn [bind].
  assert (Hok0 : results_ok results).
  { eapply exact_loop_ok; [|exact Hexact]. split; constructor. }
  set (results' := if Z.of_nat (length results) <? limit then _ else results).
  assert (Hok : results_ok results').
  { subst results'. destruct (_ <? _); [|done].
    destruct (Core.embed_text env query_text) as [e|q_emb]; [done|].
    destruct (Core.find_entities_by_embedding env gctx q_emb limit _) as [e|sem]; [done|].
    by apply semantic_loop_ok. }
  intros [= <-].
  set (leb := fun a b : Core.scored => Qle_bool b.2 a.2).
  set (sorted := sort_by leb results'.*2).
  assert (Hperm : sorted ≡ₚ results'.*2) by apply sort_by_perm.
  assert (Hslice : slice_to limit sorted = take (Z.to_nat limit) sorted).
  { unfold slice_to. destruct (Z.leb_spec 0 limit); [done|lia]. }
  rewrite Hslice.
  assert (Hsub : take (Z.to_nat limit) sorted `sublist_of` sorted) by apply sublist_take.
  split_and!.
  - rewrite length_take. lia.
  - apply Forall_forall. intros s Hs.
    eapply elem_of_sublist in Hs; [|exact Hsub]. rewrite Hperm in Hs.
    apply list_elem_of_fmap in Hs as ([k v] & -> & Hkv).
    destruct Hok as [_ Hall]. rewrite Forall_forall in Hall.
    destruct (Hall _ Hkv) as [Hid Hne]. cbn [fst snd] in *. rewrite Hid.
    by destruct k.
  - eapply sublist_NoDup; [|by apply fmap_sublist].
    rewrite Hperm, (results_ok_ids _ Hok).
    apply NoDup_fmap_2; [apply _|]. apply Hok.
  - apply StronglySorted_take. subst sorted.
    rewrite <- (list_fmap_id (sort_by leb _)).
    eapply StronglySorted_fmap;
      [|apply (sort_by_sorted leb by_relevance_total by_relevance_trans)].
    intros a b. unfold leb. by rewrite Qle_bool_iff.
Qed.

Lemma hybrid_matches_are_distinct_and_ranked_witness :
  0 <= 3
  /\ exists out,
       Core._find_entities_hybrid (sample_env []) default_config sample_ctx (lit "5G") 3
         = ok out
       /\ Z.of_nat (length out) <= 3.
Proof.
  assert (H : 0 <= 3) by lia. split; [exact H|].
  eexists. split; [by vm_compute|].
  exact (proj1 (hybrid_matches_are_distinct_and_ranked (sample_env []) default_config
                  sample_ctx (lit "5G") 3 _ H eq_refl)).
Defined.
Section FinalHitsFacts.
Import Core ChunkFunc.
Implicit Types (hits : list Hit) (st : merge_state).

Lemma set_chunk_text_id t h : chunk_id (set_chunk_text t h) = chunk_id h.
Proof. reflexivity. Qed.

Lemma merge_into_ids cfg key txt st :
  chunk_id <$> (merge_into cfg key txt st).*2 = chunk_id <$> st.*2.
Proof.
  unfold merge_into. induction st as [|[k h] st IH]; [reflexivity|].
  cbn [List.map]. rewrite !fmap_cons. cbn [fst snd]. rewrite IH.
  by case_bool_decide.
Qed.

Lemma merge_fold_ids cfg hits st (pre : list Hit) :
  chunk_id <$> st.*2 `sublist_of` chunk_id <$> pre ->
  chunk_id <$> (foldl (merge_step cfg) st hits).*2 `sublist_of` chunk_id <$> (pre ++ hits).
Proof.
  revert st pre. induction hits as [|h hits IH]; intros st pre Hsub.
  { by rewrite app_nil_r. }
  cbn [foldl]. replace (pre ++ h :: hits) with ((pre ++ [h]) ++ hits)
    by (by rewrite <- app_assoc).
  apply IH. unfold merge_step. case_bool_decide.
  - rewrite merge_into_ids, fmap_app. by apply sublist_inserts_r.
  - rewrite !fmap_app. cbn [fmap list_fmap fst snd]. apply sublist_app; [done|].
    reflexivity.
Qed.

Lemma merge_ids_sublist cfg hits :
  chunk_id <$> merge_hits_by_page_or_caption cfg hits `sublist_of` chunk_id <$> hits.
Proof.
  unfold merge_hits_by_page_or_caption. destruct hits as [|h hits]; [done|].
  pose proof (merge_fold_ids cfg (h :: hits) [] [] (sublist_nil : [] `sublist_of` [])) as Hs.
  cbn [app] in Hs.
  assert (Hid : chunk_id <$> List.map (fun kh : str * Hit => cap_text cfg kh.2)
                               (foldl (merge_step cfg) [] (h :: hits))
                = chunk_id <$> (foldl (merge_step cfg) [] (h :: hits)).*2).
  { generalize (foldl (merge_step cfg) [] (h :: hits)). intros st.
    induction st as [|[k x] st IH]; [reflexivity|].
    cbn [List.map]. rewrite !fmap_cons, IH. cbn [fst snd]. f_equal.
    unfold cap_text. by destruct (_ && _). }
  by rewrite Hid.
Qed.

Lemma union_truncate_ok (graph vector : list Hit) (k : Z) :
  0 < k ->
  let u := truncate_hits k (union_hits graph vector) in
  Z.of_nat (length u) <= k
  /\ NoDup (chunk_id <$> u)
  /\ Forall (fun o => truthy o = true) (chunk_id <$> u).
Proof.
  intros Hk u. subst u. rewrite truncate_hits_take by done.
  rewrite union_hits_from. split_and!.
  - rewrite length_take. lia.
  - rewrite fmap_take. eapply sublist_NoDup; [apply union_from_NoDup|apply sublist_take].
  - apply Forall_forall. intros o Ho.
    apply list_elem_of_fmap in Ho as (h & -> & Hh).
    eapply elem_of_sublist in Hh; [|apply sublist_take].
    apply elem_of_union_from in Hh as (_ & c & cs & -> & _). done.
Qed.

Lemma submseteq_NoDup {X} (l k : list X) : l ⊆+ k -> NoDup k -> NoDup l.
Proof.
  intros Hsub Hnd. apply submseteq_Permutation in Hsub as (k' & Hk').
  rewrite Hk' in Hnd. by apply NoDup_app in Hnd as (? & _).
Qed.

Lemma submseteq_Forall {X} (P : X -> Prop) (l k : list X) :
  l ⊆+ k -> Forall P k -> Forall P l.
Proof.
  intros Hsub Hall. apply submseteq_Permutation in Hsub as (k' & Hk').
  rewrite Hk' in Hall. by apply Forall_app in Hall as (? & _).
Qed.
End FinalHitsFacts.

(** X18.  Whatever the services answer, [chat_send] hands back few and
    distinct hits: with a positive number of rerank candidates
    configured, the hits of the result are at most that many, each
    carries a non-empty chunk identifier, and no identifier occurs
    twice. *)
Theorem chat_send_returns_few_distinct_hits
    (env : Core.Env) (cfg : Config) (user_text : option str)
    (graph_enabled : option bool) (graph_prompt_key rag_app_id : option str)
    (rag_clearance : option Z) (rid gid : str) :
  0 < RERANK_CANDIDATES cfg ->
  let hits :=
    Core.cs_hits (Core.chat_send env cfg user_text graph_enabled graph_prompt_key
                    rag_app_id rag_clearance rid gid) in
  Z.of_nat (length hits) <= RERANK_CANDIDATES cfg
  /\ NoDup (chunk_id <$> hits)
  /\ Forall (fun h => truthy (chunk_id h) = true) hits.
Proof.
  intros Hk hits.
  assert (Hnil : Z.of_nat (length (@nil Hit)) <= RERANK_CANDIDATES cfg
                 /\ NoDup (chunk_id <$> @nil Hit)
                 /\ Forall (fun h => truthy (chunk_id h) = true) (@nil Hit)).
  { split; [simpl; lia|]. split; constructor. }
  destruct (decide (strip (default [] user_text) = [])) as [He|Hne].
  { subst hits. unfold Core.chat_send. rewrite He. exact Hnil. }
  subst hits. rewrite chat_send_nonempty by done. cbv zeta. cbn [Core.cs_hits].
  rewrite retrieve_stages. unfold pre_rerank.
  destruct (if default (GRAPH_ENABLED cfg) graph_enabled then _ else _) as [e|g];
    [exact Hnil|]. cbn [bind].
  destruct (Core.vector_path env cfg _ g.1) as [e|vector_hits]; [exact Hnil|].
  cbn [bind ok].
  destruct (union_truncate_ok g.2 vector_hits (RERANK_CANDIDATES cfg) Hk)
    as (Hlen & Hnd & Hids).
  set (u := Core.truncate_hits (RERANK_CANDIDATES cfg) (Core.union_hits g.2 vector_hits)) in *.
  pose proof (merge_ids_sublist cfg u) as Hmerge.
  set (merged := ChunkFunc.merge_hits_by_page_or_caption cfg u) in *.
  assert (Hfinal : forall out,
             out ⊆+ merged ->
             Z.of_nat (length out) <= RERANK_CANDIDATES cfg
             /\ NoDup (chunk_id <$> out)
             /\ Forall (fun h => truthy (chunk_id h) = true) out).
  { intros out Hout.
    assert (Hsub : chunk_id <$> out ⊆+ chunk_id <$> u).
    { etrans; [by apply fmap_submseteq|]. by apply sublist_submseteq. }
    split_and!.
    - apply submseteq_length in Hsub. rewrite !length_fmap in Hsub. lia.
    - by eapply submseteq_NoDup.
    - eapply submseteq_Forall in Hids; [|exact Hsub].
      by rewrite Forall_fmap in Hids. }
  destruct (RERANK_ENABLED cfg && negb (bool_decide (merged = [])))%bool.
  - destruct (Rerank.rerank_hits _ cfg _ merged _) as [e|out] eqn:Hr; [exact Hnil|].
    cbn [bind]. apply rerank_hits_facts in Hr as [Hout _].
    destruct out; [exact Hnil|]. cbn [try_except snd]. by apply Hfinal.
  - cbn [bind ok]. pose proof (Hfinal merged ltac:(reflexivity)) as Hself.
    clearbody merged. destruct merged; [exact Hnil|exact Hself].
Qed.

Lemma chat_send_returns_few_distinct_hits_witness :
  0 < RERANK_CANDIDATES default_config
  /\ Z.of_nat (length (Core.cs_hits
                         (Core.chat_send (sample_env []) default_config
                            (Some (lit "what is 5G")) (Some true) None None None
                            (lit "r") (lit "g"))))
     <= RERANK_CANDIDATES default_config.
Proof.
  assert (H : 0 < RERANK_CANDIDATES default_config) by reflexivity.
  split; [exact H|].
  exact (proj1 (chat_send_returns_few_distinct_hits (sample_env []) default_config
                  (Some (lit "what is 5G")) (Some true) None None None
                  (lit "r") (lit "g") H)).
Defined.

(* ===================================================================== *)
(** * The object keys of a document *)
(* ===================================================================== *)

Section ObjectKeyFacts.
Import CoreKeys.

Lemma slash_not_space : isspace 47%N = false.
Proof. reflexivity. Qed.

Lemma no_slash_fields (s : str) :
  47%N ∉ s -> Forall (fun c => N.eqb c 47 = false) s.
Proof.
  intros Hs. apply Forall_forall. intros c Hc. apply N.eqb_neq. intros ->. done.
Qed.

Lemma no_slash_neq (s : str) : 47%N ∉ s -> Forall (fun c => c <> 47%N) s.
Proof. intros Hs. apply Forall_forall. intros c Hc ->. done. Qed.

(** The first two segments of a key [app/dir/rest]. *)
Lemma segments_two app dir rest :
  app <> [] -> dir <> [] -> 47%N ∉ app -> 47%N ∉ dir ->
  exists more, segments (app ++ [47%N] ++ dir ++ 47%N :: rest) = app :: dir :: more.
Proof.
  intros Ha Hd Hsa Hsd. unfold segments.
  change (app ++ [47%N] ++ dir ++ 47%N :: rest)
    with (app ++ 47%N :: (dir ++ 47%N :: rest)).
  rewrite (fields_sep _ app 47%N) by (by apply no_slash_fields || reflexivity).
  rewrite (fields_sep _ dir 47%N) by (by apply no_slash_fields || reflexivity).
  cbn [List.filter]. destruct app; [done|]. destruct dir; [done|].
  cbn [nonempty]. by eexists.
Qed.

Lemma startswith_prefix (p rest : str) : startswith (p ++ rest) p = true.
Proof. apply startswith_app. Qed.

End ObjectKeyFacts.

(** X19.  The objects of a document are found again.  For a tenant id
    and a directory name that are not empty, hold no slash and no
    surrounding white space, in a bucket whose name holds no slash,
    [_parse_doc_dir_from_source_uri] reads the directory back from the
    URI under which [ingest_pages_common] stored the source file; the
    keys of the artefacts ingestion writes for a page are the ones
    [build_ocr_object_keys] computes for that page; and every key
    ingestion writes starts with the prefix that [delete_doc] clears. *)
Theorem stored_objects_are_found_again
    (cfg : Config) (bucket app dir suffix : str) (page_no : Z) :
  app <> [] -> dir <> [] ->
  47%N ∉ bucket -> 47%N ∉ app -> 47%N ∉ dir ->
  strip app = app -> strip dir = dir ->
  rstrip (dir ++ suffix) = dir ++ suffix ->
  0 < page_no ->
  CoreKeys._parse_doc_dir_from_source_uri
      (Some (CoreKeys.get_uri bucket (CoreKeys.source_key app dir suffix)))
      (Some app) = Some dir
  /\ (exists keys,
        CoreKeys.build_ocr_object_keys cfg (Some app) (Some dir) page_no = ok keys
        /\ CoreKeys.k_text keys = CoreKeys.page_text_key app dir page_no
        /\ CoreKeys.k_tab keys = CoreKeys.page_tab_key app dir page_no
        /\ CoreKeys.k_figure keys = CoreKeys.page_figure_key app dir page_no
        /\ CoreKeys.k_img keys = CoreKeys.page_img_key app dir page_no)
  /\ Forall (fun key => startswith key (CoreKeys.delete_prefix app dir) = true)
       [CoreKeys.source_key app dir suffix;
        CoreKeys.page_text_key app dir page_no;
        CoreKeys.page_tab_key app dir page_no;
        CoreKeys.page_figure_key app dir page_no;
        CoreKeys.page_img_key app dir page_no;
        CoreKeys.full_text_key app dir].
Proof.
  intros Ha Hd Hsb Hsa Hsd Hta Htd Hlast Hpage.
  split; [|split].
  - (* the directory is read back *)
    unfold CoreKeys._parse_doc_dir_from_source_uri. cbn [default from_option id].
    unfold str, char in *. rewrite Hta.
    set (uri := CoreKeys.get_uri bucket (CoreKeys.source_key app dir suffix)).
    assert (Huri : strip uri = uri).
    { destruct (rstrip_shape (dir ++ suffix)) as [Hnil|(t & d & Ht & Hdsp)].
      - rewrite Hlast in Hnil. destruct dir; [done|discriminate].
      - rewrite Hlast in Ht. unfold uri, CoreKeys.get_uri, CoreKeys.source_key.
        unfold str, char in *. rewrite Ht.
        change (lit "s3://") with (115%N :: lit "3://").
        rewrite !app_assoc. rewrite <- app_comm_cons.
        apply strip_plain; [reflexivity|exact Hdsp]. }
    rewrite Huri.
    assert (Hne : nonempty uri = true) by reflexivity.
    rewrite Hne. destruct app as [|a0 app']; [done|]. cbn [nonempty negb orb].
    assert (Hs3 : startswith uri (lit "s3://") = true) by apply startswith_app.
    rewrite Hs3.
    assert (Htail : drop 5 uri
              = bucket ++ 47%N :: CoreKeys.source_key (a0 :: app') dir suffix)
      by reflexivity.
    rewrite Htail, (split_once_found 47%N bucket) by (by apply no_slash_neq).
    destruct (segments_two (a0 :: app') dir (lit "source/" ++ dir ++ suffix))
      as (more & Hseg); [done..|].
    assert (Hkey : CoreKeys.segments (CoreKeys.source_key (a0 :: app') dir suffix)
                   = (a0 :: app') :: dir :: more) by exact Hseg.
    unfold str, char in *. rewrite Hkey.
    by rewrite bool_decide_eq_true_2.
  - (* the keys of a page *)
    eexists. unfold CoreKeys.build_ocr_object_keys, Core.str_or.
    cbn [default from_option id]. unfold str, char in *. destruct app as [|a0 app']; [done|].
    destruct dir as [|d0 dir']; [done|].
    cbn [truthy nonempty default from_option id]. rewrite Hta, Htd. cbn [nonempty negb orb].
    destruct (Z.leb_spec page_no 0) as [?|_]; [lia|].
    split; [reflexivity|].
    cbn [CoreKeys.k_text CoreKeys.k_tab CoreKeys.k_figure CoreKeys.k_img].
    unfold CoreKeys.page_text_key, CoreKeys.page_tab_key, CoreKeys.page_figure_key,
      CoreKeys.page_img_key.
    repeat split; by rewrite <- !app_assoc.
  - (* the prefix of the keys *)
    unfold CoreKeys.delete_prefix.
    assert (Hpre : forall rest : str,
      startswith (app ++ [47%N] ++ dir ++ 47%N :: rest)
                 (app ++ [47%N] ++ dir ++ [47%N]) = true).
    { intros rest.
      replace (app ++ [47%N] ++ dir ++ 47%N :: rest)
        with ((app ++ [47%N] ++ dir ++ [47%N]) ++ rest)
        by (by rewrite <- !app_assoc).
      apply startswith_app. }
    repeat constructor;
      unfold CoreKeys.source_key, CoreKeys.page_text_key, CoreKeys.page_tab_key,
        CoreKeys.page_figure_key, CoreKeys.page_img_key, CoreKeys.full_text_key;
      rewrite <- ?app_assoc; apply Hpre.
Qed.

Lemma stored_objects_are_found_again_witness :
  CoreKeys._parse_doc_dir_from_source_uri
      (Some (CoreKeys.get_uri (lit "rag")
               (CoreKeys.source_key (lit "app1") (lit "report_7f") (lit ".pdf"))))
      (Some (lit "app1")) = Some (lit "report_7f")
  /\ (exists keys,
        CoreKeys.build_ocr_object_keys default_config (Some (lit "app1"))
          (Some (lit "report_7f")) 3 = ok keys
        /\ CoreKeys.k_text keys = CoreKeys.page_text_key (lit "app1") (lit "report_7f") 3
        /\ CoreKeys.k_tab keys = CoreKeys.page_tab_key (lit "app1") (lit "report_7f") 3
        /\ CoreKeys.k_figure keys
           = CoreKeys.page_figure_key (lit "app1") (lit "report_7f") 3
        /\ CoreKeys.k_img keys = CoreKeys.page_img_key (lit "app1") (lit "report_7f") 3)
  /\ Forall (fun key =>
               startswith key (CoreKeys.delete_prefix (lit "app1") (lit "report_7f"))
               = true)
       [CoreKeys.source_key (lit "app1") (lit "report_7f") (lit ".pdf");
        CoreKeys.page_text_key (lit "app1") (lit "report_7f") 3;
        CoreKeys.page_tab_key (lit "app1") (lit "report_7f") 3;
        CoreKeys.page_figure_key (lit "app1") (lit "report_7f") 3;
        CoreKeys.page_img_key (lit "app1") (lit "report_7f") 3;
        CoreKeys.full_text_key (lit "app1") (lit "report_7f")].
Proof.
  apply (stored_objects_are_found_again default_config (lit "rag") (lit "app1")
           (lit "report_7f") (lit ".pdf") 3);
    first [ lia | discriminate | reflexivity
          | (apply not_elem_of_list_In || idtac);
            rewrite list_elem_of_In; vm_compute; intuition discriminate ].
Defined.

(* ===================================================================== *)
(** * The graph build and its undoing *)
(* ===================================================================== *)

Section TableFacts.


Lemma map_no_key {X K} (key : X -> K) (P : X -> bool) (g : X -> X) (k : K)
    (l : list X) :
  (forall x, P x = true <-> key x = k) ->
  k ∉ key <$> l ->
  List.map (fun x => if P x then g x else x) l = l.
Proof.
  intros HP Hk. induction l as [|x l IH]; [done|]. cbn [List.map].
  rewrite fmap_cons, not_elem_of_cons in Hk. destruct Hk as [Hx Hl].
  rewrite IH by done. destruct (P x) eqn:HPx; [|done].
  apply HP in HPx. by destruct Hx.
Qed.



End TableFacts.

Section UpsertShape.
Import GraphStore GraphBuild.




End UpsertShape.

Section RecordedFacts.
Import GraphStore GraphBuild.
Variables (gctx : RlsContext) (chunk_ids : list str).
Implicit Types (tbl : list EntityChunk) (eid : str).







End RecordedFacts.

Section BuildInvariant.
Import GraphStore GraphBuild.
Variables (gctx : RlsContext) (chunk_ids : list str).



End BuildInvariant.

Section BuildLoops.
Import GraphStore GraphBuild.
Variables (gctx : RlsContext) (chunk_ids : list str).






End BuildLoops.

Section FetchedMentions.
Import GraphStore GraphBuild.
Variables (gctx : RlsContext) (chunk_ids : list str).






End FetchedMentions.

Section JobRows.
Import GraphStore.


End JobRows.



(* ===================================================================== *)
(** * The co-occurrence edges of a document *)
(* ===================================================================== *)

Section EdgeCounts.
Import GraphStore GraphBuild.
Variable gctx : RlsContext.
Implicit Types (tbl : list Edge) (e : Edge) (ab : str * str).


Lemma foldl_concat {A C} (f : A -> C -> A) (ls : list (list C)) (a : A) :
  foldl f a (concat ls) = foldl (fun a l => foldl f a l) a ls.
Proof.
  revert a. induction ls as [|l ls IH]; intros a; [done|].
  cbn [concat foldl]. by rewrite foldl_app, IH.
Qed.
















End EdgeCounts.

Section BuildRows.
Import GraphStore GraphBuild.
Variables (gctx : RlsContext) (chunk_ids : list str).







End BuildRows.

Section BuildLog.
Import GraphStore GraphBuild.
Variables (gctx : RlsContext) (chunk_ids : list str).




End BuildLog.

Section ChunkEntityMap.
Import GraphStore GraphBuild.














End ChunkEntityMap.

Section EdgeRoundTrip.
Import GraphStore GraphBuild.
Variables (gctx : RlsContext) (chunk_ids : list str).







End EdgeRoundTrip.



Section SelfEdges.
Import GraphStore GraphBuild.
Variable gctx : RlsContext.







End SelfEdges.



(* ===================================================================== *)
(** * [recursive_chunk_text] on a text without a break *)
(* ===================================================================== *)

Section UnbrokenText.
Import PySeq Chunking.
Implicit Types (s t u v : str).

Lemma split_whole x sep t : x ∉ t -> split (x :: sep) t = [t].
Proof.
  intros Hx. unfold split. induction t as [|c t IH]; [done|].
  apply not_elem_of_cons in Hx as [Hc Ht]. cbn [split_skip startswith].
  apply N.eqb_neq in Hc. rewrite Hc. cbn [andb]. by rewrite IH.
Qed.

Lemma rstrip_trailing v w :
  Forall (fun c => isspace c = true) w -> rstrip (v ++ w) = rstrip v.
Proof.
  intros Hw. unfold rstrip. rewrite rev_app_distr. f_equal.
  assert (forall r u, Forall (fun c => isspace c = true) r ->
            drop_while isspace (r ++ u) = drop_while isspace u) as Hdrop.
  { intros r u Hr. induction Hr as [|c r Hc _ IH]; [done|].
    cbn [app drop_while]. by rewrite Hc. }
  apply Hdrop. by apply List.Forall_rev.
Qed.

Lemma strip_trailing v w :
  Forall (fun c => isspace c = false) v ->
  Forall (fun c => isspace c = true) w -> strip (v ++ w) = v.
Proof.
  intros Hv Hw. unfold strip. rewrite rstrip_trailing by done.
  by apply strip_no_space.
Qed.

(** A pass whose separator does not occur in the one chunk it is given
    hands that chunk back with the separator appended. *)
Lemma pass_whole chunk_size x sep u v :
  strip u = v -> v <> [] -> chunk_size < Z.of_nat (length v) -> x ∉ v ->
  strip (v ++ x :: sep) <> [] ->
  split_pass chunk_size (x :: sep) [u] = ok [v ++ x :: sep].
Proof.
  intros Hu Hne Hlen Hx Hs. cbn [split_pass]. rewrite Hu.
  destruct v as [|c v']; [done|].
  destruct (Z.leb_spec (Z.of_nat (length (c :: v'))) chunk_size) as [?|_]; [lia|].
  unfold pack_by_sep. rewrite split_whole by done. cbn [foldl pack_step fst snd].
  destruct (_ <=? chunk_size); cbn [fst snd app];
    change (c :: v' ++ x :: sep) with ((c :: v') ++ x :: sep);
    destruct (strip ((c :: v') ++ x :: sep)) eqn:E; done.
Qed.

Lemma passes_marks chunk_size rest :
  forall (ms : list char) u v,
  ms <> [] ->
  strip u = v -> v <> [] -> chunk_size < Z.of_nat (length v) ->
  Forall (fun c => isspace c = false) v ->
  NoDup ms -> Forall (fun c => isspace c = false /\ c ∉ v) ms ->
  split_passes chunk_size (((fun c => [c]) <$> ms) ++ rest) [u]
    = split_passes chunk_size rest [v ++ ms].
Proof.
  induction ms as [|c ms IH]; intros u v Hms Hu Hne Hlen Hv Hnd Hall; [done|].
  apply NoDup_cons in Hnd as [Hc Hnd]. apply Forall_cons in Hall as [[Hcs Hcv] Hall].
  assert (Hv' : Forall (fun c => isspace c = false) (v ++ [c])).
  { apply Forall_app. split; [done|]. by apply Forall_singleton. }
  assert (Hpass : split_pass chunk_size [c] [u] = ok [v ++ [c]]).
  { apply pass_whole; try done. rewrite strip_no_space by done. by destruct v. }
  assert (Hstep : split_passes chunk_size ([c] :: ((fun c => [c]) <$> ms) ++ rest) [u]
                  = split_passes chunk_size (((fun c => [c]) <$> ms) ++ rest)
                      [v ++ [c]]).
  { cbn [split_passes]. by rewrite Hpass. }
  etrans; [exact Hstep|]. destruct ms as [|c' ms'].
  - done.
  - replace (v ++ c :: c' :: ms') with ((v ++ [c]) ++ c' :: ms')
      by (by rewrite <- app_assoc).
    apply IH; try done.
    + by apply strip_no_space.
    + by destruct v.
    + rewrite length_app. cbn [length]. lia.
    + apply Forall_forall. intros y Hy.
      destruct (proj1 (Forall_forall _ _) Hall y Hy) as [Hy1 Hy2]. split; [done|].
      rewrite elem_of_app, list_elem_of_singleton. intros [?| ->]; done.
Qed.

Lemma take_slice {A} (l : list A) (a k : Z) :
  0 <= a -> 0 < k ->
  take (Z.to_nat (a + k)) l = take (Z.to_nat a) l ++ slice a (a + k) l.
Proof.
  intros Ha Hk. unfold slice, clamp_index.
  destruct (Z.ltb_spec a 0), (Z.ltb_spec (a + k) 0); try lia.
  set (n := Z.of_nat (length l)).
  replace (Z.to_nat (a + k)) with (Z.to_nat a + Z.to_nat k)%nat by lia.
  rewrite <- take_take_drop. f_equal.
  destruct (Z.le_gt_cases n a) as [Hge|Hlt]; subst n.
  - rewrite !drop_ge by lia. by rewrite !take_nil.
  - rewrite (Z.min_l a) by lia.
    destruct (Z.le_gt_cases (a + k) (Z.of_nat (length l))).
    + rewrite Z.min_l by lia. f_equal. lia.
    + rewrite Z.min_r by lia. rewrite !take_ge; [done|..];
        rewrite length_drop; lia.
Qed.

Lemma hard_cut_pieces chunk_size t (m : nat) :
  0 < chunk_size ->
  concat (List.map (fun i => slice i (i + chunk_size) t)
            (List.map (fun k => Z.of_nat k * chunk_size) (seq 0 m)))
    = take (Z.to_nat (Z.of_nat m * chunk_size)) t.
Proof.
  intros Hc. induction m as [|m IH]; [done|].
  rewrite seq_S, !map_app, concat_app, IH. cbn [List.map concat plus].
  rewrite app_nil_r.
  replace (Z.of_nat (S m) * chunk_size) with (Z.of_nat m * chunk_size + chunk_size)
    by lia.
  rewrite take_slice by lia. done.
Qed.

(** The last pass cuts a text into pieces that make up the text, none
    of them empty. *)
Lemma hard_cut_covers chunk_size t :
  0 < chunk_size ->
  exists pieces,
    hard_cut chunk_size t = ok pieces
    /\ concat pieces = t
    /\ Forall (fun p => p <> [] /\ exists a b, p = take a (drop b t)) pieces.
Proof.
  intros Hc. unfold hard_cut.
  destruct (Z.eqb_spec chunk_size 0) as [?|_]; [lia|].
  destruct (Z.ltb_spec chunk_size 0) as [?|_]; [lia|].
  eexists. split; [reflexivity|]. unfold range_by.
  set (n := Z.of_nat (length t)). set (m := Z.to_nat ((n + chunk_size - 1) / chunk_size)).
  assert (Hm : n <= Z.of_nat m * chunk_size /\ (Z.of_nat m - 1) * chunk_size < n \/ n = 0 /\ m = 0%nat).
  { unfold m. destruct (Z.eq_dec n 0) as [Hz|Hnz].
    - right. split; [done|]. rewrite Hz. rewrite Z.div_small by lia. done.
    - left. assert (0 < n) by lia.
      rewrite Z2Nat.id by (apply Z.div_pos; lia).
      pose proof (Z.div_mod (n + chunk_size - 1) chunk_size ltac:(lia)) as Hdm.
      pose proof (Z.mod_pos_bound (n + chunk_size - 1) chunk_size Hc) as Hb.
      nia. }
  split.
  - rewrite hard_cut_pieces by done. apply take_ge. subst n. lia.
  - apply Forall_forall. intros p Hp.
    apply list_elem_of_In, in_map_iff in Hp as (i & <- & Hi).
    apply in_map_iff in Hi as (k & <- & Hk). apply in_seq in Hk.
    split.
    + intros Hnil. apply (f_equal (fun l => Z.of_nat (length l))) in Hnil.
      cbn [length] in Hnil. revert Hnil. unfold slice, clamp_index.
      destruct (Z.ltb_spec (Z.of_nat k * chunk_size) 0),
        (Z.ltb_spec (Z.of_nat k * chunk_size + chunk_size) 0); try lia.
      rewrite length_take, length_drop. fold n. nia.
    + unfold slice. by eexists _, _.
Qed.

Lemma nospace_not_in (c : char) t :
  isspace c = true -> Forall (fun c => isspace c = false) t -> c ∉ t.
Proof.
  intros Hc Ht Hin. apply (proj1 (Forall_forall _ _) Ht) in Hin. congruence.
Qed.

Lemma with_overlap_off overlap (chunks : list str) :
  overlap <= 0 -> with_overlap overlap chunks = chunks.
Proof.
  intros Ho. unfold with_overlap. destruct chunks as [|c0 [|c1 rest]]; try done.
  destruct (Z.ltb_spec 0 overlap); [lia|done].
Qed.

Lemma strip_all_plain (pieces : list str) :
  Forall (fun p => p <> [] /\ Forall (fun c => isspace c = false) p) pieces ->
  List.map strip (List.filter (fun c => nonempty (strip c)) pieces) = pieces.
Proof.
  induction 1 as [|p pieces [Hne Hp] _ IH]; [done|]. cbn [List.filter].
  rewrite (strip_no_space p Hp). destruct p; [done|]. cbn [nonempty List.map].
  rewrite IH. f_equal. by apply strip_no_space.
Qed.

End UnbrokenText.

(** X23.  [recursive_chunk_text] adds characters to a text it cannot
    cut.  For a text longer than a positive [chunk_size] that holds no
    white space and none of the six punctuation separators, with an
    overlap that is not positive, the chunks returned make up, one after
    the other, the text followed by these six punctuation marks: every
    pass whose separator is not found appends that separator, and only
    the white-space ones are stripped again. *)
Theorem unbroken_text_gets_the_marks_appended
    (text : str) (chunk_size overlap : Z) :
  0 < chunk_size < Z.of_nat (length text) ->
  overlap <= 0 ->
  unbroken text ->
  exists chunks,
    Chunking.recursive_chunk_text text chunk_size overlap = ok chunks
    /\ concat chunks = text ++ marks.
Proof.
  intros [Hpos Hlen] Hov Hun.
  assert (Hplain : Forall (fun c => isspace c = false) text).
  { eapply Forall_impl; [exact Hun|]. by intros c [? _]. }
  assert (Hne : text <> []) by (intros ->; cbn in Hlen; lia).
  assert (Hmarks : Forall (fun c => isspace c = false) marks).
  { by repeat constructor. }
  set (w := text ++ marks).
  assert (Hw : Forall (fun c => isspace c = false) w).
  { apply Forall_app. by split. }
  assert (Hwne : w <> []) by (unfold w; by destruct text).
  assert (Hwlen : chunk_size < Z.of_nat (length w)).
  { unfold w. rewrite length_app. lia. }
  (* the passes *)
  assert (HA : Chunking.split_pass chunk_size [10; 10]%N [text]
               = ok [text ++ [10; 10]%N]).
  { apply pass_whole; try done.
    - by apply strip_no_space.
    - by apply nospace_not_in.
    - rewrite strip_trailing; [done|done|by repeat constructor]. }
  assert (HB : Chunking.split_pass chunk_size [10]%N [text ++ [10; 10]%N]
               = ok [text ++ [10]%N]).
  { apply pass_whole; try done.
    - apply strip_trailing; [done|by repeat constructor].
    - by apply nospace_not_in.
    - rewrite strip_trailing; [done|done|by repeat constructor]. }
  assert (HD : Chunking.split_pass chunk_size [32]%N [w] = ok [w ++ [32]%N]).
  { apply pass_whole; try done.
    - by apply strip_no_space.
    - by apply nospace_not_in.
    - rewrite strip_trailing; [done|done|by repeat constructor]. }
  destruct (hard_cut_covers chunk_size w Hpos) as (pieces & Hcut & Hcat & Hpieces).
  assert (HE : Chunking.split_pass chunk_size [] [w ++ [32]%N] = ok pieces).
  { cbn [Chunking.split_pass]. rewrite strip_trailing by (done || by repeat constructor).
    destruct w as [|c0 w'] eqn:Ew; [done|]. rewrite <- Ew in *.
    destruct (Z.leb_spec (Z.of_nat (length w)) chunk_size) as [?|_]; [lia|].
    cbn [Chunking.pack_by_sep]. rewrite Hcut. cbn [bind ok]. by rewrite app_nil_r. }
  assert (Hpasses : Chunking.split_passes chunk_size Chunking.seps [text] = ok pieces).
  { assert (Hcons : forall sep rest chunks,
              Chunking.split_passes chunk_size (sep :: rest) chunks
              = (new_chunks <- Chunking.split_pass chunk_size sep chunks ;;
                 Chunking.split_passes chunk_size rest new_chunks))
      by reflexivity.
    assert (Hseps : Chunking.seps
              = [10; 10]%N :: [10]%N :: ((fun c => [c]) <$> marks) ++ [[32]%N; []])
      by reflexivity.
    rewrite Hseps, Hcons, HA. cbv beta iota delta [bind ok].
    rewrite Hcons, HB. cbv beta iota delta [bind ok].
    etrans; [apply (passes_marks chunk_size [[32]%N; []] marks (text ++ [10]%N) text);
             try done|].
    4:{ fold w. rewrite Hcons, HD. cbv beta iota delta [bind ok].
        rewrite Hcons, HE. done. }
    - apply strip_trailing; [done|by repeat constructor].
    - apply (bool_decide_unpack _). by vm_compute.
    - apply Forall_forall. intros c Hc. split.
      + by apply (proj1 (Forall_forall _ _) Hmarks).
      + intros Hin. by destruct (proj1 (Forall_forall _ _) Hun c Hin). }
  exists pieces. split; [|exact Hcat].
  unfold Chunking.recursive_chunk_text. destruct text as [|c0 text']; [done|].
  rewrite Hpasses. cbn [bind ok]. rewrite with_overlap_off by done.
  rewrite strip_all_plain; [done|].
  eapply Forall_impl; [exact Hpieces|]. intros p [Hp (a & b & ->)].
  split; [done|]. by apply Forall_take, Forall_drop.
Qed.

Lemma unbroken_text_gets_the_marks_appended_witness :
  exists chunks,
    Chunking.recursive_chunk_text (lit "abcdefgh") 3 0 = ok chunks
    /\ concat chunks = lit "abcdefgh" ++ marks.
Proof.
  apply (unbroken_text_gets_the_marks_appended (lit "abcdefgh") 3 0).
  - cbn. lia.
  - lia.
  - apply Forall_forall. intros c Hc. split.
    + apply (bool_decide_unpack _) in Hc || idtac. revert c Hc.
      apply Forall_forall. by repeat constructor.
    + revert c Hc. apply Forall_forall.
      repeat constructor; apply (bool_decide_unpack _); by vm_compute.
Defined.

(* ===================================================================== *)
(** * The chunks of a set of entities *)
(* ===================================================================== *)

Section ChunkLookup.
Import GraphStore GraphBuild GraphQuery.
Implicit Types (tbl rows : list EntityChunk).

Lemma by_mentions_total (a b : str * Z) : (b.2 <=? a.2) = true \/ (a.2 <=? b.2) = true.
Proof. destruct (Z.leb_spec b.2 a.2); [by left|right]. apply Z.leb_le. lia. Qed.

Lemma by_mentions_trans (a b c : str * Z) :
  (b.2 <=? a.2) = true -> (c.2 <=? b.2) = true -> (c.2 <=? a.2) = true.
Proof. rewrite !Z.leb_le. lia. Qed.

Lemma elem_of_mentioning tbl ctx ids r :
  r ∈ mentioning tbl ctx ids
  <-> r ∈ tbl /\ ec_app_id r = app_id ctx /\ ec_entity_id r ∈ ids.
Proof.
  unfold mentioning. rewrite list_elem_of_In, filter_In, <- list_elem_of_In.
  rewrite andb_true_iff, !bool_decide_eq_true. tauto.
Qed.

Lemma elem_of_mentioned_chunks rows cid :
  cid ∈ mentioned_chunks rows <-> exists r, r ∈ rows /\ ec_chunk_id r = cid.
Proof.
  unfold mentioned_chunks. rewrite elem_of_first_seen.
  change (List.map ec_chunk_id rows) with (ec_chunk_id <$> rows).
  rewrite list_elem_of_fmap. naive_solver.
Qed.

(** What [list_chunk_ids_by_entities] returns. *)
Lemma list_chunk_ids_facts tbl ctx ids limit :
  0 <= limit ->
  exists res,
    list_chunk_ids_by_entities tbl ctx ids limit = ok res
    /\ NoDup res
    /\ Z.of_nat (length res) <= limit
    /\ (forall cid, cid ∈ res ->
          exists r, r ∈ tbl /\ ec_app_id r = app_id ctx /\ ec_entity_id r ∈ ids
                    /\ ec_chunk_id r = cid)
    /\ StronglySorted
         (fun c1 c2 => group_score (mentioning tbl ctx ids) c2
                       <= group_score (mentioning tbl ctx ids) c1) res
    /\ (Z.of_nat (length (mentioned_chunks (mentioning tbl ctx ids))) <= limit ->
        forall r, r ∈ tbl -> ec_app_id r = app_id ctx -> ec_entity_id r ∈ ids ->
                  ec_chunk_id r ∈ res).
Proof.
  intros Hlimit. unfold list_chunk_ids_by_entities.
  destruct ids as [|i0 ids'] eqn:Hids.
  { exists []. split; [done|]. split; [constructor|]. split; [cbn; lia|].
    split; [by intros cid ?%elem_of_nil|]. split; [constructor|].
    by intros _ r _ _ ?%elem_of_nil. }
  rewrite <- Hids. clear Hids i0 ids'.
  destruct (Z.ltb_spec limit 0) as [?|_]; [lia|].
  eexists. split; [reflexivity|].
  set (rows := mentioning tbl ctx ids).
  set (scores := chunk_scores tbl ctx ids).
  set (sorted := sort_by (fun a b : str * Z => b.2 <=? a.2) scores).
  assert (Hperm : sorted ≡ₚ scores) by apply sort_by_perm.
  assert (Hkeys : scores.*1 = mentioned_chunks rows).
  { unfold scores, chunk_scores. fold rows.
    change (List.map ?f ?l) with (f <$> l).
    rewrite <- list_fmap_compose. by rewrite list_fmap_id. }
  assert (Hscore : forall p, p ∈ scores -> p.2 = group_score rows p.1).
  { intros p Hp. unfold scores, chunk_scores in Hp. fold rows in Hp.
    apply list_elem_of_In, in_map_iff in Hp as (cid & <- & _). done. }
  assert (Hsub : sql_limit limit sorted `sublist_of` sorted) by apply sublist_take.
  change (List.map fst ?l) with (l.*1).
  split_and!.
  - eapply sublist_NoDup; [|by apply fmap_sublist].
    rewrite Hperm, Hkeys. apply NoDup_first_seen.
  - rewrite length_fmap. unfold sql_limit. rewrite length_take. lia.
  - intros cid Hcid.
    assert (Hin : cid ∈ mentioned_chunks rows).
    { rewrite <- Hkeys, <- Hperm. eapply elem_of_sublist; [exact Hcid|].
      by apply fmap_sublist. }
    apply elem_of_mentioned_chunks in Hin as (r & Hr & <-).
    apply elem_of_mentioning in Hr as (? & ? & ?). by exists r.
  - assert (Hs : StronglySorted (fun a b : str * Z => (b.2 <=? a.2) = true)
                   (sql_limit limit sorted)).
    { apply StronglySorted_take.
      apply (sort_by_sorted _ by_mentions_total by_mentions_trans). }
    assert (Hall : Forall (fun p => p ∈ scores) (sql_limit limit sorted)).
    { apply Forall_forall. intros p Hp. rewrite <- Hperm.
      by eapply elem_of_sublist. }
    clear Hsub. induction Hs as [|p l Hs IH Hp]; [constructor|].
    apply Forall_cons in Hall as [Hp0 Hall]. cbn [fmap list_fmap].
    constructor; [by apply IH|].
    apply Forall_fmap, Forall_forall. intros q Hq. cbn.
    pose proof (proj1 (Forall_forall _ _) Hp q Hq) as Hle. apply Z.leb_le in Hle.
    rewrite <- (Hscore p Hp0), <- (Hscore q); [done|].
    by apply (proj1 (Forall_forall _ _) Hall).
  - intros Hfew r Hr Happ Heid.
    assert (Hall : sql_limit limit sorted = sorted).
    { unfold sql_limit. apply take_ge.
      rewrite Hperm, <- (length_fmap fst), Hkeys. lia. }
    rewrite Hall, Hperm, Hkeys. apply elem_of_mentioned_chunks. exists r.
    split; [|done]. by apply elem_of_mentioning.
Qed.

(** After [upsert_entity_chunk] the table holds a row of the key. *)
Lemma upsert_entity_chunk_holds tbl ctx eid cid n pos ectx conf cls :
  exists r, r ∈ upsert_entity_chunk tbl ctx eid cid n pos ectx conf cls
            /\ ec_app_id r = app_id ctx /\ ec_entity_id r = eid
            /\ ec_chunk_id r = cid.
Proof.
  unfold upsert_entity_chunk. destruct (existsb _ tbl) eqn:Hex.
  - apply existsb_exists in Hex as (r & Hin & Hk).
    exists (merge_entity_chunk n conf cls r).
    apply bool_decide_eq_true in Hk as (Ha & He & Hc). split; [|done].
    apply list_elem_of_In, in_map_iff. exists r. split; [|done].
    unfold has_mention_key. by rewrite bool_decide_eq_true_2.
  - eexists. split; [apply elem_of_app; right; by apply list_elem_of_singleton|].
    done.
Qed.

End ChunkLookup.

(** X24.  [list_chunk_ids_by_entities] with a limit that is not
    negative returns chunk identifiers without repetition, at most
    [limit] of them, each the chunk of a mention the tenant has recorded
    for one of the entities asked for, in non-increasing order of the
    total of these mentions; when the chunks with such a mention are at
    most [limit], all of them are returned. *)
Theorem list_chunk_ids_by_entities_ranks_the_chunks
    (tbl : list GraphBuild.EntityChunk) (ctx : GraphStore.RlsContext)
    (ids : list str) (limit : Z) :
  0 <= limit ->
  exists res,
    GraphQuery.list_chunk_ids_by_entities tbl ctx ids limit = ok res
    /\ NoDup res
    /\ Z.of_nat (length res) <= limit
    /\ (forall cid, cid ∈ res ->
          exists r, r ∈ tbl /\ GraphBuild.ec_app_id r = GraphStore.app_id ctx
                    /\ GraphBuild.ec_entity_id r ∈ ids
                    /\ GraphBuild.ec_chunk_id r = cid)
    /\ StronglySorted
         (fun c1 c2 =>
            GraphQuery.group_score (GraphQuery.mentioning tbl ctx ids) c2
            <= GraphQuery.group_score (GraphQuery.mentioning tbl ctx ids) c1) res
    /\ (Z.of_nat (length (GraphQuery.mentioned_chunks
                            (GraphQuery.mentioning tbl ctx ids))) <= limit ->
        forall r, r ∈ tbl -> GraphBuild.ec_app_id r = GraphStore.app_id ctx ->
                  GraphBuild.ec_entity_id r ∈ ids ->
                  GraphBuild.ec_chunk_id r ∈ res).
Proof. apply list_chunk_ids_facts. Qed.

Lemma list_chunk_ids_by_entities_ranks_the_chunks_witness :
  exists res,
    GraphQuery.list_chunk_ids_by_entities
      (GraphBuild.s_entity_chunk
         (GraphBuild.graph_build default_config sample_ctx 0 sample_stores
            sample_document).1)
      sample_ctx [lit "e1"] 5 = ok res
    /\ res = [lit "c1"].
Proof.
  destruct (list_chunk_ids_by_entities_ranks_the_chunks
              (GraphBuild.s_entity_chunk
                 (GraphBuild.graph_build default_config sample_ctx 0 sample_stores
                    sample_document).1)
              sample_ctx [lit "e1"] 5 ltac:(lia)) as (res & Hres & _).
  exists res. split; [exact Hres|]. vm_compute in Hres. by injection Hres as <-.
Defined.

(** X25.  A mention that has been recorded is found: after
    [upsert_entity_chunk] has recorded a mention of an entity in a
    chunk, [list_chunk_ids_by_entities], asked for a set of entities
    that holds this one and with a limit no smaller than the number of
    chunks that mention the set, returns that chunk. *)
Theorem recorded_mention_is_found
    (tbl : list GraphBuild.EntityChunk) (ctx : GraphStore.RlsContext)
    (eid cid : str) (n : Z) (pos : option Z) (ectx : option str) (conf : str)
    (cls : Z) (ids : list str) (limit : Z) :
  let tbl' := GraphBuild.upsert_entity_chunk tbl ctx eid cid n pos ectx conf cls in
  eid ∈ ids ->
  Z.of_nat (length (GraphQuery.mentioned_chunks (GraphQuery.mentioning tbl' ctx ids)))
    <= limit ->
  exists res,
    GraphQuery.list_chunk_ids_by_entities tbl' ctx ids limit = ok res
    /\ cid ∈ res.
Proof.
  intros tbl' Heid Hfew.
  destruct (list_chunk_ids_facts tbl' ctx ids limit ltac:(lia))
    as (res & Hres & _ & _ & _ & _ & Hall).
  exists res. split; [done|].
  destruct (upsert_entity_chunk_holds tbl ctx eid cid n pos ectx conf cls)
    as (r & Hr & Ha & He & Hc).
  rewrite <- Hc. apply (Hall Hfew r Hr Ha). by rewrite He.
Qed.

Lemma recorded_mention_is_found_witness :
  exists res,
    GraphQuery.list_chunk_ids_by_entities
      (GraphBuild.upsert_entity_chunk [] sample_ctx (lit "e1") (lit "c1") 1 None None
         (lit "medium") 0)
      sample_ctx [lit "e1"; lit "e2"] 3 = ok res
    /\ lit "c1" ∈ res.
Proof.
  apply (recorded_mention_is_found [] sample_ctx (lit "e1") (lit "c1") 1 None None
           (lit "medium") 0 [lit "e1"; lit "e2"] 3).
  - apply elem_of_cons. by left.
  - vm_compute. discriminate.
Defined.
